(** * An adaptive quadtree over the unit square (g_star.py)

    The development embeds the classes [Node] and [FractalGrid] of
    [g_star.py] and proves the properties the specification states about
    them.

    Objects.  Python objects have identity and are mutated in place: the
    nodes live in an object store and are named by references, so that the
    list of nodes handed out by [get_leaves] and the tree itself talk about
    the same objects.  A constructor call appends to the store; an object
    that nothing refers to any more simply stays there.

    Numbers.  Python's [float] values (coordinates, bounds, loads,
    thresholds, factors) are modelled by exact rationals [Q]; rounding,
    infinities and NaN are outside the model.  Integers ([level],
    [max_level]) are [Z].

    Partiality.  A function of the model returns [None] where Python has no
    result to offer: a reference that names no object of the store, a
    traversal that does not end within its fuel, or [merge] called on a
    leaf.  The traversals take their fuel from the size of the store; on
    the stores a grid can reach every operation is shown to return.

    Locking and output.  Every public method of [FractalGrid] runs under
    the grid's re-entrant lock and is modelled as one atomic store
    transformer.  The threads, the workers and the slider callbacks of the
    main block are modelled by the critical sections they go through, in
    any interleaving, and [update_anim] by the rectangles it computes; the
    [print] and [sleep] calls and the calls into the plotting library are
    not part of the model. *)

From Stdlib Require Import QArith Lqa ZArith Lia SpecFloat Qround Qpower.
From stdpp Require Import base option list relations.

(** ** Numbers *)

(** [x < y] on floats, as a boolean. *)
Definition Qltb (x y : Q) : bool :=
  match (x ?= y)%Q with Lt => true | _ => false end.

(** Python's [sum(...)]: a left fold that starts from [0]. *)
Definition sum (l : list Q) : Q := fold_left Qplus l 0%Q.

(** The literal [1e-6]. *)
Definition eps : Q := (1 # 1000000)%Q.

(** ** Outcomes of a call *)

Inductive exn := ValueError.

Inductive outcome (A : Type) :=
| Returns (a : A)
| Raises (e : exn).
Arguments Returns {A} a.
Arguments Raises {A} e.

(** [validate_coord]: [if 0 <= x < 1: return x], else [raise ValueError]. *)
Definition validate_coord (x : Q) : outcome Q :=
  if Qle_bool 0 x && Qltb x 1 then Returns x else Raises ValueError.

(** ** Nodes and the object store *)

(** A reference names a [Node] object. *)
Abbreviation ref := nat.

(** The four values of the [children] dict, keys 0..3. *)
Definition quad : Type := (ref * ref * ref * ref)%type.

Record Node := mkNode {
  x_min : Q;
  y_min : Q;
  x_max : Q;
  y_max : Q;
  level : Z;
  parent : option ref;
  children : option quad;
  load : Q
}.

(** The store: the object with reference [r] is the [r]-th entry.  A
    constructor call appends; nothing is ever removed (an object that is no
    longer referenced is merely unreachable). *)
Abbreviation heap := (list Node).

(** [Node.__init__]: no children, load [0.0]. *)
Definition Node_init (xmin ymin xmax ymax : Q) (lvl : Z) (par : option ref) : Node :=
  {| x_min := xmin; y_min := ymin; x_max := xmax; y_max := ymax;
     level := lvl; parent := par; children := None; load := 0%Q |}.

(** Attribute assignments [n.children = c] and [n.load = v]. *)
Definition set_children (c : option quad) (n : Node) : Node :=
  {| x_min := x_min n; y_min := y_min n; x_max := x_max n; y_max := y_max n;
     level := level n; parent := parent n; children := c; load := load n |}.

Definition set_load (v : Q) (n : Node) : Node :=
  {| x_min := x_min n; y_min := y_min n; x_max := x_max n; y_max := y_max n;
     level := level n; parent := parent n; children := children n; load := v |}.

(** [self.children.values()]: insertion order of the keys 0, 1, 2, 3. *)
Definition children_values (cs : quad) : list ref :=
  let '(c0, c1, c2, c3) := cs in [c0; c1; c2; c3].

(** [is_leaf]: [self.children is None]. *)
Definition is_leaf (n : Node) : bool :=
  match children n with None => true | Some _ => false end.

(** [contains]: [x_min <= x < x_max and y_min <= y < y_max]. *)
Definition contains (n : Node) (x y : Q) : bool :=
  (Qle_bool (x_min n) x && Qltb x (x_max n))
  && (Qle_bool (y_min n) y && Qltb y (y_max n)).

(** Dereferencing every element of a list of references. *)
Definition deref_all (h : heap) (rs : list ref) : option (list Node) :=
  mapM (λ r, h !! r) rs.

(** [subdivide]: four fresh children at [level + 1] over the quadrants, each
    given a quarter of the load; the node's own load becomes [0.0]. *)
Definition subdivide (self : ref) (h : heap) : option heap :=
  n ← h !! self;
  let mid_x := ((x_min n + x_max n) / 2)%Q in
  let mid_y := ((y_min n + y_max n) / 2)%Q in
  let c0 := length h in
  let c1 := S c0 in
  let c2 := S c1 in
  let c3 := S c2 in
  let h1 := h ++ [ Node_init (x_min n) (y_min n) mid_x mid_y (level n + 1) (Some self);
                   Node_init mid_x (y_min n) (x_max n) mid_y (level n + 1) (Some self);
                   Node_init (x_min n) mid_y mid_x (y_max n) (level n + 1) (Some self);
                   Node_init mid_x mid_y (x_max n) (y_max n) (level n + 1) (Some self) ] in
  let h2 := alter (set_children (Some (c0, c1, c2, c3))) self h1 in
  let distributed_load := (load n / 4)%Q in
  let h3 := foldl (λ hh child, alter (set_load distributed_load) child hh) h2
                  (children_values (c0, c1, c2, c3)) in
  Some (alter (set_load 0%Q) self h3).

(** [can_merge]: the sum of the children's loads is taken first, then any
    internal child blocks the merge. *)
Definition can_merge (h : heap) (self : ref) (merge_threshold : Q) : option bool :=
  n ← h !! self;
  match children n with
  | None => Some false
  | Some cs =>
      kids ← deref_all h (children_values cs);
      let total := sum (load <$> kids) in
      if existsb (λ child, negb (is_leaf child)) kids then Some false
      else Some (Qltb total merge_threshold)
  end.

(** [merge]: the children's loads are summed, the children dropped, the sum
    stored.  On a leaf the Python code fails on [None.values()]; the model
    is undefined there. *)
Definition merge (self : ref) (h : heap) : option heap :=
  n ← h !! self;
  cs ← children n;
  kids ← deref_all h (children_values cs);
  let total_load := sum (load <$> kids) in
  Some (alter (set_load total_load) self (alter (set_children None) self h)).

(** ** The grid *)

Record FractalGrid := mkGrid {
  root : ref;
  max_level : Z;
  split_threshold : Q;
  merge_threshold : Q;
  decay_factor : Q;
  decay_interval : Q
}.

(** [FractalGrid.__init__]: allocates the root node. *)
Definition FractalGrid_init (xmin ymin xmax ymax : Q) (maxl : Z)
    (split merge_t decay_f decay_i : Q) (h : heap) : FractalGrid * heap :=
  ({| root := length h; max_level := maxl; split_threshold := split;
      merge_threshold := merge_t; decay_factor := decay_f;
      decay_interval := decay_i |},
   h ++ [Node_init xmin ymin xmax ymax 0 None]).

(** The inner [for child in current.children.values()] of [_find_leaf]:
    [Some (Some c)] when [c] is the first child containing the point,
    [Some None] when no child does. *)
Fixpoint scan_children (h : heap) (cs : list ref) (x y : Q) : option (option ref) :=
  match cs with
  | [] => Some None
  | c :: cs' =>
      child ← h !! c;
      if contains child x y then Some (Some c) else scan_children h cs' x y
  end.

(** The [while not current.is_leaf()] loop of [_find_leaf]; [fuel] bounds
    the number of iterations. *)
Fixpoint find_leaf_loop (fuel : nat) (h : heap) (current : ref) (x y : Q) : option ref :=
  match fuel with
  | O => None
  | S fuel' =>
      n ← h !! current;
      match children n with
      | None => Some current
      | Some cs =>
          found ← scan_children h (children_values cs) x y;
          match found with
          | Some child => find_leaf_loop fuel' h child x y
          | None => Some current
          end
      end
  end.

(** A descent visits each store entry at most once when children are
    younger than their parent, so [S (length h)] iterations suffice. *)
Definition _find_leaf (h : heap) (node : ref) (x y : Q) : option ref :=
  find_leaf_loop (S (length h)) h node x y.

(** [_rebalance]: the split guard. *)
Definition _rebalance (g : FractalGrid) (node : ref) (h : heap) : option heap :=
  n ← h !! node;
  if Qltb (split_threshold g) (load n) && (level n <? max_level g)%Z && is_leaf n
  then subdivide node h
  else Some h.

(** [get]: validates, finds the leaf, adds [1.0] to its load and returns
    the new load.  A raised exception leaves the store as it is at that
    point. *)
Definition get (g : FractalGrid) (x y : Q) (h : heap) : option (outcome Q * heap) :=
  match validate_coord x with
  | Raises e => Some (Raises e, h)
  | Returns x =>
      match validate_coord y with
      | Raises e => Some (Raises e, h)
      | Returns y =>
          leaf ← _find_leaf h (root g) x y;
          n ← h !! leaf;
          let h' := alter (set_load (load n + 1)%Q) leaf h in
          n' ← h' !! leaf;
          Some (Returns (load n'), h')
      end
  end.

(** [set]: as [get], then the local rebalance of the node found. *)
Definition set (g : FractalGrid) (x y : Q) (h : heap) : option (outcome unit * heap) :=
  match validate_coord x with
  | Raises e => Some (Raises e, h)
  | Returns x =>
      match validate_coord y with
      | Raises e => Some (Raises e, h)
      | Returns y =>
          leaf ← _find_leaf h (root g) x y;
          n ← h !! leaf;
          let h' := alter (set_load (load n + 1)%Q) leaf h in
          h'' ← _rebalance g leaf h';
          Some (Returns tt, h'')
      end
  end.

(** A [for c in cs: body(c)] loop over references. *)
Fixpoint for_each (body : ref → heap → option heap) (cs : list ref) (h : heap) : option heap :=
  match cs with
  | [] => Some h
  | c :: cs' => h' ← body c h; for_each body cs' h'
  end.

(** [_merge_repeatedly]: children first, then the node itself. *)
Fixpoint _merge_repeatedly (g : FractalGrid) (fuel : nat) (node : ref) (h : heap) : option heap :=
  match fuel with
  | O => None
  | S fuel' =>
      n ← h !! node;
      match children n with
      | None => Some h
      | Some cs =>
          h1 ← for_each (_merge_repeatedly g fuel') (children_values cs) h;
          b ← can_merge h1 node (merge_threshold g);
          if (b : bool) then merge node h1 else Some h1
      end
  end.

Definition periodic_rebalance (g : FractalGrid) (h : heap) : option heap :=
  _merge_repeatedly g (S (length h)) (root g) h.

(** The inner [decay] of [decay_load]. *)
Fixpoint decay (df : Q) (fuel : nat) (n : ref) (h : heap) : option heap :=
  match fuel with
  | O => None
  | S fuel' =>
      nd ← h !! n;
      match children nd with
      | None =>
          let v := (load nd * df)%Q in
          Some (alter (set_load (if Qltb v eps then 0%Q else v)) n h)
      | Some cs => for_each (decay df fuel') (children_values cs) h
      end
  end.

Definition decay_load (g : FractalGrid) (df : Q) (h : heap) : option heap :=
  decay df (S (length h)) (root g) h.

(** The inner [gather] of [get_leaves]: the leaf objects themselves, in
    quadrant order. *)
Fixpoint gather (fuel : nat) (h : heap) (n : ref) : option (list ref) :=
  match fuel with
  | O => None
  | S fuel' =>
      nd ← h !! n;
      match children nd with
      | None => Some [n]
      | Some cs =>
          parts ← mapM (gather fuel' h) (children_values cs);
          Some (concat parts)
      end
  end.

Definition get_leaves (g : FractalGrid) (h : heap) : option (list ref) :=
  gather (S (length h)) h (root g).

(** * Specification vocabulary *)

(** ** Coordinates and geometry *)

(** A coordinate accepted by [validate_coord]. *)
Definition in_unit (x : Q) : Prop := (0 <= x)%Q ∧ (x < 1)%Q.

Definition bounds (n : Node) : Q * Q * Q * Q :=
  (x_min n, y_min n, x_max n, y_max n).

(** No method assigns [x_min], [y_min], [x_max], [y_max], [level] or
    [parent] after construction. *)
Definition same_geometry (n n' : Node) : Prop :=
  bounds n' = bounds n ∧ level n' = level n ∧ parent n' = parent n.

(** Every object of [h] still exists in [h'], with the same geometry. *)
Definition extends (h h' : heap) : Prop :=
  ∀ r n, h !! r = Some n → ∃ n', h' !! r = Some n' ∧ same_geometry n n'.

Definition mid_x (n : Node) : Q := ((x_min n + x_max n) / 2)%Q.
Definition mid_y (n : Node) : Q := ((y_min n + y_max n) / 2)%Q.

(** Bounds of quadrant [i] (0 lower-left, 1 lower-right, 2 upper-left,
    3 upper-right) of a node. *)
Definition quadrant_bounds (n : Node) (i : nat) : Q * Q * Q * Q :=
  match i with
  | 0 => (x_min n, y_min n, mid_x n, mid_y n)
  | 1 => (mid_x n, y_min n, x_max n, mid_y n)
  | 2 => (x_min n, mid_y n, mid_x n, y_max n)
  | _ => (mid_x n, mid_y n, x_max n, y_max n)
  end.

(** The [i]-th child as [subdivide] leaves it. *)
Definition new_child (self : ref) (n : Node) (i : nat) : Node :=
  let '(a, b, c, d) := quadrant_bounds n i in
  set_load (load n / 4)%Q (Node_init a b c d (level n + 1) (Some self)).

Definition new_quad (h : heap) : quad :=
  (length h, S (length h), S (S (length h)), S (S (S (length h)))).

(** ** Well-formed stores

    The invariant is local: it constrains every object of the store by
    itself and through the objects its [children] name. *)

Definition child_ok (h : heap) (self : ref) (n : Node) (i : nat) (c : ref) : Prop :=
  self < c ∧ ∃ nc, h !! c = Some nc ∧ parent nc = Some self
    ∧ level nc = (level n + 1)%Z ∧ bounds nc = quadrant_bounds n i.

Definition quad_ok (h : heap) (self : ref) (n : Node) (cs : quad) : Prop :=
  let '(c0, c1, c2, c3) := cs in
  NoDup [c0; c1; c2; c3]
  ∧ child_ok h self n 0 c0 ∧ child_ok h self n 1 c1
  ∧ child_ok h self n 2 c2 ∧ child_ok h self n 3 c3.

Record node_ok (ml : Z) (h : heap) (r : ref) (n : Node) : Prop := mk_node_ok {
  ok_load : (0 <= load n)%Q;
  ok_internal_load : is_leaf n = false → load n = 0%Q;
  ok_level : (level n <= Z.max 0 ml)%Z;
  ok_children : ∀ cs, children n = Some cs → (level n < ml)%Z ∧ quad_ok h r n cs
}.

Definition wf (ml : Z) (h : heap) : Prop :=
  ∀ r n, h !! r = Some n → node_ok ml h r n.

(** ** The tree inside the store *)

(** [c] is one of the children of [a]. *)
Definition child_of (h : heap) (a c : ref) : Prop :=
  ∃ n cs, h !! a = Some n ∧ children n = Some cs ∧ c ∈ children_values cs.

(** [d] is [a] or below [a]. *)
Definition desc (h : heap) : relation ref := rtc (child_of h).

(** The nodes of the grid's tree. *)
Definition in_tree (g : FractalGrid) (h : heap) (r : ref) : Prop :=
  desc h (root g) r.

(** The subtrees below the references of [cs] are pairwise disjoint. *)
Definition disjoint_below (h : heap) (cs : list ref) : Prop :=
  NoDup cs
  ∧ ∀ c c' d, c ∈ cs → c' ∈ cs → desc h c d → desc h c' d → c = c'.

(** The rectangle of [n] covers every point that [validate_coord]
    accepts. *)
Definition covers_unit (n : Node) : Prop :=
  (x_min n <= 0)%Q ∧ (y_min n <= 0)%Q ∧ (1 <= x_max n)%Q ∧ (1 <= y_max n)%Q.

(** The store is well formed and the root, at level 0, covers the unit
    square. *)
Definition grid_ok (g : FractalGrid) (h : heap) : Prop :=
  wf (max_level g) h
  ∧ ∃ n, h !! root g = Some n ∧ covers_unit n ∧ level n = 0%Z.

(** The guard of [_rebalance], as a proposition. *)
Definition split_guard (g : FractalGrid) (n : Node) : Prop :=
  (split_threshold g < load n)%Q ∧ (level n < max_level g)%Z ∧ is_leaf n = true.

(** The total load held by the leaves at or below [r]. *)
Fixpoint subtree_load (fuel : nat) (h : heap) (r : ref) : option Q :=
  match fuel with
  | O => None
  | S fuel' =>
      n ← h !! r;
      match children n with
      | None => Some (load n)
      | Some cs =>
          tots ← mapM (subtree_load fuel' h) (children_values cs);
          Some (sum tots)
      end
  end.

(** ** Runs of the public operations *)

Inductive op :=
| OpGet (x y : Q)
| OpSet (x y : Q)
| OpPeriodicRebalance
| OpDecayLoad (df : Q)
| OpGetLeaves.

(** The store a call leaves behind (also when it raised). *)
Definition run (g : FractalGrid) (o : op) (h : heap) : option heap :=
  match o with
  | OpGet x y => snd <$> get g x y h
  | OpSet x y => snd <$> set g x y h
  | OpPeriodicRebalance => periodic_rebalance g h
  | OpDecayLoad df => decay_load g df h
  | OpGetLeaves => _ ← get_leaves g h; Some h
  end.

Definition step (g : FractalGrid) (h h' : heap) : Prop :=
  ∃ o, run g o h = Some h'.

(** The stores reachable from [h0] by public operations. *)
Definition reachable (g : FractalGrid) (h0 : heap) : heap → Prop :=
  rtc (step g) h0.

(** [FractalGrid(max_level=ml, split_threshold=st, merge_threshold=mt,
    decay_factor=df, decay_interval=di)], on the default unit square, in an
    empty store. *)
Definition fresh (ml : Z) (st mt df di : Q) : FractalGrid * heap :=
  FractalGrid_init 0 0 1 1 ml st mt df di [].

(** [FractalGrid()]: every argument at its default. *)
Definition default_grid : FractalGrid * heap := fresh 6 5 2 (9 # 10) 1.

(** [FractalGrid(x_min=xmin, y_min=ymin, x_max=xmax, y_max=ymax,
    max_level=ml, ...)]: the constructor takes any rectangle; [fresh] is
    [built 0 0 1 1]. *)
Definition built (xmin ymin xmax ymax : Q) (ml : Z) (st mt df di : Q)
    : FractalGrid * heap :=
  FractalGrid_init xmin ymin xmax ymax ml st mt df di [].

(** [k] successive calls of the same operation. *)
Fixpoint repeat_op (g : FractalGrid) (o : op) (k : nat) (h : heap) : option heap :=
  match k with
  | O => Some h
  | S k' => h' ← repeat_op g o k' h; run g o h'
  end.

(** ** Effects of the sweeps *)

(** No object is added, geometry is kept, and a node keeps its children or
    loses them. *)
Definition shrinks (h h' : heap) : Prop :=
  length h' = length h
  ∧ ∀ r n, h !! r = Some n →
      ∃ n', h' !! r = Some n' ∧ same_geometry n n'
        ∧ (children n' = children n ∨ children n' = None).

(** The objects of [h'] are those of [h] up to their loads. *)
Definition load_variant (h h' : heap) : Prop :=
  length h' = length h
  ∧ ∀ r n, h !! r = Some n → ∃ v, h' !! r = Some (set_load v n).

(** What [decay_load] leaves in a leaf: the load times the factor, or
    [0.0] when that product is below [1e-6]. *)
Definition decayed (df : Q) (n : Node) : Node :=
  set_load (if Qltb (load n * df) eps then 0 else load n * df)%Q n.

(** The effect of [decay] started at [a]: the leaves at or below [a] are
    decayed once, every other object is untouched. *)
Definition decay_effect (df : Q) (h : heap) (a : ref) (h' : heap) : Prop :=
  length h' = length h
  ∧ ∀ r n, h !! r = Some n →
      (desc h a r → is_leaf n = true → h' !! r = Some (decayed df n))
      ∧ (¬ desc h a r ∨ is_leaf n = false → h' !! r = Some n).

(** What a bottom-up sweep started at [a] guarantees: objects that are not
    below [a] are untouched, and no node left at or below [a] can merge. *)
Definition sweep_effect (g : FractalGrid) (h : heap) (a : ref) (h' : heap) : Prop :=
  (∀ r, ¬ desc h a r → h' !! r = h !! r)
  ∧ (∀ r, desc h' a r → can_merge h' r (merge_threshold g) = Some false).

(** [a] is the node [n], whose children are the objects [kids]. *)
Definition mergeable_at (a : ref) (n : Node) (cs : quad) (kids : list Node)
    (h : heap) : Prop :=
  h !! a = Some n ∧ deref_all h (children_values cs) = Some kids.

(** [a] has become a leaf holding the sum of the loads of [kids]. *)
Definition merged_at (a : ref) (kids : list Node) (h : heap) : Prop :=
  ∃ n', h !! a = Some n' ∧ is_leaf n' = true ∧ load n' = sum (load <$> kids).

(** [r] is a leaf holding (a rational equal to) [T]. *)
Definition collapsed (h : heap) (r : ref) (T : Q) : Prop :=
  ∃ n, h !! r = Some n ∧ is_leaf n = true ∧ (load n == T)%Q.

(** ** The readings of the statements that fail *)

(** The reading of claim C1: whatever operation follows [get_leaves], the
    elements of the returned sequence keep their bounds, level and load. *)
Definition snapshot_immutable (g : FractalGrid) (h : heap) : Prop :=
  ∀ ls o h' r n n',
    get_leaves g h = Some ls → run g o h = Some h' → r ∈ ls →
    h !! r = Some n → h' !! r = Some n' →
    bounds n' = bounds n ∧ level n' = level n ∧ (load n' == load n)%Q.

(** The reading of the depth bound of claim C4, for a grid built with
    depth cap [ml]: no node of a reachable tree is deeper than [ml]. *)
Definition depth_capped (ml : Z) : Prop :=
  ∀ st mt df di h r n,
    reachable (fresh ml st mt df di).1 (fresh ml st mt df di).2 h →
    in_tree (fresh ml st mt df di).1 h r → h !! r = Some n →
    (level n <= ml)%Z.


(** The reading of claim C3 for the grids built on that rectangle: in every
    reachable tree the node [_find_leaf] returns for a valid point contains
    the point. *)
Definition find_leaf_contains_on (xmin ymin xmax ymax : Q) : Prop :=
  ∀ ml st mt df di h x y r nr,
    reachable (built xmin ymin xmax ymax ml st mt df di).1
      (built xmin ymin xmax ymax ml st mt df di).2 h →
    in_unit x → in_unit y →
    _find_leaf h (root (built xmin ymin xmax ymax ml st mt df di).1) x y = Some r →
    h !! r = Some nr →
    contains nr x y = true.

(** ** Stores and grids of the scenarios *)

(** [FractalGrid(x_min=0.5, split_threshold=0)]: a grid whose root does not
    cover the coordinates [validate_coord] accepts. *)
Definition half_grid : FractalGrid * heap := built (1 # 2) 0 1 1 6 0 2 (9 # 10) 1.

(** The store of [half_grid] after [set(0.75, 0.5)], which split the
    root. *)
Definition half_store : heap :=
  [ set_children (Some (1, 2, 3, 4)) (Node_init (1 # 2) 0 1 1 0 None);
    set_load (1 # 4)%Q (Node_init (1 # 2) 0 (3 # 4) (1 # 2) 1 (Some 0));
    set_load (1 # 4)%Q (Node_init (3 # 4) 0 1 (1 # 2) 1 (Some 0));
    set_load (1 # 4)%Q (Node_init (1 # 2) (1 # 2) (3 # 4) 1 1 (Some 0));
    set_load (1 # 4)%Q (Node_init (3 # 4) (1 # 2) 1 1 1 (Some 0)) ].

(** That store after [get(0.25, 0.5)]: the root, an internal node, holds
    load 1. *)
Definition charged_store : heap := alter (set_load (0 + 1)%Q) 0 half_store.

(** [FractalGrid(x_min=-1, y_min=-1, x_max=2, y_max=2)]: a grid on a
    rectangle larger than the unit square. *)
Definition wide_grid : FractalGrid * heap := built (-1) (-1) 2 2 6 5 2 (9 # 10) 1.

(** The store of a default grid after one [get(0.5, 0.5)]: the root is a
    leaf of load 1.0. *)
Definition one_load_store : heap := [set_load 1%Q (Node_init 0 0 1 1 0 None)].

(** The load of the root after [k] calls [decay_load(0.9)] from
    [one_load_store]. *)
Definition root_load_after (k : nat) : option Q :=
  h ← repeat_op default_grid.1 (OpDecayLoad (9 # 10)) k one_load_store;
  n ← h !! root default_grid.1;
  Some (load n).

(** One step of Scenario D: the load is still at least [1e-6] before the
    step and strictly smaller after it. *)
Definition decay_step_ok (k : nat) : bool :=
  match root_load_after k, root_load_after (S k) with
  | Some l, Some l' => Qltb l' l && Qle_bool eps l
  | _, _ => false
  end.

(** A store that is not well formed: an internal node whose children miss
    part of its cell, so that a descent can fall back to the internal
    node. *)
Definition stray_store : heap :=
  [ set_children (Some (1, 1, 1, 1)) (Node_init 0 0 1 1 0 None);
    Node_init 0 0 (1 # 4) (1 # 4) 1 (Some 0) ].

(** A root with four leaf children whose loads are 1, 1, 1, 1. *)
Definition merge_store : heap :=
  [ set_children (Some (1, 2, 3, 4)) (Node_init 0 0 1 1 0 None);
    set_load 1%Q (Node_init 0 0 (1 # 2) (1 # 2) 1 (Some 0));
    set_load 1%Q (Node_init (1 # 2) 0 1 (1 # 2) 1 (Some 0));
    set_load 1%Q (Node_init 0 (1 # 2) (1 # 2) 1 1 (Some 0));
    set_load 1%Q (Node_init (1 # 2) (1 # 2) 1 1 1 (Some 0)) ].

(** A grid on [merge_store] with [merge_threshold = 10]. *)
Definition merge_grid : FractalGrid :=
  {| root := 0; max_level := 6; split_threshold := 5; merge_threshold := 10;
     decay_factor := 9 # 10; decay_interval := 1 |}.

(** [FractalGrid(split_threshold=3, merge_threshold=10)]. *)
Definition low_split_grid : FractalGrid * heap := fresh 6 3 10 (9 # 10) 1.

(** The store of [low_split_grid] after four calls [set(0.5, 0.5)]: the
    fourth brought the root's load to 4 > 3 and split it. *)
Definition four_set_store : heap :=
  [ set_children (Some (1, 2, 3, 4)) (Node_init 0 0 1 1 0 None);
    set_load (4 # 4)%Q (Node_init 0 0 (1 # 2) (1 # 2) 1 (Some 0));
    set_load (4 # 4)%Q (Node_init (1 # 2) 0 1 (1 # 2) 1 (Some 0));
    set_load (4 # 4)%Q (Node_init 0 (1 # 2) (1 # 2) 1 1 (Some 0));
    set_load (4 # 4)%Q (Node_init (1 # 2) (1 # 2) 1 1 1 (Some 0)) ].

(** A uniform two-level tree: a root of load 1 split once, then each of its
    four children split once; sixteen leaves of load 1/16 at level 2. *)
Definition two_level_store : option heap :=
  h ← subdivide 0 one_load_store;
  h ← subdivide 1 h;
  h ← subdivide 2 h;
  h ← subdivide 3 h;
  subdivide 4 h.

(** ** The decay of one leaf in IEEE binary64

    The leaf branch of [decay] once more, this time on Python's own [float]
    arithmetic (binary64, round to nearest even) as the Standard Library's
    executable IEEE 754 specification computes it: a check that the run of
    Scenario D does not depend on reading loads as exact rationals. *)

(** The binary64 value of a small integer. *)
Definition b64_of_Z (z : Z) : spec_float := binary_normalize 53 1024 z 0 false.

(** The literals [0.9] and [1e-6]: the correctly rounded quotients 9/10 and
    1/1000000. *)
Definition b64_0_9 : spec_float := SFdiv 53 1024 (b64_of_Z 9) (b64_of_Z 10).
Definition b64_1e_6 : spec_float := SFdiv 53 1024 (b64_of_Z 1) (b64_of_Z 1000000).

(** [n.load *= decay_factor; if n.load < 1e-6: n.load = 0.0]. *)
Definition decay_leaf_b64 (df l : spec_float) : spec_float :=
  let v := SFmul 53 1024 l df in
  if SFltb v b64_1e_6 then S754_zero false else v.

(** The load, from 1.0, after [k] applications with factor 0.9. *)
Definition b64_load_after (k : nat) : spec_float :=
  Nat.iter k (decay_leaf_b64 b64_0_9) (b64_of_Z 1).

Definition b64_step_ok (k : nat) : bool :=
  SFltb (b64_load_after (S k)) (b64_load_after k)
  && negb (SFltb (b64_load_after k) b64_1e_6).

(** * Further vocabulary: geometry, totals and the rest of the program *)

(** ** Cells *)

(** The [i]-th value of the [children] dict. *)
Definition quad_nth (cs : quad) (i : nat) : ref :=
  let '(c0, c1, c2, c3) := cs in
  match i with 0 => c0 | 1 => c1 | 2 => c2 | _ => c3 end.

(** A square cell of side [2 ^ - level] inside the unit square. *)
Definition cell_ok (n : Node) : Prop :=
  (0 <= level n)%Z
  ∧ (x_max n - x_min n == (1 # 2) ^ level n)%Q
  ∧ (y_max n - y_min n == (1 # 2) ^ level n)%Q
  ∧ (0 <= x_min n)%Q ∧ (x_max n <= 1)%Q
  ∧ (0 <= y_min n)%Q ∧ (y_max n <= 1)%Q.

(** The root is the level-0 unit square, the default of the
    constructor. *)
Definition unit_root (g : FractalGrid) (h : heap) : Prop :=
  ∃ n, h !! root g = Some n ∧ bounds n = (0, 0, 1, 1)%Q ∧ level n = 0%Z.

(** The children of every internal node are four objects on its
    quadrants, one level down, that name it as their parent; nothing is
    said about loads.  This is what holds of the stores of a grid built
    on any rectangle. *)
Definition shaped (h : heap) : Prop :=
  ∀ r n cs, h !! r = Some n → children n = Some cs → quad_ok h r n cs.

(** ** Loads *)

(** A load is zero or at least [1e-6]. *)
Definition gapped (v : Q) : Prop := (v == 0)%Q ∨ (eps <= v)%Q.

Definition gap_ok (h : heap) : Prop :=
  ∀ r n, h !! r = Some n → gapped (load n).

(** The loads of the elements of [get_leaves], added up as rationals: a
    bound on every leaf's load, used to show that an idle grid drains. *)
Definition total_load (g : FractalGrid) (h : heap) : option Q :=
  ls ← get_leaves g h;
  kids ← deref_all h ls;
  Some (sum (load <$> kids)).

(** ** More stores and grids for the examples *)

(** [FractalGrid(split_threshold=3, merge_threshold=0)]; four calls
    [set(0.5, 0.5)] lead it to [four_set_store] as well. *)
Definition zero_merge_grid : FractalGrid * heap := fresh 6 3 0 (9 # 10) 1.

(** ** Calls with a moderate decay factor *)

(** A call whose decay factor, if it has one, lies in [0, 1]: the range of
    the documentation and of the slider.  Larger factors can drive a
    binary64 load to infinity, a value the rational model does not
    have. *)
Definition moderate (o : op) : Prop :=
  match o with
  | OpDecayLoad d => (0 <= d)%Q ∧ (d <= 1)%Q
  | _ => True
  end.

(** The stores reachable from [h0] by such calls. *)
Definition reachable_moderate (g : FractalGrid) (h0 : heap) : heap → Prop :=
  rtc (λ h h', ∃ o, moderate o ∧ run g o h = Some h') h0.

(** ** The threads of the program *)

(** One turn of the loop of [LoadDecayThread.run], after the sleep:
    [self.grid.decay_load(self.grid.decay_factor)]. *)
Definition LoadDecayThread_run_turn (g : FractalGrid) (h : heap) : option heap :=
  decay_load g (decay_factor g) h.

(** One turn of the loop of [GlobalAdaptiveController.run], after the sleep
    and the print: [self.grid.periodic_rebalance()]. *)
Definition GlobalAdaptiveController_run_turn (g : FractalGrid) (h : heap) : option heap :=
  periodic_rebalance g h.

(** [k] turns of a loop, nothing else touching the store in between. *)
Fixpoint turns (body : heap → option heap) (k : nat) (h : heap) : option heap :=
  match k with
  | O => Some h
  | S k' => h' ← turns body k' h; body h'
  end.

(** A number of decays by [d < 1] that brings a total [T0] below [1e-6]. *)
Definition drain_turns (T0 d : Q) : nat :=
  Z.to_nat (Qceiling (T0 / (eps * (1 - d)))).

(** ** The running program

    The main block builds one grid and starts the controller thread, the
    decay thread and four workers; the GUI thread runs the slider
    callbacks and the animation.  Every access to the grid and its tree is
    made holding [grid.lock], so a run is an interleaving of the critical
    sections below. *)

(** [int(val)] for a float: the integer part, towards zero. *)
Definition py_int (v : Q) : Z := (Qnum v ÷ Z.pos (Qden v))%Z.

(** The attribute assignments of the slider callbacks. *)
Definition set_split_threshold (v : Q) (g : FractalGrid) : FractalGrid :=
  {| root := root g; max_level := max_level g; split_threshold := v;
     merge_threshold := merge_threshold g; decay_factor := decay_factor g;
     decay_interval := decay_interval g |}.

Definition set_merge_threshold (v : Q) (g : FractalGrid) : FractalGrid :=
  {| root := root g; max_level := max_level g; split_threshold := split_threshold g;
     merge_threshold := v; decay_factor := decay_factor g;
     decay_interval := decay_interval g |}.

Definition set_decay_factor (v : Q) (g : FractalGrid) : FractalGrid :=
  {| root := root g; max_level := max_level g; split_threshold := split_threshold g;
     merge_threshold := merge_threshold g; decay_factor := v;
     decay_interval := decay_interval g |}.

Definition set_decay_interval (v : Q) (g : FractalGrid) : FractalGrid :=
  {| root := root g; max_level := max_level g; split_threshold := split_threshold g;
     merge_threshold := merge_threshold g; decay_factor := decay_factor g;
     decay_interval := v |}.

(** The state of a run: the grid object, the store, and the argument the
    decay thread has evaluated for a call of [decay_load] it has not made
    yet ([self.grid.decay_factor] is read before the lock is taken). *)
Record program := mkProgram {
  prog_grid : FractalGrid;
  prog_store : heap;
  prog_decay_arg : option Q
}.

(** The critical sections. *)
Inductive action :=
| worker_set (x y : Q)
| read_decay_factor
| call_decay_load
| call_periodic_rebalance
| assign_split_threshold (val : Q)
| assign_merge_threshold (val : Q)
| assign_decay_factor (val : Q)
| assign_decay_interval (val : Q)
| anim_get_leaves.

(** What [random.uniform(0.45, 0.55)] can return. *)
Definition sample (x : Q) : Prop := (45 # 100 <= x)%Q ∧ (x <= 55 # 100)%Q.

(** The actions the program performs: a worker calls [set] on two samples
    only. *)
Definition allowed (a : action) : Prop :=
  match a with
  | worker_set x y => sample x ∧ sample y
  | _ => True
  end.

Definition act (a : action) (p : program) : option program :=
  match a with
  | worker_set x y =>
      r ← set (prog_grid p) x y (prog_store p);
      Some (mkProgram (prog_grid p) r.2 (prog_decay_arg p))
  | read_decay_factor =>
      Some (mkProgram (prog_grid p) (prog_store p) (Some (decay_factor (prog_grid p))))
  | call_decay_load =>
      d ← prog_decay_arg p;
      h ← decay_load (prog_grid p) d (prog_store p);
      Some (mkProgram (prog_grid p) h None)
  | call_periodic_rebalance =>
      h ← periodic_rebalance (prog_grid p) (prog_store p);
      Some (mkProgram (prog_grid p) h (prog_decay_arg p))
  | assign_split_threshold val =>
      Some (mkProgram (set_split_threshold (inject_Z (py_int val)) (prog_grid p))
              (prog_store p) (prog_decay_arg p))
  | assign_merge_threshold val =>
      Some (mkProgram (set_merge_threshold (inject_Z (py_int val)) (prog_grid p))
              (prog_store p) (prog_decay_arg p))
  | assign_decay_factor val =>
      Some (mkProgram (set_decay_factor val (prog_grid p))
              (prog_store p) (prog_decay_arg p))
  | assign_decay_interval val =>
      Some (mkProgram (set_decay_interval val (prog_grid p))
              (prog_store p) (prog_decay_arg p))
  | anim_get_leaves =>
      _ ← get_leaves (prog_grid p) (prog_store p);
      Some p
  end.

(** A sequence of actions, one after the other. *)
Fixpoint acts (l : list action) (p : program) : option program :=
  match l with
  | [] => Some p
  | a :: l' => p' ← act a p; acts l' p'
  end.

(** The bodies of the callbacks and of the thread loops, as the critical
    sections they go through. *)
Definition slider_split_cb (val : Q) : list action :=
  [assign_split_threshold val; call_periodic_rebalance].

Definition slider_merge_cb (val : Q) : list action :=
  [assign_merge_threshold val; call_periodic_rebalance].

Definition slider_decay_cb (val : Q) : list action := [assign_decay_factor val].

Definition slider_interval_cb (val : Q) : list action := [assign_decay_interval val].

Definition LoadDecayThread_run (k : nat) : list action :=
  concat (replicate k [read_decay_factor; call_decay_load]).

Definition GlobalAdaptiveController_run (k : nat) : list action :=
  replicate k call_periodic_rebalance.

Definition worker_loop (samples : list (Q * Q)) : list action :=
  (λ xy, worker_set xy.1 xy.2) <$> samples.

Definition prog_step (p p' : program) : Prop :=
  ∃ a, allowed a ∧ act a p = Some p'.

(** The program as the main block starts it:
    [FractalGrid(split_threshold=5, merge_threshold=2, decay_factor=0.9,
    decay_interval=1.0)]. *)
Definition main_program : program :=
  mkProgram default_grid.1 default_grid.2 None.

(** The states of the runs of the program. *)
Definition running : program → Prop := rtc prog_step main_program.

(** What holds throughout a run. *)
Definition program_ok (p : program) : Prop :=
  grid_ok (prog_grid p) (prog_store p)
  ∧ gap_ok (prog_store p)
  ∧ root (prog_grid p) = 0
  ∧ max_level (prog_grid p) = 6%Z
  ∧ unit_root (prog_grid p) (prog_store p).

(** Sequences of allowed actions in which every [call_decay_load] comes
    right after the [read_decay_factor] of its turn. *)
Inductive well_sequenced : list action → Prop :=
| ws_nil : well_sequenced []
| ws_decay l : well_sequenced l →
    well_sequenced (read_decay_factor :: call_decay_load :: l)
| ws_other a l : a ≠ call_decay_load → allowed a → well_sequenced l →
    well_sequenced (a :: l).

(** A state of a run: the split slider was moved to 3.7, then workers
    called [set(0.5, 0.5)] four times. *)
Definition busy_program : program :=
  mkProgram (set_split_threshold 3 default_grid.1) four_set_store None.

(** ** The animation *)

(** The area of a node's rectangle. *)
Definition area (n : Node) : Q := ((x_max n - x_min n) * (y_max n - y_min n))%Q.

(** What [update_anim] computes for one leaf: the anchor, width and height
    given to [Rectangle], the argument of the colour map, and the position
    of the label. *)
Record patch := mkPatch {
  anchor : Q * Q;
  width : Q;
  height : Q;
  shade : Q;
  label_at : Q * Q
}.

Inductive drawing :=
| Drawn (patches : list patch)
| ZeroDivisionError.

(** The body of the [for node in leaves] loop of [update_anim], without
    the calls into the plotting library. *)
Definition draw_leaf (max_level : Z) (node : Node) : patch :=
  let w := (x_max node - x_min node)%Q in
  let h := (y_max node - y_min node)%Q in
  mkPatch (x_min node, y_min node) w h
    (inject_Z (level node) / inject_Z (max_level + 1))%Q
    (x_min node + w / 2, y_min node + h / 2)%Q.

(** The computing part of [update_anim]: the leaves are taken under the
    lock, then one patch is made for each; [node.level / (max_level + 1)]
    raises on the first leaf when [max_level] is -1. *)
Definition update_anim (g : FractalGrid) (h : heap) (max_level : Z) : option drawing :=
  leaves ← get_leaves g h;
  nodes ← deref_all h leaves;
  match nodes with
  | [] => Some (Drawn [])
  | _ :: _ =>
      if (max_level + 1 =? 0)%Z then Some ZeroDivisionError
      else Some (Drawn (draw_leaf max_level <$> nodes))
  end.

(** ** Where the tree refines *)

(** The rectangle of [n] meets the square the workers draw their points
    from, [0.45, 0.55] x [0.45, 0.55]. *)
Definition meets_centre (n : Node) : Prop :=
  (x_min n <= 55 # 100)%Q ∧ (45 # 100 < x_max n)%Q
  ∧ (y_min n <= 55 # 100)%Q ∧ (45 # 100 < y_max n)%Q.

(** Every internal node object of the store meets that square. *)
Definition refined_at_centre (h : heap) : Prop :=
  ∀ r n, h !! r = Some n → is_leaf n = false → meets_centre n.

(** * Lemmas *)

(** Membership in an explicit list of references. *)
Ltac in_quad :=
  simpl; repeat first [apply list_elem_of_here | apply list_elem_of_further].

(** ** Facts about comparisons and validation *)

Lemma Qltb_lt (x y : Q) : Qltb x y = true ↔ (x < y)%Q.
Proof.
  unfold Qltb. rewrite Qlt_alt.
  destruct (x ?= y)%Q; split; congruence.
Qed.

Lemma Qltb_ge (x y : Q) : Qltb x y = false ↔ (y <= x)%Q.
Proof.
  rewrite <- not_true_iff_false, Qltb_lt.
  split; [apply Qnot_lt_le | apply Qle_not_lt].
Qed.

Lemma validate_coord_Returns (x : Q) :
  validate_coord x = Returns x ↔ in_unit x.
Proof.
  unfold validate_coord, in_unit.
  destruct (Qle_bool 0 x) eqn:Hle; destruct (Qltb x 1) eqn:Hlt; simpl;
    rewrite <- Qle_bool_iff, <- Qltb_lt, Hle, Hlt; intuition congruence.
Qed.

Lemma validate_coord_Raises (x : Q) :
  validate_coord x = Raises ValueError ↔ ¬ in_unit x.
Proof.
  rewrite <- validate_coord_Returns. unfold validate_coord.
  destruct (Qle_bool 0 x && Qltb x 1); split; intros; congruence.
Qed.

Lemma contains_spec (n : Node) (x y : Q) :
  contains n x y = true ↔
  ((x_min n <= x)%Q ∧ (x < x_max n)%Q) ∧ ((y_min n <= y)%Q ∧ (y < y_max n)%Q).
Proof.
  unfold contains. rewrite !andb_true_iff, !Qle_bool_iff, !Qltb_lt. tauto.
Qed.

(** ** Geometry is immutable *)

Lemma same_geometry_refl n : same_geometry n n.
Proof. by repeat split. Qed.

Lemma same_geometry_trans n1 n2 n3 :
  same_geometry n1 n2 → same_geometry n2 n3 → same_geometry n1 n3.
Proof. unfold same_geometry. intros (?&?&?) (?&?&?). repeat split; congruence. Qed.

Lemma same_geometry_set_load v n : same_geometry n (set_load v n).
Proof. by repeat split. Qed.

Lemma same_geometry_set_children c n : same_geometry n (set_children c n).
Proof. by repeat split. Qed.

Lemma same_geometry_contains n n' x y :
  same_geometry n n' → contains n' x y = contains n x y.
Proof.
  intros (Hb & _). unfold contains. unfold bounds in Hb.
  injection Hb as -> -> -> ->. done.
Qed.

Lemma extends_refl h : extends h h.
Proof. intros r n Hr. exists n. split; [done | apply same_geometry_refl]. Qed.

Lemma extends_trans h1 h2 h3 : extends h1 h2 → extends h2 h3 → extends h1 h3.
Proof.
  intros H12 H23 r n Hr.
  destruct (H12 r n Hr) as (n2 & Hr2 & Hg2).
  destruct (H23 r n2 Hr2) as (n3 & Hr3 & Hg3).
  exists n3. split; [done | by eapply same_geometry_trans].
Qed.

Lemma extends_length h h' : extends h h' → length h ≤ length h'.
Proof.
  intros He. destruct (decide (length h ≤ length h')) as [|Hn]; [done | exfalso].
  destruct (lookup_lt_is_Some_2 h (length h')) as [n Hn']; [lia |].
  destruct (He _ _ Hn') as (n' & Hl & _).
  apply lookup_lt_Some in Hl. lia.
Qed.

Lemma extends_alter (f : Node → Node) r h :
  (∀ n, same_geometry n (f n)) → extends h (alter f r h).
Proof.
  intros Hf r' n Hr'. destruct (decide (r = r')) as [<- | Hne].
  - exists (f n). rewrite list_lookup_alter_eq, Hr'. split; [done | apply Hf].
  - exists n. rewrite list_lookup_alter_ne by done. split; [done | apply same_geometry_refl].
Qed.

Lemma extends_app h l : extends h (h ++ l).
Proof.
  intros r n Hr. exists n. split; [by apply lookup_app_l_Some | apply same_geometry_refl].
Qed.

(** ** What [subdivide] and [merge] do to the store *)

Lemma lookup_app_plus {A} (l1 l2 : list A) (i : nat) :
  (l1 ++ l2) !! (length l1 + i) = l2 !! i.
Proof.
  rewrite lookup_app_r by lia. f_equal. lia.
Qed.

Lemma subdivide_spec (self : ref) (h : heap) (n : Node) :
  h !! self = Some n →
  ∃ h', subdivide self h = Some h'
    ∧ length h' = length h + 4
    ∧ h' !! self = Some (set_load 0%Q (set_children (Some (new_quad h)) n))
    ∧ (∀ r, r ≠ self → r < length h → h' !! r = h !! r)
    ∧ (∀ i, i < 4 → h' !! (length h + i) = Some (new_child self n i)).
Proof.
  intros Hn. pose proof (lookup_lt_Some _ _ _ Hn) as Hlt.
  unfold subdivide. rewrite Hn. simpl.
  eexists. split; [reflexivity |].
  split; [by rewrite !length_alter, length_app; simpl; lia |].
  split; [| split].
  - rewrite list_lookup_alter_eq.
    rewrite !list_lookup_alter_ne by lia.
    rewrite list_lookup_alter_eq, (lookup_app_l_Some _ _ _ _ Hn). done.
  - intros r Hne Hr. rewrite !list_lookup_alter_ne by lia.
    by rewrite lookup_app_l.
  - intros i Hi.
    rewrite list_lookup_alter_ne by lia.
    destruct i as [|[|[|[|i]]]]; [| | | | lia];
      replace (length h + 0) with (length h) by lia;
      replace (length h + 1) with (S (length h)) by lia;
      replace (length h + 2) with (S (S (length h))) by lia;
      replace (length h + 3) with (S (S (S (length h)))) by lia.
    + rewrite !list_lookup_alter_ne by lia. rewrite list_lookup_alter_eq.
      rewrite list_lookup_alter_ne by lia.
      by rewrite <- (Nat.add_0_r (length h)), lookup_app_plus.
    + rewrite !list_lookup_alter_ne by lia. rewrite list_lookup_alter_eq.
      rewrite !list_lookup_alter_ne by lia.
      by rewrite <- (Nat.add_1_r (length h)), lookup_app_plus.
    + rewrite !list_lookup_alter_ne by lia. rewrite list_lookup_alter_eq.
      rewrite !list_lookup_alter_ne by lia.
      replace (S (S (length h))) with (length h + 2) by lia.
      by rewrite lookup_app_plus.
    + rewrite list_lookup_alter_eq.
      rewrite !list_lookup_alter_ne by lia.
      replace (S (S (S (length h)))) with (length h + 3) by lia.
      by rewrite lookup_app_plus.
Qed.

Lemma merge_spec (self : ref) (h : heap) (n : Node) (cs : quad) (kids : list Node) :
  h !! self = Some n →
  children n = Some cs →
  deref_all h (children_values cs) = Some kids →
  ∃ h', merge self h = Some h'
    ∧ length h' = length h
    ∧ h' !! self = Some (set_load (sum (load <$> kids)) (set_children None n))
    ∧ (∀ r, r ≠ self → h' !! r = h !! r).
Proof.
  intros Hn Hcs Hkids. unfold merge. rewrite Hn. simpl. rewrite Hcs. simpl.
  rewrite Hkids. simpl. eexists. split; [reflexivity |].
  split; [by rewrite !length_alter |]. split.
  - by rewrite !list_lookup_alter_eq, Hn.
  - intros r Hne. by rewrite !list_lookup_alter_ne.
Qed.

(** ** Preservation of well-formedness *)

Lemma quadrant_bounds_geometry n n' i :
  same_geometry n n' → quadrant_bounds n' i = quadrant_bounds n i.
Proof.
  intros (Hb & _). unfold bounds in Hb. injection Hb as Hx Hy Hx' Hy'.
  unfold quadrant_bounds, mid_x, mid_y. by rewrite Hx, Hy, Hx', Hy'.
Qed.

Lemma child_ok_extends h h' self n n' i c :
  extends h h' → same_geometry n n' →
  child_ok h self n i c → child_ok h' self n' i c.
Proof.
  intros He Hg (Hlt & nc & Hc & Hp & Hl & Hb). split; [done |].
  destruct (He _ _ Hc) as (nc' & Hc' & (Hb' & Hl' & Hp')).
  exists nc'. split; [done |].
  rewrite Hp', Hl', Hb', (quadrant_bounds_geometry _ _ _ Hg).
  destruct Hg as (_ & -> & _). done.
Qed.

Lemma quad_ok_extends h h' self n n' cs :
  extends h h' → same_geometry n n' →
  quad_ok h self n cs → quad_ok h' self n' cs.
Proof.
  intros He Hg. destruct cs as [[[c0 c1] c2] c3]. simpl.
  intros (Hnd & H0 & H1 & H2 & H3).
  repeat split; try done; by eapply child_ok_extends.
Qed.

Lemma quad_ok_valid h self n cs c :
  quad_ok h self n cs → c ∈ children_values cs →
  self < c ∧ ∃ nc, h !! c = Some nc ∧ parent nc = Some self
    ∧ level nc = (level n + 1)%Z.
Proof.
  destruct cs as [[[c0 c1] c2] c3]. simpl.
  intros (_ & H0 & H1 & H2 & H3) Hin.
  repeat (apply elem_of_cons in Hin as [-> | Hin]);
    [destruct H0 as (? & nc & ? & ? & ? & _)
    |destruct H1 as (? & nc & ? & ? & ? & _)
    |destruct H2 as (? & nc & ? & ? & ? & _)
    |destruct H3 as (? & nc & ? & ? & ? & _)
    |by apply elem_of_nil in Hin]; eauto 10.
Qed.

Lemma quad_ok_deref h self n cs :
  quad_ok h self n cs → is_Some (deref_all h (children_values cs)).
Proof.
  intros Hq. apply mapM_is_Some, Forall_forall. intros c Hc.
  destruct (quad_ok_valid _ _ _ _ _ Hq Hc) as (_ & nc & Hnc & _).
  simpl. by rewrite Hnc.
Qed.

Lemma deref_all_lookup h rs kids k :
  deref_all h rs = Some kids → k ∈ kids → ∃ r, r ∈ rs ∧ h !! r = Some k.
Proof.
  intros Hd Hk. apply mapM_Some_1 in Hd.
  apply list_elem_of_lookup in Hk as [i Hi].
  destruct (Forall2_lookup_r _ _ _ _ _ Hd Hi) as (r & Hr & Hrk).
  exists r. split; [by eapply list_elem_of_lookup_2 | done].
Qed.

Lemma sum_nonneg_acc (l : list Q) (acc : Q) :
  (0 <= acc)%Q → Forall (λ v, (0 <= v)%Q) l → (0 <= fold_left Qplus l acc)%Q.
Proof.
  revert acc. induction l as [|v l IH]; intros acc Hacc Hl; simpl; [done |].
  inversion Hl; subst. apply IH; [lra | done].
Qed.

Lemma sum_nonneg (l : list Q) : Forall (λ v, (0 <= v)%Q) l → (0 <= sum l)%Q.
Proof. apply sum_nonneg_acc. lra. Qed.

Lemma wf_kids_nonneg ml h rs kids :
  wf ml h → deref_all h rs = Some kids → (0 <= sum (load <$> kids))%Q.
Proof.
  intros Hwf Hd. apply sum_nonneg, Forall_fmap, Forall_forall.
  intros k Hk. destruct (deref_all_lookup _ _ _ _ Hd Hk) as (r & _ & Hr).
  simpl. apply (ok_load _ _ _ _ (Hwf _ _ Hr)).
Qed.

(** Assigning a load keeps the store well formed when the value is not
    negative and the node is a leaf (or the value is [0]). *)
Lemma wf_set_load ml h r v :
  wf ml h → (0 <= v)%Q →
  (∀ n, h !! r = Some n → is_leaf n = false → v = 0%Q) →
  wf ml (alter (set_load v) r h).
Proof.
  intros Hwf Hv Hleaf r' n' Hr'.
  assert (He : extends h (alter (set_load v) r h))
    by apply extends_alter, same_geometry_set_load.
  destruct (decide (r = r')) as [<- | Hne].
  - rewrite list_lookup_alter_eq in Hr'.
    destruct (h !! r) as [n|] eqn:Hn; [| done]. simpl in Hr'. injection Hr' as <-.
    destruct (Hwf _ _ Hn) as [Hl Hi Hlv Hc]. split; simpl; try done.
    + intros Hint. by apply (Hleaf n).
    + intros cs Hcs. destruct (Hc cs Hcs) as [? Hq]. split; [done |].
      eapply quad_ok_extends; [done | apply same_geometry_set_load | done].
  - rewrite list_lookup_alter_ne in Hr' by done.
    destruct (Hwf _ _ Hr') as [Hl Hi Hlv Hc]. split; try done.
    intros cs Hcs. destruct (Hc cs Hcs) as [? Hq]. split; [done |].
    eapply quad_ok_extends; [done | apply same_geometry_refl | done].
Qed.

Lemma merge_extends self h h' : merge self h = Some h' → extends h h'.
Proof.
  unfold merge. intros Hm.
  destruct (h !! self) as [n|]; [| done]. simpl in Hm.
  destruct (children n) as [cs|]; [| done]. simpl in Hm.
  destruct (deref_all h (children_values cs)) as [kids|]; [| done].
  simpl in Hm. injection Hm as <-.
  eapply extends_trans; apply extends_alter;
    [apply same_geometry_set_children | apply same_geometry_set_load].
Qed.

Lemma wf_merge ml self h h' :
  wf ml h → merge self h = Some h' → wf ml h'.
Proof.
  intros Hwf Hm. pose proof (merge_extends _ _ _ Hm) as He.
  unfold merge in Hm.
  destruct (h !! self) as [n|] eqn:Hn; [| done]. simpl in Hm.
  destruct (children n) as [cs|] eqn:Hcs; [| done]. simpl in Hm.
  destruct (deref_all h (children_values cs)) as [kids|] eqn:Hk; [| done].
  destruct (merge_spec _ _ _ _ _ Hn Hcs Hk) as (h2 & Hm2 & Hlen & Hself & Hother).
  unfold merge in Hm2. rewrite Hn in Hm2. simpl in Hm2. rewrite Hcs in Hm2.
  simpl in Hm2. rewrite Hk in Hm2. rewrite Hm2 in Hm. injection Hm as <-.
  intros r' n' Hr'. destruct (decide (r' = self)) as [-> | Hne].
  - rewrite Hself in Hr'. injection Hr' as <-.
    destruct (Hwf _ _ Hn) as [Hl Hi Hlv Hc]. split; simpl; try done.
    by eapply wf_kids_nonneg.
  - rewrite Hother in Hr' by done.
    destruct (Hwf _ _ Hr') as [Hl Hi Hlv Hc]. split; try done.
    intros cs' Hcs'. destruct (Hc cs' Hcs') as [? Hq]. split; [done |].
    eapply quad_ok_extends; [done | apply same_geometry_refl | done].
Qed.

Lemma subdivide_extends self h h' : subdivide self h = Some h' → extends h h'.
Proof.
  intros Hs r n Hr.
  destruct (h !! self) as [ns|] eqn:Hself;
    [| by unfold subdivide in Hs; rewrite Hself in Hs].
  destruct (subdivide_spec _ _ _ Hself) as (h2 & Hs2 & _ & Hs_self & Hother & _).
  rewrite Hs2 in Hs. injection Hs as <-.
  destruct (decide (r = self)) as [-> | Hne].
  - rewrite Hself in Hr. injection Hr as <-. eexists. split; [done |].
    by repeat split.
  - exists n. rewrite Hother; [| done | by eapply lookup_lt_Some].
    split; [done | apply same_geometry_refl].
Qed.

Lemma new_child_bounds self n i : bounds (new_child self n i) = quadrant_bounds n i.
Proof. unfold new_child. by destruct (quadrant_bounds n i) as [[[a b] c] d]. Qed.

Lemma new_child_level self n i : level (new_child self n i) = (level n + 1)%Z.
Proof. unfold new_child. by destruct (quadrant_bounds n i) as [[[a b] c] d]. Qed.

Lemma new_child_parent self n i : parent (new_child self n i) = Some self.
Proof. unfold new_child. by destruct (quadrant_bounds n i) as [[[a b] c] d]. Qed.

Lemma new_child_children self n i : children (new_child self n i) = None.
Proof. unfold new_child. by destruct (quadrant_bounds n i) as [[[a b] c] d]. Qed.

Lemma new_child_load self n i : load (new_child self n i) = (load n / 4)%Q.
Proof. unfold new_child. by destruct (quadrant_bounds n i) as [[[a b] c] d]. Qed.

(** A split below the depth cap keeps the store well formed. *)
Lemma wf_subdivide ml self h h' n :
  wf ml h → h !! self = Some n → (level n < ml)%Z →
  subdivide self h = Some h' → wf ml h'.
Proof.
  intros Hwf Hn Hlv Hs. pose proof (subdivide_extends _ _ _ Hs) as He.
  destruct (subdivide_spec _ _ _ Hn) as (h2 & Hs2 & Hlen & Hself & Hother & Hnew).
  rewrite Hs2 in Hs. injection Hs as <-.
  pose proof (lookup_lt_Some _ _ _ Hn) as Hlt.
  destruct (Hwf _ _ Hn) as [Hl Hi Hlvl Hc].
  intros r' n' Hr'.
  destruct (decide (r' = self)) as [-> | Hne]; [| destruct (decide (r' < length h)) as [Hold | Hge]].
  - rewrite Hself in Hr'. injection Hr' as <-. split; simpl; try done.
    intros cs [= <-]. split; [done |]. unfold new_quad, quad_ok.
    split.
    { repeat (apply NoDup_cons; split; [rewrite ?elem_of_cons, elem_of_nil; lia |]).
      apply NoDup_nil_2. }
    assert (Hch : ∀ i, i < 4 →
      child_ok h2 self (set_load 0%Q (set_children (Some (new_quad h)) n)) i (length h + i)).
    { intros i Hi'. split; [lia |]. exists (new_child self n i).
      split; [by apply Hnew |].
      rewrite new_child_parent, new_child_level, new_child_bounds. done. }
    pose proof (Hch 0 ltac:(lia)) as H0. pose proof (Hch 1 ltac:(lia)) as H1.
    pose proof (Hch 2 ltac:(lia)) as H2. pose proof (Hch 3 ltac:(lia)) as H3.
    replace (length h + 0) with (length h) in H0 by lia.
    replace (length h + 1) with (S (length h)) in H1 by lia.
    replace (length h + 2) with (S (S (length h))) in H2 by lia.
    replace (length h + 3) with (S (S (S (length h)))) in H3 by lia.
    exact (conj H0 (conj H1 (conj H2 H3))).
  - rewrite Hother in Hr' by done.
    destruct (Hwf _ _ Hr') as [Hl' Hi' Hlv' Hc']. split; try done.
    intros cs' Hcs'. destruct (Hc' cs' Hcs') as [? Hq]. split; [done |].
    eapply quad_ok_extends; [done | apply same_geometry_refl | done].
  - pose proof (lookup_lt_Some _ _ _ Hr') as Hlt'.
    assert (Hi4 : ∃ i, i < 4 ∧ r' = length h + i) by (exists (r' - length h); lia).
    destruct Hi4 as (i & Hi4 & ->). rewrite Hnew in Hr' by done. injection Hr' as <-.
    split.
    + rewrite new_child_load. apply Qle_shift_div_l; lra.
    + unfold is_leaf. by rewrite new_child_children.
    + rewrite new_child_level. lia.
    + intros cs'. by rewrite new_child_children.
Qed.

(** ** Descending to a leaf *)

Lemma scan_children_Some h cs x y c :
  scan_children h cs x y = Some (Some c) →
  c ∈ cs ∧ ∃ nc, h !! c = Some nc ∧ contains nc x y = true.
Proof.
  induction cs as [|c' cs IH]; simpl; [done |].
  destruct (h !! c') as [nc|] eqn:Hc'; simpl; [| done].
  destruct (contains nc x y) eqn:Hcont.
  - intros [= <-]. split; [apply list_elem_of_here | eauto].
  - intros Hs. destruct (IH Hs) as [Hin Hex]. split; [by apply list_elem_of_further | done].
Qed.

Lemma scan_children_None h cs x y :
  scan_children h cs x y = Some None →
  ∀ c, c ∈ cs → ∃ nc, h !! c = Some nc ∧ contains nc x y = false.
Proof.
  induction cs as [|c' cs IH]; simpl; intros Hs c Hin.
  - by apply elem_of_nil in Hin.
  - destruct (h !! c') as [nc|] eqn:Hc'; simpl in Hs; [| done].
    destruct (contains nc x y) eqn:Hcont; [done |].
    apply elem_of_cons in Hin as [-> | Hin]; eauto.
Qed.

Lemma scan_children_is_Some h cs x y :
  (∀ c, c ∈ cs → is_Some (h !! c)) → is_Some (scan_children h cs x y).
Proof.
  induction cs as [|c' cs IH]; simpl; intros Hv; [by eexists |].
  destruct (Hv c') as [nc Hnc]; [apply list_elem_of_here |].
  rewrite Hnc. simpl. destruct (contains nc x y); [by eexists |].
  apply IH. intros c Hc. apply Hv. by apply list_elem_of_further.
Qed.

(** Whatever the store, the node a descent stops at contains the point as
    soon as the start node does: a step is only taken into a child that
    passed [contains], and the fall-back keeps the current node. *)
Lemma find_leaf_loop_contains fuel h current x y r n :
  h !! current = Some n → contains n x y = true →
  find_leaf_loop fuel h current x y = Some r →
  ∃ nr, h !! r = Some nr ∧ contains nr x y = true.
Proof.
  revert current n. induction fuel as [|fuel IH]; intros current n Hn Hc; simpl; [done |].
  rewrite Hn. simpl. destruct (children n) as [cs|]; [| intros [= <-]; eauto].
  destruct (scan_children h (children_values cs) x y) as [[child|]|] eqn:Hscan;
    simpl; [| intros [= <-]; eauto | done].
  destruct (scan_children_Some _ _ _ _ _ Hscan) as (_ & nc & Hnc & Hcc).
  by apply (IH child nc).
Qed.

(** ** The tree inside the store *)

Lemma contains_bounds c a b a' b' x y :
  bounds c = (a, b, a', b') →
  contains c x y = (Qle_bool a x && Qltb x a') && (Qle_bool b y && Qltb y b').
Proof. unfold bounds, contains. by intros [= -> -> -> ->]. Qed.

Lemma contains_bounds_true c a b a' b' x y :
  bounds c = (a, b, a', b') →
  (a <= x)%Q → (x < a')%Q → (b <= y)%Q → (y < b')%Q → contains c x y = true.
Proof.
  intros Hb ? ? ? ?. rewrite (contains_bounds _ _ _ _ _ _ _ Hb).
  rewrite !andb_true_iff, !Qle_bool_iff, !Qltb_lt. tauto.
Qed.

(** The four quadrants cover the half-open cell, wherever the midpoint is:
    a point of the parent is left of [mid_x] or not, below [mid_y] or not. *)
Lemma scan_children_cover h self n cs x y :
  quad_ok h self n cs → contains n x y = true →
  ∃ c, scan_children h (children_values cs) x y = Some (Some c).
Proof.
  intros Hq Hc.
  destruct (scan_children_is_Some h (children_values cs) x y) as [[c|] Hs]; [| by eauto |].
  { intros c Hin. destruct (quad_ok_valid _ _ _ _ _ Hq Hin) as (_ & nc & -> & _). by eexists. }
  exfalso. pose proof (scan_children_None _ _ _ _ Hs) as Hnone.
  apply contains_spec in Hc as ((Hx1 & Hx2) & (Hy1 & Hy2)).
  destruct cs as [[[c0 c1] c2] c3]. simpl in Hq, Hnone.
  destruct Hq as (_ & (_ & n0 & Hn0 & _ & _ & Hb0) & (_ & n1 & Hn1 & _ & _ & Hb1)
                 & (_ & n2 & Hn2 & _ & _ & Hb2) & (_ & n3 & Hn3 & _ & _ & Hb3)).
  simpl in Hb0, Hb1, Hb2, Hb3.
  assert (H0 : contains n0 x y = false).
  { destruct (Hnone c0) as (m & Hm & ?); [in_quad | congruence]. }
  assert (H1 : contains n1 x y = false).
  { destruct (Hnone c1) as (m & Hm & ?); [in_quad | congruence]. }
  assert (H2 : contains n2 x y = false).
  { destruct (Hnone c2) as (m & Hm & ?); [in_quad | congruence]. }
  assert (H3 : contains n3 x y = false).
  { destruct (Hnone c3) as (m & Hm & ?); [in_quad | congruence]. }
  destruct (Qlt_le_dec x (mid_x n)) as [Hmx | Hmx];
    destruct (Qlt_le_dec y (mid_y n)) as [Hmy | Hmy].
  - by rewrite (contains_bounds_true _ _ _ _ _ _ _ Hb0) in H0.
  - by rewrite (contains_bounds_true _ _ _ _ _ _ _ Hb2) in H2.
  - by rewrite (contains_bounds_true _ _ _ _ _ _ _ Hb1) in H1.
  - by rewrite (contains_bounds_true _ _ _ _ _ _ _ Hb3) in H3.
Qed.

(** In a well-formed store a descent from a node containing the point never
    takes the fall-back: it ends, within the fuel, on a leaf below the start
    that contains the point. *)
Lemma find_leaf_loop_leaf ml fuel h current n x y :
  wf ml h → h !! current = Some n → contains n x y = true →
  length h - current < fuel →
  ∃ leaf nl, find_leaf_loop fuel h current x y = Some leaf
    ∧ h !! leaf = Some nl ∧ is_leaf nl = true ∧ contains nl x y = true
    ∧ desc h current leaf.
Proof.
  intros Hwf. revert current n.
  induction fuel as [|fuel IH]; intros current n Hn Hc Hfuel; [lia |].
  simpl. rewrite Hn. simpl.
  destruct (children n) as [cs|] eqn:Hcs.
  - destruct (ok_children _ _ _ _ (Hwf _ _ Hn) cs Hcs) as [_ Hq].
    destruct (scan_children_cover _ _ _ _ _ _ Hq Hc) as [c Hscan].
    rewrite Hscan. simpl.
    destruct (scan_children_Some _ _ _ _ _ Hscan) as (Hin & nc & Hnc & Hcc).
    destruct (quad_ok_valid _ _ _ _ _ Hq Hin) as (Hlt & _).
    pose proof (lookup_lt_Some _ _ _ Hnc) as Hlen.
    destruct (IH c nc Hnc Hcc) as (leaf & nl & Hf & Hl & Hleaf & Hcl & Hd); [lia |].
    exists leaf, nl. repeat split; try done.
    eapply rtc_l; [| exact Hd]. by exists n, cs.
  - exists current, n. repeat split; try done.
    unfold is_leaf. by rewrite Hcs.
Qed.

(** ** The grid invariant *)

Lemma covers_unit_geometry n n' : same_geometry n n' → covers_unit n → covers_unit n'.
Proof.
  intros [Hb _]. unfold bounds in Hb. injection Hb as Hx Hy Hx' Hy'.
  unfold covers_unit. by rewrite Hx, Hy, Hx', Hy'.
Qed.

Lemma grid_ok_extends g h h' :
  grid_ok g h → wf (max_level g) h' → extends h h' → grid_ok g h'.
Proof.
  intros (_ & n & Hn & Hb & Hl) Hwf He. split; [done |].
  destruct (He _ _ Hn) as (n' & Hn' & Hg).
  exists n'. split; [done |]. split; [by eapply covers_unit_geometry |].
  destruct Hg as (_ & Hl' & _). by rewrite Hl'.
Qed.

Lemma unit_contains n x y :
  covers_unit n → in_unit x → in_unit y → contains n x y = true.
Proof.
  intros (? & ? & ? & ?) [? ?] [? ?]. apply contains_spec. repeat split; lra.
Qed.

Lemma find_leaf_spec g h x y :
  grid_ok g h → in_unit x → in_unit y →
  ∃ leaf nl, _find_leaf h (root g) x y = Some leaf
    ∧ h !! leaf = Some nl ∧ is_leaf nl = true ∧ contains nl x y = true
    ∧ in_tree g h leaf.
Proof.
  intros (Hwf & n & Hn & Hb & _) Hx Hy.
  eapply find_leaf_loop_leaf; [done | done | by eapply unit_contains | lia].
Qed.

(** ** [get], [set] and the split guard *)

Lemma validate_coord_cases (x : Q) :
  (validate_coord x = Returns x ∧ in_unit x)
  ∨ (validate_coord x = Raises ValueError ∧ ¬ in_unit x).
Proof.
  destruct (validate_coord x) as [a | []] eqn:Hv.
  - left. unfold validate_coord in Hv.
    destruct (Qle_bool 0 x && Qltb x 1) eqn:Hb; [| done].
    injection Hv as <-. split; [done |]. apply validate_coord_Returns.
    unfold validate_coord. by rewrite Hb.
  - right. split; [done |]. by apply validate_coord_Raises.
Qed.

Lemma get_raises g x y h :
  ¬ (in_unit x ∧ in_unit y) → get g x y h = Some (Raises ValueError, h).
Proof.
  intros Hn. unfold get.
  destruct (validate_coord_cases x) as [[-> Hx] | [-> _]]; [| done].
  destruct (validate_coord_cases y) as [[-> Hy] | [-> _]]; [tauto | done].
Qed.

Lemma set_raises g x y h :
  ¬ (in_unit x ∧ in_unit y) → set g x y h = Some (Raises ValueError, h).
Proof.
  intros Hn. unfold set.
  destruct (validate_coord_cases x) as [[-> Hx] | [-> _]]; [| done].
  destruct (validate_coord_cases y) as [[-> Hy] | [-> _]]; [tauto | done].
Qed.

Lemma get_returns g h x y :
  grid_ok g h → in_unit x → in_unit y →
  ∃ leaf nl, _find_leaf h (root g) x y = Some leaf
    ∧ h !! leaf = Some nl ∧ is_leaf nl = true ∧ contains nl x y = true
    ∧ in_tree g h leaf
    ∧ get g x y h
      = Some (Returns (load nl + 1)%Q, alter (set_load (load nl + 1)%Q) leaf h).
Proof.
  intros Hok Hx Hy.
  destruct (find_leaf_spec _ _ _ _ Hok Hx Hy) as (leaf & nl & Hf & Hl & Hleaf & Hc & Ht).
  exists leaf, nl. repeat split; try done.
  unfold get.
  rewrite (proj2 (validate_coord_Returns x) Hx), (proj2 (validate_coord_Returns y) Hy).
  rewrite Hf. simpl. rewrite Hl. simpl.
  by rewrite list_lookup_alter_eq, Hl.
Qed.

Lemma rebalance_cases g node h n :
  h !! node = Some n →
  (split_guard g n ∧ _rebalance g node h = subdivide node h)
  ∨ (¬ split_guard g n ∧ _rebalance g node h = Some h).
Proof.
  intros Hn. unfold _rebalance, split_guard. rewrite Hn. simpl.
  destruct (Qltb (split_threshold g) (load n)) eqn:Hq;
    destruct (level n <? max_level g)%Z eqn:Hz;
    destruct (is_leaf n) eqn:Hl; simpl;
    rewrite <- ?Qltb_lt, <- ?Z.ltb_lt, ?Hq, ?Hz; intuition congruence.
Qed.

Lemma set_returns g h x y :
  grid_ok g h → in_unit x → in_unit y →
  ∃ leaf nl h', _find_leaf h (root g) x y = Some leaf
    ∧ h !! leaf = Some nl ∧ is_leaf nl = true ∧ in_tree g h leaf
    ∧ _rebalance g leaf (alter (set_load (load nl + 1)%Q) leaf h) = Some h'
    ∧ set g x y h = Some (Returns tt, h').
Proof.
  intros Hok Hx Hy.
  destruct (find_leaf_spec _ _ _ _ Hok Hx Hy) as (leaf & nl & Hf & Hl & Hleaf & Hc & Ht).
  set (h1 := alter (set_load (load nl + 1)%Q) leaf h).
  assert (Hl1 : h1 !! leaf = Some (set_load (load nl + 1)%Q nl)).
  { unfold h1. by rewrite list_lookup_alter_eq, Hl. }
  assert (Hre : ∃ h', _rebalance g leaf h1 = Some h').
  { destruct (rebalance_cases g _ _ _ Hl1) as [[_ ->] | [_ ->]]; [| by eexists].
    destruct (subdivide_spec _ _ _ Hl1) as (h' & -> & _). by eexists. }
  destruct Hre as [h' Hre]. exists leaf, nl, h'. repeat split; try done.
  unfold set.
  rewrite (proj2 (validate_coord_Returns x) Hx), (proj2 (validate_coord_Returns y) Hy).
  rewrite Hf. simpl. rewrite Hl. simpl. fold h1. by rewrite Hre.
Qed.

Lemma grid_ok_add_load g h leaf nl :
  grid_ok g h → h !! leaf = Some nl → is_leaf nl = true →
  grid_ok g (alter (set_load (load nl + 1)%Q) leaf h).
Proof.
  intros Hok Hl Hleaf. eapply grid_ok_extends; [done | |].
  - apply wf_set_load; [apply Hok | |].
    + pose proof (ok_load _ _ _ _ (proj1 Hok _ _ Hl)). lra.
    + intros n Hn. congruence.
  - apply extends_alter, same_geometry_set_load.
Qed.

Lemma grid_ok_rebalance g h node h' :
  grid_ok g h → _rebalance g node h = Some h' → grid_ok g h'.
Proof.
  intros Hok Hre. unfold _rebalance in Hre.
  destruct (h !! node) as [n|] eqn:Hn; [| done]. simpl in Hre.
  destruct (rebalance_cases g _ _ _ Hn) as [[(_ & Hlv & _) Heq] | [_ Heq]];
    unfold _rebalance in Heq; rewrite Hn in Heq; simpl in Heq; rewrite Heq in Hre.
  - eapply grid_ok_extends; [done | | by eapply subdivide_extends].
    eapply wf_subdivide; [apply Hok | done | done | done].
  - by injection Hre as <-.
Qed.

(** ** Loops over the children *)

Lemma for_each_inv (P : heap → Prop) body cs h h' :
  (∀ c h1 h2, c ∈ cs → P h1 → body c h1 = Some h2 → P h2) →
  P h → for_each body cs h = Some h' → P h'.
Proof.
  revert h. induction cs as [|c cs IH]; intros h Hbody HP; simpl.
  - by intros [= <-].
  - destruct (body c h) as [h1|] eqn:Hb; [| done]. simpl.
    apply IH.
    + intros c' h2 h3 Hin. apply Hbody. by apply list_elem_of_further.
    + eapply Hbody; [apply list_elem_of_here | done | done].
Qed.

Lemma for_each_is_Some (P : heap → Prop) body cs h :
  (∀ c h1, c ∈ cs → P h1 → ∃ h2, body c h1 = Some h2 ∧ P h2) →
  P h → ∃ h', for_each body cs h = Some h' ∧ P h'.
Proof.
  revert h. induction cs as [|c cs IH]; intros h Hbody HP; simpl.
  - by exists h.
  - destruct (Hbody c h) as (h1 & -> & HP1); [apply list_elem_of_here | done |].
    simpl. apply IH; [| done].
    intros c' h2 Hin. apply Hbody. by apply list_elem_of_further.
Qed.

(** ** Maintenance sweeps keep the store well formed *)

Lemma shrinks_refl h : shrinks h h.
Proof.
  split; [done |]. intros r n Hn. exists n.
  split; [done |]. split; [apply same_geometry_refl | by left].
Qed.

Lemma shrinks_trans h1 h2 h3 : shrinks h1 h2 → shrinks h2 h3 → shrinks h1 h3.
Proof.
  intros [Hl12 H12] [Hl23 H23]. split; [congruence |].
  intros r n Hn.
  destruct (H12 _ _ Hn) as (n2 & Hn2 & Hg2 & Hc2).
  destruct (H23 _ _ Hn2) as (n3 & Hn3 & Hg3 & Hc3).
  exists n3. split; [done |]. split; [by eapply same_geometry_trans |].
  destruct Hc3 as [-> | ->]; [done | by right].
Qed.

Lemma shrinks_extends h h' : shrinks h h' → extends h h'.
Proof.
  intros [_ Hs] r n Hn. destruct (Hs _ _ Hn) as (n' & ? & ? & _). eauto.
Qed.

Lemma shrinks_set_load v r h : shrinks h (alter (set_load v) r h).
Proof.
  split; [by rewrite length_alter |]. intros r' n Hn.
  destruct (decide (r = r')) as [<- | Hne].
  - exists (set_load v n). rewrite list_lookup_alter_eq, Hn.
    split; [done |]. split; [apply same_geometry_set_load | by left].
  - exists n. rewrite list_lookup_alter_ne by done.
    split; [done |]. split; [apply same_geometry_refl | by left].
Qed.

Lemma shrinks_merge self h h' : merge self h = Some h' → shrinks h h'.
Proof.
  intros Hm. unfold merge in Hm.
  destruct (h !! self) as [n|] eqn:Hn; [| done]. simpl in Hm.
  destruct (children n) as [cs|] eqn:Hcs; [| done]. simpl in Hm.
  destruct (deref_all h (children_values cs)) as [kids|] eqn:Hk; [| done].
  destruct (merge_spec _ _ _ _ _ Hn Hcs Hk) as (h2 & Hm2 & Hlen & Hself & Hother).
  unfold merge in Hm2. rewrite Hn in Hm2. simpl in Hm2. rewrite Hcs in Hm2.
  simpl in Hm2. rewrite Hk in Hm2. rewrite Hm2 in Hm. injection Hm as <-.
  split; [done |]. intros r nr Hr.
  destruct (decide (r = self)) as [-> | Hne].
  - rewrite Hn in Hr. injection Hr as <-. eexists. split; [done |].
    split; [by repeat split | by right].
  - exists nr. rewrite Hother by done.
    split; [done |]. split; [apply same_geometry_refl | by left].
Qed.

Lemma clamp_nonneg (v : Q) : (0 <= (if Qltb v eps then 0 else v))%Q.
Proof.
  destruct (Qltb v eps) eqn:Hv; [lra |].
  apply Qltb_ge in Hv. unfold eps in Hv.
  assert (0 < 1 # 1000000)%Q by reflexivity. lra.
Qed.

Lemma decay_maintains ml df fuel n h h' :
  wf ml h → decay df fuel n h = Some h' → wf ml h' ∧ shrinks h h'.
Proof.
  revert n h h'. induction fuel as [|fuel IH]; intros n h h' Hwf; simpl; [done |].
  destruct (h !! n) as [nd|] eqn:Hn; [| done]. simpl.
  destruct (children nd) as [cs|] eqn:Hcs.
  - apply (for_each_inv (λ h1, wf ml h1 ∧ shrinks h h1)).
    + intros c h1 h2 _ [Hwf1 Hs1] Hd.
      destruct (IH _ _ _ Hwf1 Hd) as [Hwf2 Hs2].
      split; [done | by eapply shrinks_trans].
    + split; [done | apply shrinks_refl].
  - intros [= <-]. split; [| apply shrinks_set_load].
    apply wf_set_load; [done | apply clamp_nonneg |].
    intros n' Hn' Hint. rewrite Hn in Hn'. injection Hn' as <-.
    unfold is_leaf in Hint. by rewrite Hcs in Hint.
Qed.

Lemma merge_repeatedly_maintains g fuel node h h' :
  wf (max_level g) h → _merge_repeatedly g fuel node h = Some h' →
  wf (max_level g) h' ∧ shrinks h h'.
Proof.
  revert node h h'. induction fuel as [|fuel IH]; intros node h h' Hwf; simpl; [done |].
  destruct (h !! node) as [n|] eqn:Hn; [| done]. simpl.
  destruct (children n) as [cs|] eqn:Hcs;
    [| intros [= <-]; split; [done | apply shrinks_refl]].
  destruct (for_each (_merge_repeatedly g fuel) (children_values cs) h)
    as [h1|] eqn:Hfe; [| done]. simpl.
  assert (H1 : wf (max_level g) h1 ∧ shrinks h h1).
  { revert Hfe. apply (for_each_inv (λ h1, wf (max_level g) h1 ∧ shrinks h h1)).
    - intros c h2 h3 _ [Hwf2 Hs2] Hd.
      destruct (IH _ _ _ Hwf2 Hd) as [Hwf3 Hs3].
      split; [done | by eapply shrinks_trans].
    - split; [done | apply shrinks_refl]. }
  destruct H1 as [Hwf1 Hs1].
  destruct (can_merge h1 node (merge_threshold g)) as [[|]|]; simpl; [| | done].
  - intros Hm. split; [by eapply wf_merge |].
    eapply shrinks_trans; [done | by eapply shrinks_merge].
  - by intros [= <-].
Qed.

Lemma can_merge_is_Some ml h r mt :
  wf ml h → is_Some (h !! r) → is_Some (can_merge h r mt).
Proof.
  intros Hwf [n Hn]. unfold can_merge. rewrite Hn. simpl.
  destruct (children n) as [cs|] eqn:Hcs; [| by eexists].
  destruct (ok_children _ _ _ _ (Hwf _ _ Hn) cs Hcs) as [_ Hq].
  destruct (quad_ok_deref _ _ _ _ Hq) as [kids ->]. simpl.
  destruct (existsb _ kids); by eexists.
Qed.

Lemma can_merge_merge h r mt :
  can_merge h r mt = Some true → is_Some (merge r h).
Proof.
  unfold can_merge, merge.
  destruct (h !! r) as [n|]; [| done]. simpl.
  destruct (children n) as [cs|]; [| done]. simpl.
  destruct (deref_all h (children_values cs)) as [kids|]; [| done]. simpl.
  by eexists.
Qed.

Lemma decay_is_Some ml df fuel n h :
  wf ml h → is_Some (h !! n) → length h - n < fuel →
  is_Some (decay df fuel n h).
Proof.
  revert n h. induction fuel as [|fuel IH]; intros n h Hwf [nd Hn] Hfuel; [lia |].
  simpl. rewrite Hn. simpl.
  destruct (children nd) as [cs|] eqn:Hcs; [| by eexists].
  destruct (ok_children _ _ _ _ (Hwf _ _ Hn) cs Hcs) as [_ Hq].
  destruct (for_each_is_Some (λ h1, wf ml h1 ∧ shrinks h h1)
              (decay df fuel) (children_values cs) h) as (h' & -> & _);
    [| split; [done | apply shrinks_refl] | by eexists].
  intros c h1 Hin [Hwf1 Hs1].
  destruct (quad_ok_valid _ _ _ _ _ Hq Hin) as (Hlt & nc & Hnc & _).
  destruct (proj2 Hs1 _ _ Hnc) as (nc' & Hnc' & _).
  pose proof (lookup_lt_Some _ _ _ Hnc) as Hltc.
  destruct (IH c h1 Hwf1) as [h2 Hd]; [by eexists | rewrite (proj1 Hs1); lia |].
  exists h2. split; [done |].
  destruct (decay_maintains _ _ _ _ _ _ Hwf1 Hd) as [Hwf2 Hs2].
  split; [done | by eapply shrinks_trans].
Qed.

Lemma merge_repeatedly_is_Some g fuel node h :
  wf (max_level g) h → is_Some (h !! node) → length h - node < fuel →
  is_Some (_merge_repeatedly g fuel node h).
Proof.
  revert node h. induction fuel as [|fuel IH]; intros node h Hwf [n Hn] Hfuel; [lia |].
  simpl. rewrite Hn. simpl.
  destruct (children n) as [cs|] eqn:Hcs; [| by eexists].
  destruct (ok_children _ _ _ _ (Hwf _ _ Hn) cs Hcs) as [_ Hq].
  destruct (for_each_is_Some (λ h1, wf (max_level g) h1 ∧ shrinks h h1)
              (_merge_repeatedly g fuel) (children_values cs) h)
    as (h1 & -> & Hwf1 & Hs1); [| split; [done | apply shrinks_refl] |].
  { intros c h1 Hin [Hwf1 Hs1].
    destruct (quad_ok_valid _ _ _ _ _ Hq Hin) as (Hlt & nc & Hnc & _).
    destruct (proj2 Hs1 _ _ Hnc) as (nc' & Hnc' & _).
    pose proof (lookup_lt_Some _ _ _ Hnc) as Hltc.
    destruct (IH c h1 Hwf1) as [h2 Hd]; [by eexists | rewrite (proj1 Hs1); lia |].
    exists h2. split; [done |].
    destruct (merge_repeatedly_maintains _ _ _ _ _ Hwf1 Hd) as [Hwf2 Hs2].
    split; [done | by eapply shrinks_trans]. }
  simpl. destruct (proj2 Hs1 _ _ Hn) as (n1 & Hn1 & _).
  destruct (can_merge_is_Some _ h1 node (merge_threshold g) Hwf1) as [b Hb];
    [by eexists |].
  rewrite Hb. simpl. destruct b; [by apply (can_merge_merge _ _ _ Hb) | by eexists].
Qed.

(** ** Enumerating the leaves *)

Lemma desc_inv h a d :
  desc h a d →
  a = d ∨ ∃ n cs c, h !! a = Some n ∧ children n = Some cs
                    ∧ c ∈ children_values cs ∧ desc h c d.
Proof.
  intros Hd. apply rtc_inv in Hd as [-> | (c & (n & cs & Hn & Hcs & Hin) & Hd)];
    [by left | right; eauto 10].
Qed.

Lemma desc_leaf h a d n :
  h !! a = Some n → is_leaf n = true → desc h a d → a = d.
Proof.
  intros Hn Hl Hd. apply desc_inv in Hd as [-> | (n' & cs & c & Hn' & Hcs & _)]; [done |].
  rewrite Hn in Hn'. injection Hn' as <-. unfold is_leaf in Hl. by rewrite Hcs in Hl.
Qed.

Lemma desc_child h a n cs c d :
  h !! a = Some n → children n = Some cs → c ∈ children_values cs →
  desc h c d → desc h a d.
Proof. intros Hn Hcs Hin Hd. eapply rtc_l; [| exact Hd]. by exists n, cs. Qed.

(** [gather] returns, within the fuel, exactly the leaves at or below the
    start node. *)
Lemma gather_spec ml fuel h n :
  wf ml h → is_Some (h !! n) → length h - n < fuel →
  ∃ ls, gather fuel h n = Some ls
    ∧ ∀ r, r ∈ ls ↔ desc h n r ∧ ∃ nr, h !! r = Some nr ∧ is_leaf nr = true.
Proof.
  intros Hwf. revert n. induction fuel as [|fuel IH]; intros n [nd Hn] Hfuel; [lia |].
  simpl. rewrite Hn. simpl.
  destruct (children nd) as [cs|] eqn:Hcs.
  - destruct (ok_children _ _ _ _ (Hwf _ _ Hn) cs Hcs) as [_ Hq].
    assert (Hch : ∀ c, c ∈ children_values cs →
      ∃ ls, gather fuel h c = Some ls
        ∧ ∀ r, r ∈ ls ↔ desc h c r ∧ ∃ nr, h !! r = Some nr ∧ is_leaf nr = true).
    { intros c Hin. destruct (quad_ok_valid _ _ _ _ _ Hq Hin) as (Hlt & nc & Hnc & _).
      pose proof (lookup_lt_Some _ _ _ Hnc). apply IH; [by eexists | lia]. }
    destruct cs as [[[c0 c1] c2] c3].
    destruct (Hch c0) as (l0 & Hg0 & Hs0); [in_quad |].
    destruct (Hch c1) as (l1 & Hg1 & Hs1); [in_quad |].
    destruct (Hch c2) as (l2 & Hg2 & Hs2); [in_quad |].
    destruct (Hch c3) as (l3 & Hg3 & Hs3); [in_quad |].
    simpl. rewrite Hg0. simpl. rewrite Hg1. simpl. rewrite Hg2. simpl. rewrite Hg3. simpl.
    eexists. split; [done |]. intros r.
    rewrite !elem_of_app, Hs0, Hs1, Hs2, Hs3, elem_of_nil. split.
    + intros [[Hd ?] | [[Hd ?] | [[Hd ?] | [[Hd ?] | []]]]];
        (split; [| done]); eapply desc_child; try done; in_quad.
    + intros [Hd (nr & Hnr & Hl)].
      apply desc_inv in Hd as [<- | (n' & cs' & c & Hn' & Hcs' & Hin & Hd)].
      * rewrite Hn in Hnr. injection Hnr as <-. unfold is_leaf in Hl.
        by rewrite Hcs in Hl.
      * rewrite Hn in Hn'. injection Hn' as <-. rewrite Hcs in Hcs'.
        injection Hcs' as <-. simpl in Hin.
        repeat (apply elem_of_cons in Hin as [-> | Hin]); [| | | | by apply elem_of_nil in Hin];
          eauto 10.
  - exists [n]. split; [done |]. intros r. rewrite list_elem_of_singleton. split.
    + intros ->. split; [apply rtc_refl |]. exists nd. unfold is_leaf. by rewrite Hcs.
    + intros [Hd _]. symmetry. eapply desc_leaf; [done | | done].
      unfold is_leaf. by rewrite Hcs.
Qed.

(** ** Runs of the public operations *)

Lemma built_grid_ok xmin ymin xmax ymax ml st mt df di :
  (xmin <= 0)%Q → (ymin <= 0)%Q → (1 <= xmax)%Q → (1 <= ymax)%Q →
  grid_ok (built xmin ymin xmax ymax ml st mt df di).1
    (built xmin ymin xmax ymax ml st mt df di).2.
Proof.
  intros Hx Hy Hx' Hy'. split.
  - intros r n Hr. destruct r as [|r]; [| done]. injection Hr as <-.
    split; simpl; [done | done | lia | done].
  - eexists. split; [reflexivity |]. by split.
Qed.

Lemma fresh_grid_ok ml st mt df di :
  grid_ok (fresh ml st mt df di).1 (fresh ml st mt df di).2.
Proof. apply (built_grid_ok 0 0 1 1); discriminate. Qed.

Lemma run_grid_ok g o h h' :
  grid_ok g h → run g o h = Some h' → grid_ok g h' ∧ extends h h'.
Proof.
  intros Hok. destruct o as [x y | x y | | df |]; simpl.
  - destruct (validate_coord_cases x) as [[_ Hx] | [_ Hx]];
      [destruct (validate_coord_cases y) as [[_ Hy] | [_ Hy]] |].
    + destruct (get_returns _ _ _ _ Hok Hx Hy) as (leaf & nl & _ & Hl & Hleaf & _ & _ & ->).
      simpl. intros [= <-]. split; [by apply grid_ok_add_load |].
      apply extends_alter, same_geometry_set_load.
    + rewrite get_raises by tauto. simpl. intros [= <-]. split; [done | apply extends_refl].
    + rewrite get_raises by tauto. simpl. intros [= <-]. split; [done | apply extends_refl].
  - destruct (validate_coord_cases x) as [[_ Hx] | [_ Hx]];
      [destruct (validate_coord_cases y) as [[_ Hy] | [_ Hy]] |].
    + destruct (set_returns _ _ _ _ Hok Hx Hy) as (leaf & nl & h2 & _ & Hl & Hleaf & _ & Hre & ->).
      simpl. intros [= <-].
      pose proof (grid_ok_add_load _ _ _ _ Hok Hl Hleaf) as Hok1.
      pose proof (grid_ok_rebalance _ _ _ _ Hok1 Hre) as Hok2.
      split; [done |]. eapply extends_trans;
        [apply extends_alter, same_geometry_set_load |].
      unfold _rebalance in Hre.
      destruct (alter (set_load (load nl + 1)%Q) leaf h !! leaf) as [n1|]; [| done].
      simpl in Hre. destruct (_ && _); [by eapply subdivide_extends |].
      injection Hre as <-. apply extends_refl.
    + rewrite set_raises by tauto. simpl. intros [= <-]. split; [done | apply extends_refl].
    + rewrite set_raises by tauto. simpl. intros [= <-]. split; [done | apply extends_refl].
  - intros Hm. destruct (merge_repeatedly_maintains _ _ _ _ _ (proj1 Hok) Hm) as [Hwf Hs].
    pose proof (shrinks_extends _ _ Hs). split; [by eapply grid_ok_extends | done].
  - intros Hd. destruct (decay_maintains _ _ _ _ _ _ (proj1 Hok) Hd) as [Hwf Hs].
    pose proof (shrinks_extends _ _ Hs). split; [by eapply grid_ok_extends | done].
  - destruct (get_leaves g h); simpl; [| done]. intros [= <-].
    split; [done | apply extends_refl].
Qed.

Lemma reachable_grid_ok g h0 h :
  grid_ok g h0 → reachable g h0 h → grid_ok g h ∧ extends h0 h.
Proof.
  intros Hok Hr. induction Hr as [h | h1 h2 h3 [o Ho] _ IH].
  - split; [done | apply extends_refl].
  - destruct (run_grid_ok _ _ _ _ Hok Ho) as [Hok2 He2].
    destruct (IH Hok2) as [Hok3 He3]. split; [done | by eapply extends_trans].
Qed.

Lemma reachable_fresh_ok ml st mt df di h :
  reachable (fresh ml st mt df di).1 (fresh ml st mt df di).2 h →
  grid_ok (fresh ml st mt df di).1 h.
Proof. intros Hr. eapply reachable_grid_ok; [apply fresh_grid_ok | done]. Qed.

(** Every public operation is defined on a well-formed grid: the fuel of
    the traversals suffices and no reference dangles. *)
Lemma run_is_Some g o h : grid_ok g h → is_Some (run g o h).
Proof.
  intros Hok. pose proof Hok as (Hwf & n & Hn & _).
  destruct o as [x y | x y | | df |]; simpl.
  - destruct (validate_coord_cases x) as [[_ Hx] | [_ Hx]];
      [destruct (validate_coord_cases y) as [[_ Hy] | [_ Hy]] |].
    + destruct (get_returns _ _ _ _ Hok Hx Hy) as (leaf & nl & _ & _ & _ & _ & _ & ->).
      by eexists.
    + rewrite get_raises by tauto. by eexists.
    + rewrite get_raises by tauto. by eexists.
  - destruct (validate_coord_cases x) as [[_ Hx] | [_ Hx]];
      [destruct (validate_coord_cases y) as [[_ Hy] | [_ Hy]] |].
    + destruct (set_returns _ _ _ _ Hok Hx Hy) as (leaf & nl & h2 & _ & _ & _ & _ & _ & ->).
      by eexists.
    + rewrite set_raises by tauto. by eexists.
    + rewrite set_raises by tauto. by eexists.
  - eapply merge_repeatedly_is_Some; [done | by eexists | lia].
  - eapply decay_is_Some; [done | by eexists | lia].
  - destruct (gather_spec _ (S (length h)) h (root g) Hwf) as (ls & Hg & _);
      [by eexists | lia |].
    unfold get_leaves. rewrite Hg. by eexists.
Qed.

(** ** Auxiliary facts for the claims *)

Lemma desc_valid ml h a d :
  wf ml h → is_Some (h !! a) → desc h a d → is_Some (h !! d).
Proof.
  intros Hwf Ha Hd. induction Hd as [a | a c d (n & cs & Hn & Hcs & Hin) _ IH]; [done |].
  apply IH. destruct (ok_children _ _ _ _ (Hwf _ _ Hn) cs Hcs) as [_ Hq].
  destruct (quad_ok_valid _ _ _ _ _ Hq Hin) as (_ & nc & -> & _). by eexists.
Qed.

Lemma in_tree_valid g h r : grid_ok g h → in_tree g h r → is_Some (h !! r).
Proof.
  intros (Hwf & n & Hn & _) Hd. eapply desc_valid; [done | by eexists | done].
Qed.

Lemma existsb_internal_false (kids : list Node) :
  existsb (λ child, negb (is_leaf child)) kids = false
  ↔ Forall (λ k, is_leaf k = true) kids.
Proof.
  induction kids as [|k kids IH]; simpl.
  - split; [by constructor | done].
  - rewrite orb_false_iff, negb_false_iff, IH, Forall_cons. tauto.
Qed.

Lemma sum_four (a b c d : Q) : (sum [a; b; c; d] == a + b + c + d)%Q.
Proof. unfold sum. simpl. ring. Qed.

Lemma merge_repeatedly_leaf g fuel c h k :
  h !! c = Some k → is_leaf k = true →
  _merge_repeatedly g (S fuel) c h = Some h.
Proof.
  intros Hc Hl. simpl. rewrite Hc. simpl.
  unfold is_leaf in Hl. by destruct (children k).
Qed.

Lemma for_each_merge_leaves g fuel cs h kids :
  deref_all h cs = Some kids → Forall (λ k, is_leaf k = true) kids →
  for_each (_merge_repeatedly g (S fuel)) cs h = Some h.
Proof.
  revert kids. induction cs as [|c cs IH]; intros kids Hd Hl; [done |].
  unfold deref_all in Hd. cbn [mapM] in Hd.
  destruct (h !! c) as [k|] eqn:Hc; [| done]. simpl in Hd.
  destruct (mapM (λ r, h !! r) cs) as [ks|] eqn:Hks; [| done].
  simpl in Hd. injection Hd as <-. apply Forall_cons in Hl as [Hk Hl].
  cbn [for_each]. rewrite (merge_repeatedly_leaf _ _ _ _ _ Hc Hk). simpl.
  by apply (IH ks).
Qed.

Lemma can_merge_unfold h self mt n cs kids :
  h !! self = Some n → children n = Some cs →
  deref_all h (children_values cs) = Some kids →
  can_merge h self mt
  = Some (if existsb (λ child, negb (is_leaf child)) kids then false
          else Qltb (sum (load <$> kids)) mt).
Proof.
  intros Hn Hcs Hk. unfold can_merge. rewrite Hn. simpl. rewrite Hcs, Hk. simpl.
  by destruct (existsb _ kids).
Qed.

(** The post-order shape of [_merge_repeatedly] on an internal node. *)
Lemma merge_repeatedly_internal g fuel node h n cs :
  h !! node = Some n → children n = Some cs →
  _merge_repeatedly g (S fuel) node h
  = (h1 ← for_each (_merge_repeatedly g fuel) (children_values cs) h;
     b ← can_merge h1 node (merge_threshold g);
     if (b : bool) then merge node h1 else Some h1).
Proof. intros Hn Hcs. simpl. rewrite Hn. simpl. by rewrite Hcs. Qed.

(** Only [set] can add nodes or give a node children. *)
Lemma run_shrinks g o h h' :
  grid_ok g h → (∀ x y, o ≠ OpSet x y) → run g o h = Some h' → shrinks h h'.
Proof.
  intros Hok Hns. destruct o as [x y | x y | | df |]; simpl.
  - destruct (validate_coord_cases x) as [[_ Hx] | [_ Hx]];
      [destruct (validate_coord_cases y) as [[_ Hy] | [_ Hy]] |].
    + destruct (get_returns _ _ _ _ Hok Hx Hy) as (leaf & nl & _ & _ & _ & _ & _ & ->).
      simpl. intros [= <-]. apply shrinks_set_load.
    + rewrite get_raises by tauto. simpl. intros [= <-]. apply shrinks_refl.
    + rewrite get_raises by tauto. simpl. intros [= <-]. apply shrinks_refl.
  - by destruct (Hns x y).
  - intros Hm. by destruct (merge_repeatedly_maintains _ _ _ _ _ (proj1 Hok) Hm).
  - intros Hd. by destruct (decay_maintains _ _ _ _ _ _ (proj1 Hok) Hd).
  - destruct (get_leaves g h); simpl; [| done]. intros [= <-]. apply shrinks_refl.
Qed.

(** A node that [set] turns from leaf to internal is the node found, and
    it passed the guard with its incremented load. *)
Lemma set_splits_under_guard g h x y out h' r n n' :
  set g x y h = Some (out, h') →
  h !! r = Some n → is_leaf n = true →
  h' !! r = Some n' → is_leaf n' = false →
  _find_leaf h (root g) x y = Some r
  ∧ (split_threshold g < load n + 1)%Q ∧ (level n < max_level g)%Z.
Proof.
  unfold set. intros Hset Hn Hleaf Hn' Hint.
  destruct (validate_coord_cases x) as [[Hvx _] | [Hvx _]]; rewrite Hvx in Hset;
    [| injection Hset as <- <-; congruence].
  destruct (validate_coord_cases y) as [[Hvy _] | [Hvy _]]; rewrite Hvy in Hset;
    [| injection Hset as <- <-; congruence].
  destruct (_find_leaf h (root g) x y) as [leaf|] eqn:Hf; [| done]. simpl in Hset.
  destruct (h !! leaf) as [nl|] eqn:Hl; [| done]. simpl in Hset.
  set (h1 := alter (set_load (load nl + 1)%Q) leaf h) in Hset.
  destruct (_rebalance g leaf h1) as [h2|] eqn:Hre; [| done].
  simpl in Hset. injection Hset as <- <-.
  assert (Hl1 : h1 !! leaf = Some (set_load (load nl + 1)%Q nl)).
  { unfold h1. by rewrite list_lookup_alter_eq, Hl. }
  assert (Hr1 : ∃ n1, h1 !! r = Some n1 ∧ is_leaf n1 = true).
  { unfold h1. destruct (decide (leaf = r)) as [-> | Hne].
    - rewrite list_lookup_alter_eq, Hn. eexists. split; [done |]. done.
    - rewrite list_lookup_alter_ne by done. eauto. }
  destruct Hr1 as (n1 & Hn1 & Hleaf1).
  destruct (rebalance_cases g _ _ _ Hl1) as [[(Hq & Hz & _) Heq] | [_ Heq]];
    rewrite Heq in Hre.
  - destruct (subdivide_spec _ _ _ Hl1) as (h3 & Hs & _ & Hself & Hother & _).
    rewrite Hs in Hre. injection Hre as <-.
    destruct (decide (r = leaf)) as [-> | Hne].
    + rewrite Hl in Hn. injection Hn as <-. by simpl in Hq, Hz.
    + rewrite Hother in Hn'; [| done | by eapply lookup_lt_Some]. congruence.
  - injection Hre as <-. congruence.
Qed.

(** ** The store holds a tree: subtrees of siblings are disjoint *)

Lemma child_of_facts ml h a c :
  wf ml h → child_of h a c →
  a < c ∧ ∃ na nc, h !! a = Some na ∧ h !! c = Some nc
    ∧ parent nc = Some a ∧ level nc = (level na + 1)%Z.
Proof.
  intros Hwf (n & cs & Hn & Hcs & Hin).
  destruct (ok_children _ _ _ _ (Hwf _ _ Hn) cs Hcs) as [_ Hq].
  destruct (quad_ok_valid _ _ _ _ _ Hq Hin) as (Hlt & nc & Hnc & Hp & Hl).
  split; [done |]. by exists n, nc.
Qed.

Lemma desc_le ml h a d : wf ml h → desc h a d → a ≤ d.
Proof.
  intros Hwf Hd. induction Hd as [a | a c d Hc _ IH]; [done |].
  destruct (child_of_facts _ _ _ _ Hwf Hc) as [Hlt _]. lia.
Qed.

Lemma desc_level ml h a d na nd :
  wf ml h → desc h a d → h !! a = Some na → h !! d = Some nd →
  (level na <= level nd)%Z ∧ (level na = level nd → a = d).
Proof.
  intros Hwf Hd. revert na. induction Hd as [a | a c d Hc _ IH]; intros na Ha Hd'.
  - rewrite Ha in Hd'. injection Hd' as <-. done.
  - destruct (child_of_facts _ _ _ _ Hwf Hc) as (_ & na' & nc & Ha' & Hnc & _ & Hl).
    rewrite Ha in Ha'. injection Ha' as <-.
    destruct (IH nc Hnc Hd') as [Hle _]. split; lia.
Qed.

(** The ancestors of a node form a chain: the parent is unique. *)
Lemma desc_chain ml h a b d :
  wf ml h → desc h a d → desc h b d → desc h a b ∨ desc h b a.
Proof.
  intros Hwf Ha. revert b. revert d Ha.
  apply (rtc_ind_r (λ d, ∀ b, desc h b d → desc h a b ∨ desc h b a));
    [intros b Hb; by right |].
  intros p d Hap Hpd IH b Hb.
  apply rtc_inv_r in Hb as [-> | (p' & Hbp' & Hp'd)].
  - left. by eapply rtc_r.
  - destruct (child_of_facts _ _ _ _ Hwf Hpd) as (_ & _ & nd & _ & Hd & Hpar & _).
    destruct (child_of_facts _ _ _ _ Hwf Hp'd) as (_ & _ & nd' & _ & Hd' & Hpar' & _).
    rewrite Hd in Hd'. injection Hd' as <-. rewrite Hpar in Hpar'.
    injection Hpar' as <-. by apply IH.
Qed.

Lemma siblings_disjoint ml h a n cs :
  wf ml h → h !! a = Some n → children n = Some cs →
  disjoint_below h (children_values cs).
Proof.
  intros Hwf Hn Hcs.
  destruct (ok_children _ _ _ _ (Hwf _ _ Hn) cs Hcs) as [_ Hq]. split.
  - destruct cs as [[[c0 c1] c2] c3]. apply Hq.
  - intros c c' d Hc Hc' Hd Hd'.
    destruct (quad_ok_valid _ _ _ _ _ Hq Hc) as (_ & nc & Hnc & _ & Hl).
    destruct (quad_ok_valid _ _ _ _ _ Hq Hc') as (_ & nc' & Hnc' & _ & Hl').
    destruct (desc_chain _ _ _ _ _ Hwf Hd Hd') as [Hcc | Hcc].
    + eapply (desc_level _ _ _ _ _ _ Hwf Hcc Hnc Hnc'). lia.
    + symmetry. eapply (desc_level _ _ _ _ _ _ Hwf Hcc Hnc' Hnc). lia.
Qed.

Lemma not_desc_child_parent ml h a n cs c :
  wf ml h → h !! a = Some n → children n = Some cs → c ∈ children_values cs →
  ¬ desc h c a.
Proof.
  intros Hwf Hn Hcs Hin Hd.
  destruct (ok_children _ _ _ _ (Hwf _ _ Hn) cs Hcs) as [_ Hq].
  destruct (quad_ok_valid _ _ _ _ _ Hq Hin) as (Hlt & _).
  pose proof (desc_le _ _ _ _ Hwf Hd). lia.
Qed.

Lemma desc_shrinks h h' a d : shrinks h h' → desc h' a d → desc h a d.
Proof.
  intros [Hlen Hs] Hd. induction Hd as [a | a c d (n' & cs & Hn' & Hcs & Hin) _ IH];
    [apply rtc_refl |].
  eapply rtc_l; [| exact IH].
  destruct (lookup_lt_is_Some_2 h a) as [n Hn].
  { apply lookup_lt_Some in Hn'. lia. }
  destruct (Hs _ _ Hn) as (n'' & Hn'' & _ & Hc).
  rewrite Hn' in Hn''. injection Hn'' as <-.
  exists n, cs. split; [done |]. split; [| done].
  destruct Hc as [<- | Hc]; [done | congruence].
Qed.

Lemma disjoint_below_shrinks h h' cs :
  shrinks h h' → disjoint_below h cs → disjoint_below h' cs.
Proof.
  intros Hs [Hnd Hd]. split; [done |]. intros c c' d Hc Hc' H1 H2.
  apply (Hd c c' d); [done | done | by eapply desc_shrinks | by eapply desc_shrinks].
Qed.

Lemma disjoint_below_cons h c cs :
  disjoint_below h (c :: cs) →
  disjoint_below h cs ∧ ∀ c' d, c' ∈ cs → desc h c d → ¬ desc h c' d.
Proof.
  intros [Hnd Hd]. apply NoDup_cons in Hnd as [Hnotin Hnd]. split.
  - split; [done |]. intros c1 c2 d H1 H2. apply Hd; by apply list_elem_of_further.
  - intros c' d Hin Hc Hc'. apply Hnotin.
    rewrite (Hd c c' d); [done | apply list_elem_of_here
                          | by apply list_elem_of_further | done | done].
Qed.

(** ** What a decay sweep does *)

Lemma load_variant_refl h : load_variant h h.
Proof.
  split; [done |]. intros r n Hn. exists (load n). by destruct n.
Qed.

Lemma load_variant_trans h1 h2 h3 :
  load_variant h1 h2 → load_variant h2 h3 → load_variant h1 h3.
Proof.
  intros [Hl12 H12] [Hl23 H23]. split; [congruence |]. intros r n Hn.
  destruct (H12 _ _ Hn) as (v & Hv). destruct (H23 _ _ Hv) as (w & Hw).
  exists w. by rewrite Hw.
Qed.

Lemma load_variant_set_load v r h : load_variant h (alter (set_load v) r h).
Proof.
  split; [by rewrite length_alter |]. intros r' n Hn.
  destruct (decide (r = r')) as [<- | Hne].
  - exists v. by rewrite list_lookup_alter_eq, Hn.
  - exists (load n). rewrite list_lookup_alter_ne by done. rewrite Hn. by destruct n.
Qed.

Lemma decay_load_variant df fuel a h h' :
  decay df fuel a h = Some h' → load_variant h h'.
Proof.
  revert a h h'. induction fuel as [|fuel IH]; intros a h h'; simpl; [done |].
  destruct (h !! a) as [nd|]; [| done]. simpl.
  destruct (children nd) as [cs|].
  - apply (for_each_inv (load_variant h)); [| apply load_variant_refl].
    intros c h1 h2 _ H1 Hd. eapply load_variant_trans; [done | by eapply IH].
  - intros [= <-]. apply load_variant_set_load.
Qed.

Lemma desc_load_variant h h' a d : load_variant h h' → desc h a d → desc h' a d.
Proof.
  intros [_ Hv] Hd. induction Hd as [a | a c d (n & cs & Hn & Hcs & Hin) _ IH];
    [apply rtc_refl |].
  eapply rtc_l; [| exact IH]. destruct (Hv _ _ Hn) as (v & Hv').
  by exists (set_load v n), cs.
Qed.

Lemma load_variant_shrinks h h' : load_variant h h' → shrinks h h'.
Proof.
  intros [Hlen Hv]. split; [done |]. intros r n Hn.
  destruct (Hv _ _ Hn) as (v & Hv'). exists (set_load v n).
  split; [done |]. split; [apply same_geometry_set_load | by left].
Qed.

Lemma decayed_is_leaf df n : is_leaf (decayed df n) = is_leaf n.
Proof. done. Qed.

(** The children loop of [decay]: when every child sweep has the expected
    effect, the loop decays the leaves below the listed nodes once each. *)
Lemma for_each_decay_effect ml df fuel cs h :
  (∀ a h1, wf ml h1 → is_Some (h1 !! a) → length h1 - a < fuel →
     ∃ h2, decay df fuel a h1 = Some h2 ∧ decay_effect df h1 a h2) →
  wf ml h →
  (∀ c, c ∈ cs → is_Some (h !! c) ∧ length h - c < fuel) →
  disjoint_below h cs →
  ∃ h', for_each (decay df fuel) cs h = Some h'
    ∧ length h' = length h
    ∧ ∀ r n, h !! r = Some n →
        ((∃ c, c ∈ cs ∧ desc h c r) → is_leaf n = true →
           h' !! r = Some (decayed df n))
        ∧ (¬ (∃ c, c ∈ cs ∧ desc h c r) ∨ is_leaf n = false →
           h' !! r = Some n).
Proof.
  intros Hbody. revert h. induction cs as [|c cs IH]; intros h Hwf Hvalid Hdisj.
  - exists h. split; [done |]. split; [done |]. intros r n Hn. split.
    + intros (c & Hc & _). by apply elem_of_nil in Hc.
    + done.
  - destruct (Hvalid c) as [Hc Hfuel]; [apply list_elem_of_here |].
    destruct (Hbody c h Hwf Hc Hfuel) as (h1 & Hd1 & Hlen1 & Heff1).
    destruct (decay_maintains _ _ _ _ _ _ Hwf Hd1) as [Hwf1 Hs1].
    pose proof (decay_load_variant _ _ _ _ _ Hd1) as Hv1.
    destruct (disjoint_below_cons _ _ _ Hdisj) as [Hdisj' Hsep].
    destruct (IH h1 Hwf1) as (h' & Hfe & Hlen' & Heff').
    { intros c' Hc'. destruct (Hvalid c') as [[nc' Hnc'] Hf'];
        [by apply list_elem_of_further |].
      destruct (proj2 Hv1 _ _ Hnc') as (v & ->). split; [by eexists | lia]. }
    { by eapply disjoint_below_shrinks. }
    exists h'. cbn [for_each]. rewrite Hd1. simpl.
    split; [done |]. split; [congruence |]. intros r n Hn.
    destruct (Heff1 _ _ Hn) as [Hin1 Hout1]. split.
    + intros (c0 & Hc0 & Hdesc) Hleaf.
      apply elem_of_cons in Hc0 as [-> | Hc0].
      * pose proof (Hin1 Hdesc Hleaf) as Hr1.
        apply (Heff' _ _ Hr1). left. intros (c' & Hc' & Hd').
        apply (Hsep c' r Hc' Hdesc). by eapply desc_shrinks.
      * assert (Hr1 : h1 !! r = Some n).
        { apply Hout1. left. intros Hdc. by apply (Hsep c0 r Hc0 Hdc). }
        apply (Heff' _ _ Hr1); [| done].
        exists c0. split; [done | by eapply desc_load_variant].
    + intros Hcase.
      assert (Hr1 : h1 !! r = Some n).
      { apply Hout1. destruct Hcase as [Hno | Hint]; [left | by right].
        intros Hdc. apply Hno. exists c. split; [apply list_elem_of_here | done]. }
      apply (Heff' _ _ Hr1). destruct Hcase as [Hno | Hint]; [left | by right].
      intros (c' & Hc' & Hd'). apply Hno. exists c'.
      split; [by apply list_elem_of_further | by eapply desc_shrinks].
Qed.

(** [decay] from a node of a well-formed store returns within the fuel and
    decays exactly the leaves at or below that node, once each. *)
Lemma decay_spec ml df fuel a h :
  wf ml h → is_Some (h !! a) → length h - a < fuel →
  ∃ h', decay df fuel a h = Some h' ∧ decay_effect df h a h'.
Proof.
  revert a h. induction fuel as [|fuel IH]; intros a h Hwf [n Hn] Hfuel; [lia |].
  simpl. rewrite Hn. simpl. destruct (children n) as [cs|] eqn:Hcs.
  - destruct (ok_children _ _ _ _ (Hwf _ _ Hn) cs Hcs) as [_ Hq].
    destruct (for_each_decay_effect ml df fuel (children_values cs) h IH Hwf)
      as (h' & Hfe & Hlen & Heff).
    { intros c Hc. destruct (quad_ok_valid _ _ _ _ _ Hq Hc) as (Hlt & nc & Hnc & _).
      pose proof (lookup_lt_Some _ _ _ Hnc). split; [by eexists | lia]. }
    { by eapply siblings_disjoint. }
    exists h'. split; [done |]. split; [done |]. intros r nr Hr.
    destruct (Heff _ _ Hr) as [Hin Hout]. split.
    + intros Hd Hleaf. apply Hin; [| done].
      apply desc_inv in Hd as [<- | (n' & cs' & c & Hn' & Hcs' & Hc & Hd)].
      * rewrite Hn in Hr. injection Hr as <-. unfold is_leaf in Hleaf.
        by rewrite Hcs in Hleaf.
      * rewrite Hn in Hn'. injection Hn' as <-. rewrite Hcs in Hcs'.
        injection Hcs' as <-. eauto.
    + intros Hcase. apply Hout. destruct Hcase as [Hno | Hint]; [left | by right].
      intros (c & Hc & Hd). apply Hno. by eapply desc_child.
  - eexists. split; [done |]. split; [by rewrite length_alter |]. intros r nr Hr.
    assert (Hleaf : is_leaf n = true) by (unfold is_leaf; by rewrite Hcs).
    split.
    + intros Hd _. rewrite <- (desc_leaf _ _ _ _ Hn Hleaf Hd) in *.
      rewrite Hn in Hr. injection Hr as <-.
      by rewrite list_lookup_alter_eq, Hn.
    + intros Hcase. destruct (decide (a = r)) as [<- | Hne].
      * rewrite Hn in Hr. injection Hr as <-.
        destruct Hcase as [Hno | Hint]; [| congruence].
        destruct Hno. apply rtc_refl.
      * by rewrite list_lookup_alter_ne.
Qed.

Lemma repeat_op_add g o k m h :
  repeat_op g o (k + m) h = (h' ← repeat_op g o m h; repeat_op g o k h').
Proof.
  induction k as [|k IH]; simpl.
  - by destruct (repeat_op g o m h).
  - rewrite IH. by destruct (repeat_op g o m h).
Qed.

Lemma repeat_op_fixed g o k h : run g o h = Some h → repeat_op g o k h = Some h.
Proof. intros Hrun. induction k as [|k IH]; simpl; [done |]. by rewrite IH. Qed.

Lemma decay_steps_ok : forallb decay_step_ok (seq 0 132) = true.
Proof. vm_compute. reflexivity. Qed.

Lemma decay_settled :
  repeat_op default_grid.1 (OpDecayLoad (9 # 10)) 132 one_load_store
  = Some [set_load 0%Q (Node_init 0 0 1 1 0 None)].
Proof. vm_compute. reflexivity. Qed.

(** ** What a merge sweep does *)

(** [can_merge] reads the node and its children, nothing else. *)
Lemma can_merge_ext (h1 h2 : heap) r mt :
  h1 !! r = h2 !! r →
  (∀ c, child_of h2 r c → h1 !! c = h2 !! c) →
  can_merge h1 r mt = can_merge h2 r mt.
Proof.
  intros Hr Hch. unfold can_merge. rewrite Hr.
  destruct (h2 !! r) as [n|] eqn:Hn; [| done]. simpl.
  destruct (children n) as [cs|] eqn:Hcs; [| done].
  assert (Hd : deref_all h1 (children_values cs) = deref_all h2 (children_values cs)).
  { destruct cs as [[[c0 c1] c2] c3]. unfold deref_all. cbn [children_values mapM].
    rewrite (Hch c0), (Hch c1), (Hch c2), (Hch c3); [done | | | |];
      exists n, (c0, c1, c2, c3); (split; [done |]); (split; [done |]); in_quad. }
  by rewrite Hd.
Qed.

Lemma can_merge_leaf (h : heap) r mt n :
  h !! r = Some n → is_leaf n = true → can_merge h r mt = Some false.
Proof.
  intros Hn Hl. unfold can_merge. rewrite Hn. simpl.
  unfold is_leaf in Hl. by destruct (children n).
Qed.

(** The children loop of [_merge_repeatedly]. *)
Lemma for_each_sweep_effect g fuel cs h h' :
  (∀ a h1 h2, wf (max_level g) h1 → _merge_repeatedly g fuel a h1 = Some h2 →
     sweep_effect g h1 a h2) →
  wf (max_level g) h →
  disjoint_below h cs →
  for_each (_merge_repeatedly g fuel) cs h = Some h' →
  (∀ r, ¬ (∃ c, c ∈ cs ∧ desc h c r) → h' !! r = h !! r)
  ∧ (∀ c r, c ∈ cs → desc h' c r →
       can_merge h' r (merge_threshold g) = Some false).
Proof.
  intros Hbody. revert h. induction cs as [|c cs IH]; intros h Hwf Hdisj; cbn [for_each].
  - intros [= <-]. split; [done |]. intros c r Hc. by apply elem_of_nil in Hc.
  - destruct (_merge_repeatedly g fuel c h) as [h1|] eqn:Hm; [| done]. simpl.
    intros Hfe.
    destruct (merge_repeatedly_maintains _ _ _ _ _ Hwf Hm) as [Hwf1 Hs1].
    destruct (Hbody _ _ _ Hwf Hm) as [Hframe1 Hpost1].
    destruct (disjoint_below_cons _ _ _ Hdisj) as [Hdisj' Hsep].
    destruct (IH h1 Hwf1 (disjoint_below_shrinks _ _ _ Hs1 Hdisj') Hfe)
      as [Hframe' Hpost'].
    assert (Hs' : shrinks h1 h').
    { revert Hfe. apply (for_each_inv (λ hx, wf (max_level g) hx ∧ shrinks h1 hx));
        [| split; [done | apply shrinks_refl]].
      intros c' h2 h3 _ [Hwf2 Hs2] Hm2.
      destruct (merge_repeatedly_maintains _ _ _ _ _ Hwf2 Hm2) as [Hwf3 Hs3].
      split; [done | by eapply shrinks_trans]. }
    split.
    + intros r Hno. rewrite Hframe'.
      * apply Hframe1. intros Hd. apply Hno. exists c.
        split; [apply list_elem_of_here | done].
      * intros (c' & Hc' & Hd'). apply Hno. exists c'.
        split; [by apply list_elem_of_further | by eapply desc_shrinks].
    + intros c0 r Hc0 Hd. apply elem_of_cons in Hc0 as [-> | Hc0]; [| by eapply Hpost'].
      pose proof (desc_shrinks _ _ _ _ Hs' Hd) as Hd1.
      assert (Hkeep : ∀ r', desc h1 c r' → h' !! r' = h1 !! r').
      { intros r' Hr'. apply Hframe'. intros (c' & Hc' & Hd').
        apply (Hsep c' r' Hc'); by eapply desc_shrinks. }
      rewrite (can_merge_ext h' h1).
      * by apply Hpost1.
      * by apply Hkeep.
      * intros c' Hc'. apply Hkeep. eapply rtc_r; [exact Hd1 | exact Hc'].
Qed.

(** After [_merge_repeatedly] from a node, nothing outside the subtree has
    changed and no node left in the subtree satisfies [can_merge]. *)
Lemma merge_repeatedly_effect g fuel a h h' :
  wf (max_level g) h → _merge_repeatedly g fuel a h = Some h' →
  sweep_effect g h a h'.
Proof.
  revert a h h'. induction fuel as [|fuel IH]; intros a h h' Hwf; [done |].
  cbn [_merge_repeatedly]. destruct (h !! a) as [n|] eqn:Hn; [| done]. simpl.
  destruct (children n) as [cs|] eqn:Hcs.
  - destruct (for_each (_merge_repeatedly g fuel) (children_values cs) h)
      as [h1|] eqn:Hfe; [| done]. simpl.
    destruct (for_each_sweep_effect g fuel _ h h1 IH Hwf
                (siblings_disjoint _ _ _ _ _ Hwf Hn Hcs) Hfe) as [Hframe1 Hpost1].
    assert (Hnotbelow : ∀ r, ¬ desc h a r →
              ¬ ∃ c, c ∈ children_values cs ∧ desc h c r).
    { intros r Hno (c & Hc & Hd). apply Hno. by eapply desc_child. }
    assert (Ha1 : h1 !! a = Some n).
    { rewrite Hframe1; [done |]. intros (c & Hc & Hd).
      by eapply not_desc_child_parent. }
    destruct (can_merge h1 a (merge_threshold g)) as [[|]|] eqn:Hcm; simpl; [| | done].
    + intros Hmerge.
      assert (Hk : ∃ kids, deref_all h1 (children_values cs) = Some kids).
      { unfold merge in Hmerge. rewrite Ha1 in Hmerge. simpl in Hmerge.
        rewrite Hcs in Hmerge. simpl in Hmerge.
        destruct (deref_all h1 (children_values cs)); [by eexists | done]. }
      destruct Hk as [kids Hk].
      destruct (merge_spec _ _ _ _ _ Ha1 Hcs Hk) as (h2 & Hm2 & _ & Hself & Hother).
      rewrite Hm2 in Hmerge. injection Hmerge as <-. split.
      * intros r Hno. rewrite Hother.
        -- by apply Hframe1, Hnotbelow.
        -- intros ->. apply Hno, rtc_refl.
      * intros r Hd. rewrite <- (desc_leaf _ _ _ _ Hself eq_refl Hd).
        by eapply can_merge_leaf.
    + intros [= <-]. split; [intros r Hno; by apply Hframe1, Hnotbelow |].
      intros r Hd. apply desc_inv in Hd as [<- | (n' & cs' & c & Hn' & Hcs' & Hc & Hd)];
        [done |].
      rewrite Ha1 in Hn'. injection Hn' as <-. rewrite Hcs in Hcs'.
      injection Hcs' as <-. by eapply Hpost1.
  - intros [= <-]. split; [done |]. intros r Hd.
    assert (Hleaf : is_leaf n = true) by (unfold is_leaf; by rewrite Hcs).
    rewrite <- (desc_leaf _ _ _ _ Hn Hleaf Hd). by eapply can_merge_leaf.
Qed.

(** ** A mergeable node is merged by the sweep that reaches it *)

Lemma desc_agree (h h1 : heap) c a :
  (∀ x, desc h c x → h1 !! x = h !! x) → desc h c a → desc h1 c a.
Proof.
  intros Hag Hd. induction Hd as [c | c c' a (n & cs & Hn & Hcs & Hin) Hd IH];
    [apply rtc_refl |].
  eapply rtc_l.
  - exists n, cs. split; [| done]. rewrite Hag; [done | apply rtc_refl].
  - apply IH. intros x Hx. apply Hag. eapply rtc_l; [| exact Hx]. by exists n, cs.
Qed.

Lemma deref_all_agree (h h1 : heap) rs :
  (∀ r, r ∈ rs → h1 !! r = h !! r) → deref_all h1 rs = deref_all h rs.
Proof.
  intros Hag. unfold deref_all. induction rs as [|r rs IH]; [done |].
  cbn [mapM]. rewrite (Hag r), IH; [done | | apply list_elem_of_here].
  intros r' Hr'. apply Hag. by apply list_elem_of_further.
Qed.

Lemma can_merge_true h a mt n cs kids :
  h !! a = Some n → children n = Some cs →
  deref_all h (children_values cs) = Some kids →
  Forall (λ k, is_leaf k = true) kids → (sum (load <$> kids) < mt)%Q →
  can_merge h a mt = Some true.
Proof.
  intros Hn Hcs Hk Hl Hlt. rewrite (can_merge_unfold _ _ _ _ _ _ Hn Hcs Hk).
  rewrite (proj2 (existsb_internal_false kids) Hl).
  by rewrite (proj2 (Qltb_lt _ _) Hlt).
Qed.

Section sweep_merges.
Variable g : FractalGrid.
Variables (a : ref) (n : Node) (cs : quad) (kids : list Node).
Hypothesis Hcs : children n = Some cs.
Hypothesis Hleaves : Forall (λ k, is_leaf k = true) kids.
Hypothesis Hsum : (sum (load <$> kids) < merge_threshold g)%Q.

Lemma mergeable_at_agree h h1 c :
  desc h c a → (∀ x, desc h c x → h1 !! x = h !! x) →
  mergeable_at a n cs kids h → mergeable_at a n cs kids h1.
Proof.
  intros Hd Hag [Hn Hk]. split; [by rewrite Hag |].
  rewrite (deref_all_agree h); [done |].
  intros r Hr. apply Hag. eapply rtc_r; [exact Hd |]. by exists n, cs.
Qed.

Lemma for_each_sweep_merges fuel rs h h' :
  (∀ r h1 h2, wf (max_level g) h1 → _merge_repeatedly g fuel r h1 = Some h2 →
     desc h1 r a → mergeable_at a n cs kids h1 → merged_at a kids h2) →
  wf (max_level g) h → disjoint_below h rs →
  for_each (_merge_repeatedly g fuel) rs h = Some h' →
  (∃ c, c ∈ rs ∧ desc h c a) → mergeable_at a n cs kids h → merged_at a kids h'.
Proof.
  intros Hbody. revert h. induction rs as [|c0 rs IH];
    intros h Hwf Hdisj Hfe (c & Hc & Hd) Hma.
  - by apply elem_of_nil in Hc.
  - cbn [for_each] in Hfe.
    destruct (_merge_repeatedly g fuel c0 h) as [h1|] eqn:Hm; [| done].
    simpl in Hfe.
    destruct (merge_repeatedly_maintains _ _ _ _ _ Hwf Hm) as [Hwf1 Hs1].
    destruct (merge_repeatedly_effect _ _ _ _ _ Hwf Hm) as [Hframe1 _].
    destruct (disjoint_below_cons _ _ _ Hdisj) as [Hdisj' Hsep].
    pose proof (disjoint_below_shrinks _ _ _ Hs1 Hdisj') as Hdisj1.
    apply elem_of_cons in Hc as [-> | Hc].
    + destruct (Hbody _ _ _ Hwf Hm Hd Hma) as (n' & Hn' & Hl' & Hload').
      destruct (for_each_sweep_effect g fuel rs h1 h'
                  (λ r hx hy, merge_repeatedly_effect g fuel r hx hy)
                  Hwf1 Hdisj1 Hfe) as [Hframe' _].
      exists n'. split; [| done]. rewrite Hframe'; [done |].
      intros (c' & Hc' & Hd'). apply (Hsep c' a Hc' Hd). by eapply desc_shrinks.
    + assert (Hag : ∀ x, desc h c x → h1 !! x = h !! x).
      { intros x Hx. apply Hframe1. intros Hx0. by apply (Hsep c x Hc Hx0). }
      apply (IH h1 Hwf1 Hdisj1 Hfe).
      * exists c. split; [done | by apply (desc_agree h)].
      * by apply (mergeable_at_agree h h1 c).
Qed.

Lemma merge_repeatedly_merges fuel r h h' :
  wf (max_level g) h → _merge_repeatedly g fuel r h = Some h' →
  desc h r a → mergeable_at a n cs kids h → merged_at a kids h'.
Proof.
  revert r h h'. induction fuel as [|fuel IH]; intros r h h' Hwf Hm Hd Hma; [done |].
  pose proof Hma as [Hn Hk].
  cbn [_merge_repeatedly] in Hm.
  destruct (h !! r) as [nr|] eqn:Hr; [| done]. simpl in Hm.
  destruct (children nr) as [csr|] eqn:Hcsr.
  - destruct (for_each (_merge_repeatedly g fuel) (children_values csr) h)
      as [h1|] eqn:Hfe; [| done]. simpl in Hm.
    destruct (decide (r = a)) as [-> | Hne].
    + rewrite Hn in Hr. injection Hr as <-. rewrite Hcs in Hcsr. injection Hcsr as <-.
      destruct fuel as [|fuel].
      { destruct cs as [[[c0 c1] c2] c3]. done. }
      rewrite (for_each_merge_leaves _ _ _ _ _ Hk Hleaves) in Hfe.
      injection Hfe as <-.
      rewrite (can_merge_true _ _ _ _ _ _ Hn Hcs Hk Hleaves Hsum) in Hm.
      simpl in Hm.
      destruct (merge_spec _ _ _ _ _ Hn Hcs Hk) as (h2 & Hm2 & _ & Hself & _).
      rewrite Hm2 in Hm. injection Hm as <-. eexists. split; [done |]. done.
    + assert (Hm1 : merged_at a kids h1).
      { apply (for_each_sweep_merges fuel (children_values csr) h h1 IH Hwf);
          [exact (siblings_disjoint _ _ _ _ _ Hwf Hr Hcsr) | done | | done].
        apply desc_inv in Hd as [-> | (n' & cs' & c & Hn' & Hcs' & Hc & Hd)]; [done |].
        rewrite Hr in Hn'. injection Hn' as <-. rewrite Hcsr in Hcs'.
        injection Hcs' as <-. eauto. }
      destruct (can_merge h1 r (merge_threshold g)) as [[|]|]; simpl in Hm; [| | done].
      * destruct Hm1 as (n' & Hn' & Hl' & Hload').
        exists n'. split; [| done].
        unfold merge in Hm.
        destruct (h1 !! r) as [nr1|]; [| done]. simpl in Hm.
        destruct (children nr1); [| done]. simpl in Hm.
        destruct (deref_all h1 _); [| done]. simpl in Hm. injection Hm as <-.
        by rewrite !list_lookup_alter_ne.
      * by injection Hm as <-.
  - exfalso. assert (Hleaf : is_leaf nr = true) by (unfold is_leaf; by rewrite Hcsr).
    rewrite <- (desc_leaf _ _ _ _ Hr Hleaf Hd) in Hn.
    rewrite Hr in Hn. injection Hn as ->. congruence.
Qed.
End sweep_merges.

Lemma repeat_op_reachable g o k h0 h :
  repeat_op g o k h0 = Some h → reachable g h0 h.
Proof.
  revert h. induction k as [|k IH]; simpl; intros h.
  - intros [= <-]. apply rtc_refl.
  - destruct (repeat_op g o k h0) as [h1|]; [| done]. simpl. intros Hrun.
    eapply rtc_r; [by apply IH | by exists o].
Qed.

Lemma four_set_store_reachable :
  reachable low_split_grid.1 low_split_grid.2 four_set_store.
Proof.
  apply (repeat_op_reachable _ (OpSet (1 # 2) (1 # 2)) 4). reflexivity.
Qed.

Lemma b64_steps_ok : forallb b64_step_ok (seq 0 132) = true.
Proof. vm_compute. reflexivity. Qed.

Lemma b64_settled k : 132 ≤ k → b64_load_after k = S754_zero false.
Proof.
  intros Hk. unfold b64_load_after.
  replace k with ((k - 132) + 132) by lia. rewrite Nat.iter_add.
  assert (H132 : Nat.iter 132 (decay_leaf_b64 b64_0_9) (b64_of_Z 1) = S754_zero false)
    by (vm_compute; reflexivity).
  rewrite H132. induction (k - 132) as [|j IH]; [done |].
  simpl. rewrite IH. vm_compute. reflexivity.
Qed.

(** ** A light tree collapses in one sweep *)

Lemma fold_left_Qplus_proper (l1 l2 : list Q) (a1 a2 : Q) :
  (a1 == a2)%Q → Forall2 Qeq l1 l2 →
  (fold_left Qplus l1 a1 == fold_left Qplus l2 a2)%Q.
Proof.
  intros Ha Hl. revert a1 a2 Ha.
  induction Hl as [|x y l1 l2 Hxy _ IH]; intros a1 a2 Ha; simpl; [done |].
  apply IH. by rewrite Ha, Hxy.
Qed.

Lemma sum_proper (l1 l2 : list Q) : Forall2 Qeq l1 l2 → (sum l1 == sum l2)%Q.
Proof. apply fold_left_Qplus_proper. reflexivity. Qed.

Lemma fold_left_Qplus_ge (l : list Q) (a x : Q) :
  Forall (λ v, (0 <= v)%Q) l → (x <= a)%Q → (x <= fold_left Qplus l a)%Q.
Proof.
  intros Hl. revert a. induction Hl as [|v l Hv _ IH]; intros a Ha; simpl; [done |].
  apply IH. lra.
Qed.

Lemma fold_left_Qplus_elem (l : list Q) (a x : Q) :
  Forall (λ v, (0 <= v)%Q) l → (0 <= a)%Q → x ∈ l → (x <= fold_left Qplus l a)%Q.
Proof.
  intros Hl. revert a. induction Hl as [|v l Hv Hl IH]; intros a Ha Hx;
    [by apply elem_of_nil in Hx |].
  simpl. apply elem_of_cons in Hx as [-> | Hx].
  - apply fold_left_Qplus_ge; [done | lra].
  - apply IH; [lra | done].
Qed.

Lemma sum_ge_elem (l : list Q) (x : Q) :
  Forall (λ v, (0 <= v)%Q) l → x ∈ l → (x <= sum l)%Q.
Proof. intros Hl Hx. apply fold_left_Qplus_elem; [done | lra | done]. Qed.

Lemma subtree_load_nonneg ml fuel h r T :
  wf ml h → subtree_load fuel h r = Some T → (0 <= T)%Q.
Proof.
  intros Hwf. revert r T. induction fuel as [|fuel IH]; intros r T; simpl; [done |].
  destruct (h !! r) as [n|] eqn:Hn; [| done]. simpl.
  destruct (children n) as [cs|].
  - destruct (mapM (subtree_load fuel h) (children_values cs)) as [tots|] eqn:Hm; [| done].
    simpl. intros [= <-]. apply sum_nonneg, Forall_forall. intros t Ht.
    apply mapM_Some_1 in Hm. apply list_elem_of_lookup in Ht as [i Hi].
    destruct (Forall2_lookup_r _ _ _ _ _ Hm Hi) as (c & _ & Hc). by eapply IH.
  - intros [= <-]. apply (ok_load _ _ _ _ (Hwf _ _ Hn)).
Qed.

Lemma mapM_ext_in {A B} (f1 f2 : A → option B) (l : list A) :
  (∀ x, x ∈ l → f1 x = f2 x) → mapM f1 l = mapM f2 l.
Proof.
  induction l as [|x l IH]; intros Hf; [done |]. cbn [mapM].
  rewrite (Hf x), IH; [done | | apply list_elem_of_here].
  intros y Hy. apply Hf. by apply list_elem_of_further.
Qed.

(** [subtree_load] reads the subtree, nothing else. *)
Lemma subtree_load_agree fuel (h h1 : heap) r :
  (∀ x, desc h r x → h1 !! x = h !! x) →
  subtree_load fuel h1 r = subtree_load fuel h r.
Proof.
  revert r. induction fuel as [|fuel IH]; intros r Hag; [done |]. simpl.
  rewrite Hag by apply rtc_refl.
  destruct (h !! r) as [n|] eqn:Hn; [| done]. simpl.
  destruct (children n) as [cs|] eqn:Hcs; [| done].
  rewrite (mapM_ext_in (subtree_load fuel h1) (subtree_load fuel h)); [done |].
  intros c Hc. apply IH. intros x Hx. apply Hag. by eapply desc_child.
Qed.

Lemma collapsed_kids (h : heap) rs tots :
  Forall2 (collapsed h) rs tots →
  ∃ kids, deref_all h rs = Some kids
    ∧ Forall (λ k, is_leaf k = true) kids
    ∧ Forall2 Qeq (load <$> kids) tots.
Proof.
  induction 1 as [|r T rs tots (n & Hn & Hl & Hload) _ (kids & Hk & Hleaves & Hloads)].
  - exists []. by repeat split.
  - exists (n :: kids). unfold deref_all in *. cbn [mapM]. rewrite Hn. simpl.
    rewrite Hk. simpl. split; [done |]. split; [by constructor |].
    by constructor.
Qed.

Lemma for_each_collapse g fuel rs h h' tots :
  (∀ r h1 h2 T, wf (max_level g) h1 → subtree_load fuel h1 r = Some T →
     (T < merge_threshold g)%Q → _merge_repeatedly g fuel r h1 = Some h2 →
     collapsed h2 r T) →
  wf (max_level g) h → disjoint_below h rs →
  mapM (subtree_load fuel h) rs = Some tots →
  Forall (λ T, (T < merge_threshold g)%Q) tots →
  for_each (_merge_repeatedly g fuel) rs h = Some h' →
  Forall2 (collapsed h') rs tots.
Proof.
  intros Hbody. revert h tots. induction rs as [|c rs IH];
    intros h tots Hwf Hdisj Hm Hlt Hfe.
  - injection Hm as <-. constructor.
  - cbn [mapM] in Hm.
    destruct (subtree_load fuel h c) as [T|] eqn:HT; [| done]. simpl in Hm.
    destruct (mapM (subtree_load fuel h) rs) as [tots'|] eqn:Hm'; [| done].
    simpl in Hm. injection Hm as <-. apply Forall_cons in Hlt as [HltT Hlt'].
    cbn [for_each] in Hfe.
    destruct (_merge_repeatedly g fuel c h) as [h1|] eqn:Hmr; [| done]. simpl in Hfe.
    destruct (merge_repeatedly_maintains _ _ _ _ _ Hwf Hmr) as [Hwf1 Hs1].
    destruct (merge_repeatedly_effect _ _ _ _ _ Hwf Hmr) as [Hframe1 _].
    destruct (disjoint_below_cons _ _ _ Hdisj) as [Hdisj' Hsep].
    pose proof (disjoint_below_shrinks _ _ _ Hs1 Hdisj') as Hdisj1.
    destruct (for_each_sweep_effect g fuel rs h1 h'
                (λ r hx hy, merge_repeatedly_effect g fuel r hx hy)
                Hwf1 Hdisj1 Hfe) as [Hframe' _].
    constructor.
    + destruct (Hbody _ _ _ _ Hwf HT HltT Hmr) as (n & Hn & Hl & Hload).
      exists n. split; [| done]. rewrite Hframe'; [done |].
      intros (c' & Hc' & Hd'). apply (Hsep c' c Hc'); [apply rtc_refl |].
      by eapply desc_shrinks.
    + apply (IH h1 tots' Hwf1 Hdisj1); [| done | done].
      rewrite <- Hm'. apply mapM_ext_in. intros c' Hc'.
      apply subtree_load_agree. intros x Hx. apply Hframe1.
      intros Hcx. by apply (Hsep c' x Hc' Hcx).
Qed.

(** A subtree whose total load is below the merge threshold is collapsed
    into its root by one sweep. *)
Lemma merge_repeatedly_collapse g fuel r h h' T :
  wf (max_level g) h → subtree_load fuel h r = Some T →
  (T < merge_threshold g)%Q → _merge_repeatedly g fuel r h = Some h' →
  collapsed h' r T.
Proof.
  revert r h h' T. induction fuel as [|fuel IH]; intros r h h' T Hwf HT Hlt Hm; [done |].
  cbn [subtree_load] in HT. cbn [_merge_repeatedly] in Hm.
  destruct (h !! r) as [n|] eqn:Hn; [| done]. simpl in HT, Hm.
  destruct (children n) as [cs|] eqn:Hcs.
  - destruct (mapM (subtree_load fuel h) (children_values cs)) as [tots|] eqn:Hmap;
      [| done]. simpl in HT. injection HT as <-.
    destruct (for_each (_merge_repeatedly g fuel) (children_values cs) h)
      as [h1|] eqn:Hfe; [| done]. simpl in Hm.
    assert (Hnonneg : Forall (λ v, (0 <= v)%Q) tots).
    { apply Forall_forall. intros t Ht. apply mapM_Some_1 in Hmap.
      apply list_elem_of_lookup in Ht as [i Hi].
      destruct (Forall2_lookup_r _ _ _ _ _ Hmap Hi) as (c & _ & Hc).
      by eapply subtree_load_nonneg. }
    assert (Hlts : Forall (λ t, (t < merge_threshold g)%Q) tots).
    { apply Forall_forall. intros t Ht.
      pose proof (sum_ge_elem _ _ Hnonneg Ht). lra. }
    pose proof (siblings_disjoint _ _ _ _ _ Hwf Hn Hcs) as Hdisj.
    pose proof (for_each_collapse g fuel _ h h1 tots IH Hwf Hdisj Hmap Hlts Hfe) as Hcol.
    destruct (collapsed_kids _ _ _ Hcol) as (kids & Hk & Hleaves & Hloads).
    destruct (for_each_sweep_effect g fuel _ h h1
                (λ r hx hy, merge_repeatedly_effect g fuel r hx hy)
                Hwf Hdisj Hfe) as [Hframe _].
    assert (Hr1 : h1 !! r = Some n).
    { rewrite Hframe; [done |]. intros (c & Hc & Hd).
      by eapply not_desc_child_parent. }
    assert (Hsum : (sum (load <$> kids) == sum tots)%Q) by by apply sum_proper.
    rewrite (can_merge_true _ _ _ _ _ _ Hr1 Hcs Hk Hleaves) in Hm by (rewrite Hsum; done).
    simpl in Hm.
    destruct (merge_spec _ _ _ _ _ Hr1 Hcs Hk) as (h2 & Hm2 & _ & Hself & _).
    rewrite Hm2 in Hm. injection Hm as <-. eexists. split; [done |]. by split.
  - injection HT as <-. injection Hm as <-. exists n. split; [done |].
    split; [| reflexivity]. unfold is_leaf. by rewrite Hcs.
Qed.

Lemma subtree_load_is_Some ml fuel h r :
  wf ml h → is_Some (h !! r) → length h - r < fuel →
  is_Some (subtree_load fuel h r).
Proof.
  intros Hwf. revert r. induction fuel as [|fuel IH]; intros r [n Hn] Hfuel; [lia |].
  simpl. rewrite Hn. simpl. destruct (children n) as [cs|] eqn:Hcs; [| by eexists].
  destruct (ok_children _ _ _ _ (Hwf _ _ Hn) cs Hcs) as [_ Hq].
  destruct (mapM_is_Some_2 (subtree_load fuel h) (children_values cs)) as [tots ->];
    [| by eexists].
  apply Forall_forall. intros c Hc.
  destruct (quad_ok_valid _ _ _ _ _ Hq Hc) as (Hlt & nc & Hnc & _).
  pose proof (lookup_lt_Some _ _ _ Hnc). apply IH; [by eexists | lia].
Qed.

(** * Further lemmas *)

(** ** Cells of the tree *)

Lemma children_values_nth cs c :
  c ∈ children_values cs ↔ ∃ i, i < 4 ∧ c = quad_nth cs i.
Proof.
  destruct cs as [[[c0 c1] c2] c3]. simpl. rewrite !elem_of_cons, elem_of_nil. split.
  - intros [-> | [-> | [-> | [-> | []]]]];
      [exists 0 | exists 1 | exists 2 | exists 3]; split; (lia || done).
  - intros (i & Hi & ->). destruct i as [|[|[|[|i]]]]; simpl; auto; lia.
Qed.

Lemma quad_ok_nth h self n cs i :
  quad_ok h self n cs → i < 4 → child_ok h self n i (quad_nth cs i).
Proof.
  destruct cs as [[[c0 c1] c2] c3]. simpl. intros (_ & H0 & H1 & H2 & H3) Hi.
  destruct i as [|[|[|[|i]]]]; (done || lia).
Qed.

Lemma children_values_lookup cs i :
  i < 4 → children_values cs !! i = Some (quad_nth cs i).
Proof.
  destruct cs as [[[c0 c1] c2] c3]. intros Hi.
  destruct i as [|[|[|[|i]]]]; (done || lia).
Qed.

Lemma quad_nth_inj h self n cs i j :
  quad_ok h self n cs → i < 4 → j < 4 → quad_nth cs i = quad_nth cs j → i = j.
Proof.
  intros Hq Hi Hj Heq.
  assert (Hnd : NoDup (children_values cs)).
  { destruct cs as [[[c0 c1] c2] c3]. apply Hq. }
  eapply NoDup_lookup; [done | by apply children_values_lookup |].
  rewrite Heq. by apply children_values_lookup.
Qed.

Lemma mid_x_double n : (mid_x n * 2 == x_min n + x_max n)%Q.
Proof. unfold mid_x. field. Qed.

Lemma mid_y_double n : (mid_y n * 2 == y_min n + y_max n)%Q.
Proof. unfold mid_y. field. Qed.

(** A quadrant lies inside its parent: its points are points of the
    parent. *)
Lemma quadrant_inside n c i x y :
  bounds c = quadrant_bounds n i → contains c x y = true → contains n x y = true.
Proof.
  intros Hb Hc. apply contains_spec in Hc. apply contains_spec.
  pose proof (mid_x_double n) as Hmx. pose proof (mid_y_double n) as Hmy.
  unfold bounds in Hb.
  destruct i as [|[|[|i]]]; simpl in Hb; injection Hb as Hx Hy Hx' Hy';
    rewrite Hx, Hy, Hx', Hy' in Hc;
    revert Hc Hmx Hmy; generalize (mid_x n) (mid_y n); intros mx my Hc Hmx Hmy; lra.
Qed.

(** Two different quadrants of a node share no point. *)
Lemma quadrants_apart n c c' i j x y :
  i < 4 → j < 4 →
  bounds c = quadrant_bounds n i → bounds c' = quadrant_bounds n j →
  contains c x y = true → contains c' x y = true → i = j.
Proof.
  intros Hi Hj Hb Hb' Hc Hc'. apply contains_spec in Hc, Hc'.
  unfold bounds in Hb, Hb'.
  destruct i as [|[|[|[|i]]]]; [| | | | lia];
    destruct j as [|[|[|[|j]]]]; try lia; try done;
    simpl in Hb, Hb'; injection Hb as Hx Hy Hx' Hy'; injection Hb' as Hu Hv Hu' Hv';
    rewrite Hx, Hy, Hx', Hy' in Hc; rewrite Hu, Hv, Hu', Hv' in Hc';
    revert Hc Hc'; generalize (mid_x n) (mid_y n); intros mx my Hc Hc'; lra.
Qed.

Lemma child_of_nth ml h a c :
  wf ml h → child_of h a c →
  ∃ na cs i nc, h !! a = Some na ∧ children na = Some cs ∧ i < 4
    ∧ c = quad_nth cs i ∧ quad_ok h a na cs ∧ h !! c = Some nc
    ∧ level nc = (level na + 1)%Z ∧ bounds nc = quadrant_bounds na i
    ∧ parent nc = Some a.
Proof.
  intros Hwf (na & cs & Hna & Hcs & Hin).
  destruct (ok_children _ _ _ _ (Hwf _ _ Hna) cs Hcs) as [_ Hq].
  apply children_values_nth in Hin as (i & Hi & ->).
  destruct (quad_ok_nth _ _ _ _ _ Hq Hi) as (_ & nc & Hnc & Hp & Hl & Hb).
  exists na, cs, i, nc. repeat split; done.
Qed.

(** Going up from a node that contains a point, every ancestor contains
    it. *)
Lemma desc_contains_up ml h a d na nd x y :
  wf ml h → desc h a d → h !! a = Some na → h !! d = Some nd →
  contains nd x y = true → contains na x y = true.
Proof.
  intros Hwf Hd. revert na. induction Hd as [a | a c d Hc _ IH]; intros na Ha Hnd Hcont.
  - rewrite Ha in Hnd. by injection Hnd as <-.
  - destruct (child_of_nth _ _ _ _ Hwf Hc)
      as (na' & cs & i & nc & Ha' & _ & _ & _ & _ & Hnc & _ & Hb & _).
    rewrite Ha in Ha'. injection Ha' as <-.
    eapply quadrant_inside; [exact Hb |]. by eapply IH.
Qed.

(** Below one node, at most one leaf contains a given point. *)
Lemma leaf_containing_unique ml h a l1 l2 n1 n2 x y :
  wf ml h → desc h a l1 → desc h a l2 →
  h !! l1 = Some n1 → h !! l2 = Some n2 →
  is_leaf n1 = true → is_leaf n2 = true →
  contains n1 x y = true → contains n2 x y = true → l1 = l2.
Proof.
  intros Hwf Hd1. revert l2 n2.
  induction Hd1 as [a | a c1 l1 Hc1 Hd1 IH]; intros l2 n2 Hd2 Hn1 Hn2 Hl1 Hl2 Hp1 Hp2.
  - by eapply desc_leaf.
  - apply desc_inv in Hd2 as [<- | (na & cs & c2 & Ha & Hcs & Hin2 & Hd2)].
    { destruct Hc1 as (na & cs & Ha & Hcs & _). rewrite Ha in Hn2.
      injection Hn2 as <-. unfold is_leaf in Hl2. by rewrite Hcs in Hl2. }
    assert (Hc2 : child_of h a c2) by (by exists na, cs).
    destruct (child_of_nth _ _ _ _ Hwf Hc1)
      as (na1 & cs1 & i & nc1 & Ha1 & Hcs1 & Hi & -> & Hq & Hnc1 & _ & Hb1 & _).
    destruct (child_of_nth _ _ _ _ Hwf Hc2)
      as (na2 & cs2 & j & nc2 & Ha2 & Hcs2 & Hj & -> & _ & Hnc2 & _ & Hb2 & _).
    rewrite Ha in Ha1, Ha2. injection Ha1 as <-. injection Ha2 as <-.
    rewrite Hcs in Hcs1, Hcs2. injection Hcs1 as <-. injection Hcs2 as <-.
    assert (i = j) as <-.
    { eapply (quadrants_apart na nc1 nc2 i j x y); try done.
      - by eapply (desc_contains_up _ _ _ _ _ _ _ _ Hwf Hd1).
      - by eapply (desc_contains_up _ _ _ _ _ _ _ _ Hwf Hd2). }
    by eapply IH.
Qed.

Lemma half_power (l : Z) :
  (0 <= l)%Z → ((1 # 2) ^ (l + 1) == (1 # 2) ^ l * (1 # 2))%Q.
Proof.
  intros Hl. rewrite Qpower_plus by discriminate. reflexivity.
Qed.

(** A quadrant of a good cell is a good cell, one level down. *)
Lemma quadrant_cell_ok n c i :
  cell_ok n → bounds c = quadrant_bounds n i → level c = (level n + 1)%Z →
  cell_ok c.
Proof.
  intros (Hl & Hw & Hh & Hx0 & Hx1 & Hy0 & Hy1) Hb Hlc.
  pose proof (mid_x_double n) as Hmx. pose proof (mid_y_double n) as Hmy.
  assert (Hpos : (0 < (1 # 2) ^ level n)%Q) by (apply Qpower_0_lt; reflexivity).
  unfold cell_ok. rewrite Hlc, (half_power _ Hl).
  unfold bounds in Hb.
  destruct i as [|[|[|i]]]; simpl in Hb; injection Hb as -> -> -> ->;
    revert Hmx Hmy Hw Hh Hpos; generalize (mid_x n) (mid_y n) ((1 # 2) ^ level n)%Q;
    intros mx my s Hmx Hmy Hw Hh Hpos;
    (split; [lia |]); repeat split; lra.
Qed.

Lemma unit_root_extends g h h' : extends h h' → unit_root g h → unit_root g h'.
Proof.
  intros He (n & Hn & Hb & Hl). destruct (He _ _ Hn) as (n' & Hn' & Hb' & Hl' & _).
  exists n'. by rewrite Hb', Hl'.
Qed.

Lemma reachable_fresh_unit_root ml st mt df di h :
  reachable (fresh ml st mt df di).1 (fresh ml st mt df di).2 h →
  unit_root (fresh ml st mt df di).1 h.
Proof.
  intros Hr.
  destruct (reachable_grid_ok _ _ _ (fresh_grid_ok ml st mt df di) Hr) as [_ He].
  apply (unit_root_extends _ _ _ He). by eexists.
Qed.

Lemma tree_cell_ok g h r n :
  grid_ok g h → unit_root g h → in_tree g h r → h !! r = Some n → cell_ok n.
Proof.
  intros (Hwf & _) (nroot & Hroot & Hb & Hl) Ht. revert n. revert r Ht.
  apply (rtc_ind_r (λ r, ∀ n, h !! r = Some n → cell_ok n)).
  - intros n Hn. rewrite Hroot in Hn. injection Hn as <-.
    unfold bounds in Hb. injection Hb as Hx Hy Hx' Hy'.
    unfold cell_ok. rewrite Hl, Hx, Hy, Hx', Hy'. simpl.
    repeat split; (lia || lra || reflexivity || discriminate).
  - intros p d _ Hc IH n Hn.
    destruct (child_of_nth _ _ _ _ Hwf Hc)
      as (np & cs & i & nc & Hp & _ & _ & _ & _ & Hnc & Hlc & Hbc & _).
    rewrite Hn in Hnc. injection Hnc as <-.
    eapply quadrant_cell_ok; [by apply IH | done | done].
Qed.

(** ** The leaves are listed once each *)

Lemma mapM_concat_elem {A B} (f : A → option (list B)) rs parts x :
  mapM f rs = Some parts → x ∈ concat parts →
  ∃ c l, c ∈ rs ∧ f c = Some l ∧ x ∈ l.
Proof.
  revert parts. induction rs as [|c rs IH]; intros parts Hm Hx.
  - injection Hm as <-. by apply elem_of_nil in Hx.
  - cbn [mapM] in Hm. destruct (f c) as [l|] eqn:Hc; [| done]. simpl in Hm.
    destruct (mapM f rs) as [parts'|]; [| done]. simpl in Hm. injection Hm as <-.
    simpl in Hx. apply elem_of_app in Hx as [Hx | Hx].
    + exists c, l. split; [apply list_elem_of_here | done].
    + destruct (IH parts' eq_refl Hx) as (c' & l' & Hc' & Hf & Hx').
      exists c', l'. split; [by apply list_elem_of_further | done].
Qed.

(** Whatever the fuel, what [gather] returns are leaves at or below the
    start node. *)
Lemma gather_sound fuel (h : heap) a ls r :
  gather fuel h a = Some ls → r ∈ ls →
  desc h a r ∧ ∃ n, h !! r = Some n ∧ is_leaf n = true.
Proof.
  revert a ls. induction fuel as [|fuel IH]; intros a ls; simpl; [done |].
  destruct (h !! a) as [n|] eqn:Hn; [| done]. simpl.
  destruct (children n) as [cs|] eqn:Hcs.
  - destruct (mapM (gather fuel h) (children_values cs)) as [parts|] eqn:Hm; [| done].
    simpl. intros [= <-] Hr.
    destruct (mapM_concat_elem _ _ _ _ Hm Hr) as (c & l & Hc & Hg & Hrl).
    destruct (IH _ _ Hg Hrl) as [Hd Hleaf]. split; [| done].
    by eapply desc_child.
  - intros [= <-] Hr. apply list_elem_of_singleton in Hr as ->.
    split; [apply rtc_refl |]. exists n. split; [done |].
    unfold is_leaf. by rewrite Hcs.
Qed.

Lemma mapM_gather_NoDup fuel (h : heap) rs parts :
  disjoint_below h rs →
  (∀ c l, c ∈ rs → gather fuel h c = Some l → NoDup l) →
  mapM (gather fuel h) rs = Some parts → NoDup (concat parts).
Proof.
  revert parts. induction rs as [|c rs IH]; intros parts Hdisj Hnd Hm.
  - injection Hm as <-. apply NoDup_nil_2.
  - cbn [mapM] in Hm. destruct (gather fuel h c) as [l|] eqn:Hc; [| done].
    simpl in Hm. destruct (mapM (gather fuel h) rs) as [parts'|] eqn:Hm'; [| done].
    simpl in Hm. injection Hm as <-. simpl.
    destruct (disjoint_below_cons _ _ _ Hdisj) as [Hdisj' Hsep].
    apply NoDup_app. split; [| split].
    + apply (Hnd c); [apply list_elem_of_here | done].
    + intros x Hx Hx'.
      destruct (mapM_concat_elem _ _ _ _ Hm' Hx') as (c' & l' & Hc' & Hg' & Hxl').
      apply (Hsep c' x Hc').
      * by apply (gather_sound _ _ _ _ _ Hc Hx).
      * by apply (gather_sound _ _ _ _ _ Hg' Hxl').
    + apply IH; [done | | done].
      intros c' l' Hc'. apply Hnd. by apply list_elem_of_further.
Qed.

Lemma gather_NoDup ml fuel h a ls :
  wf ml h → gather fuel h a = Some ls → NoDup ls.
Proof.
  intros Hwf. revert a ls. induction fuel as [|fuel IH]; intros a ls; simpl; [done |].
  destruct (h !! a) as [n|] eqn:Hn; [| done]. simpl.
  destruct (children n) as [cs|] eqn:Hcs;
    [| intros [= <-]; apply NoDup_singleton].
  destruct (mapM (gather fuel h) (children_values cs)) as [parts|] eqn:Hm; [| done].
  simpl. intros [= <-].
  eapply mapM_gather_NoDup; [by eapply siblings_disjoint | | done].
  intros c l _. apply IH.
Qed.

Lemma reachable_root_parent g h0 h n0 :
  grid_ok g h0 → h0 !! root g = Some n0 → reachable g h0 h →
  ∃ n, h !! root g = Some n ∧ parent n = parent n0.
Proof.
  intros Hok Hn0 Hr. destruct (reachable_grid_ok _ _ _ Hok Hr) as [_ He].
  destruct (He _ _ Hn0) as (n & Hn & _ & _ & Hp). by exists n.
Qed.

Lemma desc_antisym ml h a b : wf ml h → desc h a b → desc h b a → a = b.
Proof.
  intros Hwf H1 H2. pose proof (desc_le _ _ _ _ Hwf H1).
  pose proof (desc_le _ _ _ _ Hwf H2). lia.
Qed.

(** ** Sweeps that change nothing *)

Lemma for_each_noop body cs (h : heap) :
  (∀ c, c ∈ cs → body c h = Some h) → for_each body cs h = Some h.
Proof.
  induction cs as [|c cs IH]; intros Hb; [done |]. cbn [for_each].
  rewrite Hb by apply list_elem_of_here. simpl.
  apply IH. intros c' Hc'. apply Hb. by apply list_elem_of_further.
Qed.

(** Where no node can merge, a sweep leaves the store as it is. *)
Lemma merge_repeatedly_noop g fuel a h :
  wf (max_level g) h → is_Some (h !! a) → length h - a < fuel →
  (∀ r, desc h a r → can_merge h r (merge_threshold g) = Some false) →
  _merge_repeatedly g fuel a h = Some h.
Proof.
  intros Hwf. revert a. induction fuel as [|fuel IH]; intros a [n Hn] Hfuel Hno; [lia |].
  cbn [_merge_repeatedly]. rewrite Hn. simpl.
  destruct (children n) as [cs|] eqn:Hcs; [| done].
  destruct (ok_children _ _ _ _ (Hwf _ _ Hn) cs Hcs) as [_ Hq].
  rewrite for_each_noop.
  - simpl. rewrite (Hno a) by apply rtc_refl. done.
  - intros c Hc. destruct (quad_ok_valid _ _ _ _ _ Hq Hc) as (Hlt & nc & Hnc & _).
    pose proof (lookup_lt_Some _ _ _ Hnc). apply IH; [by eexists | lia |].
    intros r Hr. apply Hno. by eapply desc_child.
Qed.

Lemma can_merge_nonpositive ml h r mt :
  wf ml h → is_Some (h !! r) → (mt <= 0)%Q → can_merge h r mt = Some false.
Proof.
  intros Hwf [n Hn] Hmt. unfold can_merge. rewrite Hn. simpl.
  destruct (children n) as [cs|] eqn:Hcs; [| done].
  destruct (ok_children _ _ _ _ (Hwf _ _ Hn) cs Hcs) as [_ Hq].
  destruct (quad_ok_deref _ _ _ _ Hq) as [kids Hk]. rewrite Hk. simpl.
  destruct (existsb _ kids); [done |]. f_equal. apply Qltb_ge.
  pose proof (wf_kids_nonneg _ _ _ _ Hwf Hk). lra.
Qed.

Lemma four_set_store_reachable_zero :
  reachable zero_merge_grid.1 zero_merge_grid.2 four_set_store.
Proof.
  apply (repeat_op_reachable _ (OpSet (1 # 2) (1 # 2)) 4). reflexivity.
Qed.

(** ** No load strictly between 0 and 1e-6 *)

Lemma eps_pos : (0 < eps)%Q.
Proof. reflexivity. Qed.

Lemma gapped_clamp (v : Q) : gapped (if Qltb v eps then 0 else v)%Q.
Proof.
  destruct (Qltb v eps) eqn:Hv; [by left |]. right. by apply Qltb_ge.
Qed.

Lemma gapped_fold (l : list Q) (a : Q) :
  Forall (λ v, (0 <= v)%Q) l → (0 <= a)%Q → gapped a → Forall gapped l →
  gapped (fold_left Qplus l a).
Proof.
  intros Hnn. revert a. induction Hnn as [|v l Hv _ IH]; intros a Ha Hga Hg; [done |].
  apply Forall_cons in Hg as [Hgv Hg]. simpl. apply IH; [lra | | done].
  destruct Hga as [Ha0 | Hae]; destruct Hgv as [Hv0 | Hve].
  - left. lra.
  - right. lra.
  - right. lra.
  - right. lra.
Qed.

Lemma gapped_sum (l : list Q) :
  Forall (λ v, (0 <= v)%Q) l → Forall gapped l → gapped (sum l).
Proof. intros Hnn Hg. apply gapped_fold; [done | lra | by left | done]. Qed.

Lemma gap_ok_set_load v r h : gap_ok h → gapped v → gap_ok (alter (set_load v) r h).
Proof.
  intros Hg Hv r' n' Hn'. destruct (decide (r = r')) as [<- | Hne].
  - rewrite list_lookup_alter_eq in Hn'. destruct (h !! r); [| done].
    by injection Hn' as <-.
  - rewrite list_lookup_alter_ne in Hn' by done. by eapply Hg.
Qed.

Lemma gap_ok_merge ml self h h' :
  wf ml h → gap_ok h → merge self h = Some h' → gap_ok h'.
Proof.
  intros Hwf Hg Hm. unfold merge in Hm.
  destruct (h !! self) as [n|] eqn:Hn; [| done]. simpl in Hm.
  destruct (children n) as [cs|] eqn:Hcs; [| done]. simpl in Hm.
  destruct (deref_all h (children_values cs)) as [kids|] eqn:Hk; [| done].
  simpl in Hm. injection Hm as <-.
  apply gap_ok_set_load.
  - intros r' n' Hn'. destruct (decide (self = r')) as [<- | Hne].
    + rewrite list_lookup_alter_eq, Hn in Hn'. injection Hn' as <-.
      simpl. exact (Hg _ _ Hn).
    + rewrite list_lookup_alter_ne in Hn' by done. by eapply Hg.
  - apply gapped_sum; apply Forall_fmap, Forall_forall; intros k Hin;
      destruct (deref_all_lookup _ _ _ _ Hk Hin) as (r & _ & Hr); simpl.
    + apply (ok_load _ _ _ _ (Hwf _ _ Hr)).
    + by eapply Hg.
Qed.

Lemma gap_ok_subdivide self h h' n :
  gap_ok h → h !! self = Some n → (1 <= load n)%Q →
  subdivide self h = Some h' → gap_ok h'.
Proof.
  intros Hg Hn Hload Hs.
  destruct (subdivide_spec _ _ _ Hn) as (h2 & Hs2 & Hlen & Hself & Hother & Hnew).
  rewrite Hs2 in Hs. injection Hs as <-.
  pose proof (lookup_lt_Some _ _ _ Hn) as Hlt.
  intros r' n' Hr'.
  destruct (decide (r' = self)) as [-> | Hne];
    [| destruct (decide (r' < length h)) as [Hold | Hge]].
  - rewrite Hself in Hr'. injection Hr' as <-. by left.
  - rewrite Hother in Hr' by done. by eapply Hg.
  - pose proof (lookup_lt_Some _ _ _ Hr') as Hlt'.
    assert (Hi4 : ∃ i, i < 4 ∧ r' = length h + i) by (exists (r' - length h); lia).
    destruct Hi4 as (i & Hi4 & ->). rewrite Hnew in Hr' by done. injection Hr' as <-.
    rewrite new_child_load. right. unfold eps.
    apply Qle_shift_div_l; [reflexivity |].
    assert ((1 # 1000000) * 4 <= 1)%Q by discriminate. lra.
Qed.

Lemma gap_ok_decay df fuel a h h' :
  gap_ok h → decay df fuel a h = Some h' → gap_ok h'.
Proof.
  revert a h h'. induction fuel as [|fuel IH]; intros a h h' Hg; simpl; [done |].
  destruct (h !! a) as [n|]; [| done]. simpl.
  destruct (children n) as [cs|].
  - apply (for_each_inv gap_ok); [| done]. intros c h1 h2 _. apply IH.
  - intros [= <-]. apply gap_ok_set_load; [done | apply gapped_clamp].
Qed.

Lemma gap_ok_merge_repeatedly g fuel a h h' :
  wf (max_level g) h → gap_ok h → _merge_repeatedly g fuel a h = Some h' →
  gap_ok h'.
Proof.
  revert a h h'. induction fuel as [|fuel IH]; intros a h h' Hwf Hg; simpl; [done |].
  destruct (h !! a) as [n|]; [| done]. simpl.
  destruct (children n) as [cs|]; [| by intros [= <-]].
  destruct (for_each (_merge_repeatedly g fuel) (children_values cs) h)
    as [h1|] eqn:Hfe; [| done]. simpl.
  assert (H1 : wf (max_level g) h1 ∧ gap_ok h1).
  { revert Hfe. apply (for_each_inv (λ hx, wf (max_level g) hx ∧ gap_ok hx)); [| done].
    intros c h2 h3 _ [Hwf2 Hg2] Hm. split.
    - by destruct (merge_repeatedly_maintains _ _ _ _ _ Hwf2 Hm).
    - by eapply IH. }
  destruct H1 as [Hwf1 Hg1].
  destruct (can_merge h1 a (merge_threshold g)) as [[|]|]; simpl; [| | done].
  - by apply (gap_ok_merge _ _ _ _ Hwf1 Hg1).
  - by intros [= <-].
Qed.

Lemma gap_ok_run g o h h' :
  grid_ok g h → gap_ok h → run g o h = Some h' → gap_ok h'.
Proof.
  intros Hok Hg. destruct o as [x y | x y | | df |]; simpl.
  - destruct (validate_coord_cases x) as [[_ Hx] | [_ Hx]];
      [destruct (validate_coord_cases y) as [[_ Hy] | [_ Hy]] |].
    + destruct (get_returns _ _ _ _ Hok Hx Hy) as (leaf & nl & _ & Hl & _ & _ & _ & ->).
      simpl. intros [= <-]. apply gap_ok_set_load; [done |]. right.
      pose proof (ok_load _ _ _ _ (proj1 Hok _ _ Hl)). pose proof eps_pos.
      unfold eps in *. assert ((1 # 1000000) <= 1)%Q by discriminate. lra.
    + rewrite get_raises by tauto. simpl. by intros [= <-].
    + rewrite get_raises by tauto. simpl. by intros [= <-].
  - destruct (validate_coord_cases x) as [[_ Hx] | [_ Hx]];
      [destruct (validate_coord_cases y) as [[_ Hy] | [_ Hy]] |].
    + destruct (set_returns _ _ _ _ Hok Hx Hy)
        as (leaf & nl & h2 & _ & Hl & Hleaf & _ & Hre & ->).
      simpl. intros [= <-].
      pose proof (ok_load _ _ _ _ (proj1 Hok _ _ Hl)) as Hnn.
      assert (Hg1 : gap_ok (alter (set_load (load nl + 1)%Q) leaf h)).
      { apply gap_ok_set_load; [done |]. right. unfold eps.
        assert ((1 # 1000000) <= 1)%Q by discriminate. lra. }
      assert (Hl1 : alter (set_load (load nl + 1)%Q) leaf h !! leaf
                    = Some (set_load (load nl + 1)%Q nl))
        by (by rewrite list_lookup_alter_eq, Hl).
      destruct (rebalance_cases g _ _ _ Hl1) as [[_ Heq] | [_ Heq]]; rewrite Heq in Hre.
      * eapply gap_ok_subdivide; [done | done | simpl; lra | done].
      * by injection Hre as <-.
    + rewrite set_raises by tauto. simpl. by intros [= <-].
    + rewrite set_raises by tauto. simpl. by intros [= <-].
  - unfold periodic_rebalance. apply gap_ok_merge_repeatedly; [apply Hok | done].
  - unfold decay_load. by apply gap_ok_decay.
  - destruct (get_leaves g h); simpl; [| done]. by intros [= <-].
Qed.

Lemma gap_ok_reachable g h0 h :
  grid_ok g h0 → gap_ok h0 → reachable g h0 h → gap_ok h.
Proof.
  intros Hok Hg Hr. induction Hr as [h | h1 h2 h3 [o Ho] _ IH]; [done |].
  apply IH.
  - by destruct (run_grid_ok _ _ _ _ Hok Ho).
  - by eapply gap_ok_run.
Qed.

(** ** The total load, a bound on the loads of the leaves *)

Lemma fold_left_Qplus_acc (l : list Q) (a : Q) :
  (fold_left Qplus l a == a + sum l)%Q.
Proof.
  unfold sum. revert a. induction l as [|x l IH]; intros a; simpl; [lra |].
  rewrite (IH (a + x)%Q), (IH (0 + x)%Q). lra.
Qed.

Lemma sum_cons (x : Q) (l : list Q) : (sum (x :: l) == x + sum l)%Q.
Proof. unfold sum at 1. simpl. rewrite fold_left_Qplus_acc. lra. Qed.

Lemma sum_app (l1 l2 : list Q) : (sum (l1 ++ l2) == sum l1 + sum l2)%Q.
Proof.
  induction l1 as [|x l1 IH]; simpl.
  - unfold sum at 2. simpl. lra.
  - rewrite !sum_cons, IH. lra.
Qed.

Lemma mapM_rel {A B} (R : B → B → Prop) (f f' : A → option B) l tots :
  mapM f l = Some tots →
  (∀ x t, x ∈ l → f x = Some t → ∃ t', f' x = Some t' ∧ R t' t) →
  ∃ tots', mapM f' l = Some tots' ∧ Forall2 R tots' tots.
Proof.
  revert tots. induction l as [|x l IH]; intros tots Hm Hf.
  - injection Hm as <-. exists []. by split.
  - cbn [mapM] in Hm. destruct (f x) as [t|] eqn:Hx; [| done]. simpl in Hm.
    destruct (mapM f l) as [ts|] eqn:Hl; [| done]. simpl in Hm. injection Hm as <-.
    destruct (Hf x t (list_elem_of_here _ _) Hx) as (t' & Hx' & Ht').
    destruct (IH ts eq_refl) as (ts' & Hl' & Hts').
    { intros y u Hy. apply Hf. by apply list_elem_of_further. }
    exists (t' :: ts'). cbn [mapM]. rewrite Hx'. simpl. rewrite Hl'. simpl.
    split; [done | by constructor].
Qed.

Lemma subtree_load_internal fuel (h : heap) r n cs :
  h !! r = Some n → children n = Some cs →
  subtree_load (S fuel) h r
  = (tots ← mapM (subtree_load fuel h) (children_values cs); Some (sum tots)).
Proof. intros Hn Hcs. cbn [subtree_load]. rewrite Hn. simpl. by rewrite Hcs. Qed.

(** The loads of the gathered leaves add up to the nested total. *)
Lemma gather_total fuel (h : heap) r ls kids T :
  gather fuel h r = Some ls → deref_all h ls = Some kids →
  subtree_load fuel h r = Some T → (sum (load <$> kids) == T)%Q.
Proof.
  revert r ls kids T. induction fuel as [|fuel IH]; intros r ls kids T; [done |].
  cbn [gather subtree_load]. destruct (h !! r) as [n|] eqn:Hn; [| done]. simpl.
  destruct (children n) as [cs|].
  - generalize (children_values cs). intros rs.
    destruct (mapM (gather fuel h) rs) as [parts|] eqn:Hp; [| done]. simpl.
    destruct (mapM (subtree_load fuel h) rs) as [tots|] eqn:Ht; [| done]. simpl.
    intros [= <-] Hk [= <-]. revert parts tots kids Hp Ht Hk.
    induction rs as [|c rs IHrs]; intros parts tots kids Hp Ht Hk.
    + injection Hp as <-. injection Ht as <-. simpl in Hk. by injection Hk as <-.
    + cbn [mapM] in Hp, Ht.
      destruct (gather fuel h c) as [l|] eqn:Hl; [| done]. simpl in Hp.
      destruct (mapM (gather fuel h) rs) as [ps|] eqn:Hps; [| done]. simpl in Hp.
      injection Hp as <-.
      destruct (subtree_load fuel h c) as [t|] eqn:Htc; [| done]. simpl in Ht.
      destruct (mapM (subtree_load fuel h) rs) as [ts|] eqn:Hts; [| done]. simpl in Ht.
      injection Ht as <-. simpl in Hk. unfold deref_all in Hk.
      apply mapM_Some in Hk. apply Forall2_app_inv_l in Hk as (k1 & k2 & H1 & H2 & ->).
      apply mapM_Some in H1, H2. rewrite fmap_app, sum_app, sum_cons.
      rewrite (IH c l k1 t Hl H1 Htc), (IHrs ps ts k2 eq_refl eq_refl H2). reflexivity.
  - intros [= <-] Hk [= <-]. simpl in Hk. rewrite Hn in Hk. simpl in Hk.
    injection Hk as <-. simpl. unfold sum. simpl. lra.
Qed.

(** On a well-formed grid the total exists and is the nested total of the
    root. *)
Lemma total_load_subtree g h :
  grid_ok g h →
  ∃ T T0, total_load g h = Some T
    ∧ subtree_load (S (length h)) h (root g) = Some T0
    ∧ (T == T0)%Q ∧ (0 <= T)%Q.
Proof.
  intros [Hwf (nr & Hr & _)]. pose proof (lookup_lt_Some _ _ _ Hr) as Hlt.
  destruct (gather_spec _ (S (length h)) h (root g) Hwf) as (ls & Hg & Hls);
    [by eexists | lia |].
  destruct (subtree_load_is_Some _ (S (length h)) h (root g) Hwf) as [T0 HT0];
    [by eexists | lia |].
  destruct (mapM_is_Some_2 (λ r, h !! r) ls) as [kids Hk].
  { apply Forall_forall. intros r Hin. apply Hls in Hin as (_ & n & Hn & _). by exists n. }
  exists (sum (load <$> kids)), T0. unfold total_load, get_leaves. rewrite Hg. simpl.
  unfold deref_all. rewrite Hk. simpl. split; [done |]. split; [done |].
  pose proof (gather_total _ _ _ _ _ _ Hg Hk HT0) as Heq. split; [done |].
  rewrite Heq. by eapply subtree_load_nonneg.
Qed.

Lemma sum_scaled_le (df : Q) (l' l : list Q) :
  Forall2 (λ t' t, (t' <= df * t)%Q) l' l → (sum l' <= df * sum l)%Q.
Proof.
  induction 1 as [|t' t l' l Ht _ IH].
  - unfold sum. simpl. lra.
  - rewrite !sum_cons. lra.
Qed.

(** One decay multiplies the total by at most the factor. *)
Lemma decay_effect_total ml df (h h' : heap) a :
  wf ml h → (0 <= df)%Q → decay_effect df h a h' →
  ∀ fuel r T, desc h a r → subtree_load fuel h r = Some T →
    ∃ T', subtree_load fuel h' r = Some T' ∧ (T' <= df * T)%Q.
Proof.
  intros Hwf Hdf [_ Heff]. induction fuel as [|fuel IH]; intros r T Hd HT; [done |].
  cbn [subtree_load] in HT. destruct (h !! r) as [n|] eqn:Hn; [| done]. simpl in HT.
  destruct (Heff _ _ Hn) as [Hleaf Hint].
  destruct (children n) as [cs|] eqn:Hcs.
  - destruct (mapM (subtree_load fuel h) (children_values cs)) as [tots|] eqn:Hm; [| done].
    simpl in HT. injection HT as <-.
    destruct (mapM_rel (λ t' t, (t' <= df * t)%Q) _ (subtree_load fuel h') _ _ Hm)
      as (tots' & Hm' & Hle).
    { intros c t Hc Ht. apply IH; [| done]. eapply rtc_r; [done |].
      by exists n, cs. }
    exists (sum tots'). split; [| by apply sum_scaled_le].
    rewrite (subtree_load_internal _ _ _ n cs), Hm'; [done | | done].
    apply Hint. right. unfold is_leaf. by rewrite Hcs.
  - injection HT as <-.
    assert (Hl : is_leaf n = true) by (unfold is_leaf; by rewrite Hcs).
    pose proof (ok_load _ _ _ _ (Hwf _ _ Hn)) as Hnn.
    eexists. split.
    + cbn [subtree_load]. rewrite (Hleaf Hd Hl). simpl. by rewrite Hcs.
    + simpl. destruct (Qltb (load n * df) eps); [nra | lra].
Qed.

Lemma total_load_decay_load g df h h' T :
  grid_ok g h → (0 <= df)%Q → decay_load g df h = Some h' →
  total_load g h = Some T →
  ∃ T', total_load g h' = Some T' ∧ (0 <= T')%Q ∧ (T' <= df * T)%Q.
Proof.
  intros Hok Hdf Hp HT.
  destruct (run_grid_ok g (OpDecayLoad df) _ _ Hok Hp) as [Hok' _].
  destruct (total_load_subtree _ _ Hok) as (T1 & T0 & HT1 & HT0 & Heq & _).
  rewrite HT in HT1. injection HT1 as <-.
  destruct (total_load_subtree _ _ Hok') as (T' & T0' & HT' & HT0' & Heq' & Hnn').
  destruct Hok as [Hwf (nr & Hr & _)]. pose proof (lookup_lt_Some _ _ _ Hr) as Hlt.
  destruct (decay_spec _ df (S (length h)) (root g) h Hwf) as (h2 & Hd & Heff);
    [by eexists | lia |].
  unfold decay_load in Hp. rewrite Hp in Hd. injection Hd as <-.
  destruct (decay_effect_total _ _ _ _ _ Hwf Hdf Heff _ _ _ (rtc_refl _ _) HT0)
    as (T2 & HT2 & Hle).
  rewrite (proj1 Heff), HT2 in HT0'. injection HT0' as <-.
  exists T'. split; [done |]. split; [done |]. rewrite Heq', Heq. done.
Qed.

(** ** A split undone by a merge *)

Lemma subdivide_kids self (h h' : heap) n :
  h !! self = Some n → subdivide self h = Some h' →
  deref_all h' (children_values (new_quad h))
  = Some [new_child self n 0; new_child self n 1; new_child self n 2; new_child self n 3].
Proof.
  intros Hn Hs.
  destruct (subdivide_spec _ _ _ Hn) as (h2 & Hs2 & _ & _ & _ & Hnew).
  rewrite Hs2 in Hs. injection Hs as <-.
  pose proof (Hnew 0 ltac:(lia)) as H0. rewrite Nat.add_0_r in H0.
  pose proof (Hnew 1 ltac:(lia)) as H1. rewrite Nat.add_1_r in H1.
  pose proof (Hnew 2 ltac:(lia)) as H2.
  replace (length h + 2) with (S (S (length h))) in H2 by lia.
  pose proof (Hnew 3 ltac:(lia)) as H3.
  replace (length h + 3) with (S (S (S (length h)))) in H3 by lia.
  unfold deref_all, new_quad. cbn [children_values mapM].
  rewrite H0, H1, H2, H3. done.
Qed.

(** ** Counting the leaves *)

Lemma mapM_concat_length {A B} (f : A → option (list B)) rs parts (b : nat) :
  mapM f rs = Some parts →
  (∀ c l, c ∈ rs → f c = Some l → 1 ≤ length l ≤ b) →
  length rs ≤ length (concat parts) ≤ length rs * b.
Proof.
  revert parts. induction rs as [|c rs IH]; intros parts Hm Hb.
  - injection Hm as <-. simpl. lia.
  - cbn [mapM] in Hm. destruct (f c) as [l|] eqn:Hc; [| done]. simpl in Hm.
    destruct (mapM f rs) as [ps|] eqn:Hps; [| done]. simpl in Hm. injection Hm as <-.
    simpl. rewrite length_app.
    pose proof (Hb c l (list_elem_of_here _ _) Hc).
    assert (length rs ≤ length (concat ps) ≤ length rs * b); [| lia].
    apply IH; [done |]. intros c' l' Hc'. apply Hb. by apply list_elem_of_further.
Qed.

Lemma gather_length ml fuel h r n ls :
  wf ml h → h !! r = Some n → gather fuel h r = Some ls →
  1 ≤ length ls ∧ (Z.of_nat (length ls) <= 4 ^ (Z.max 0 ml - level n))%Z.
Proof.
  intros Hwf. revert r n ls. induction fuel as [|fuel IH]; intros r n ls Hn Hg; [done |].
  cbn [gather] in Hg. rewrite Hn in Hg. simpl in Hg.
  pose proof (ok_level _ _ _ _ (Hwf _ _ Hn)) as Hlv.
  destruct (children n) as [cs|] eqn:Hcs.
  - destruct (mapM (gather fuel h) (children_values cs)) as [parts|] eqn:Hp; [| done].
    simpl in Hg. injection Hg as <-.
    destruct (ok_children _ _ _ _ (Hwf _ _ Hn) cs Hcs) as [Hlt Hq].
    set (e := (Z.max 0 ml - (level n + 1))%Z).
    assert (He : (0 <= e)%Z) by (unfold e; lia).
    destruct (mapM_concat_length _ _ _ (Z.to_nat (4 ^ e)) Hp) as [Hlo Hhi].
    { intros c l Hc Hl.
      destruct (quad_ok_valid _ _ _ _ _ Hq Hc) as (_ & nc & Hnc & _ & Hlc).
      destruct (IH c nc l Hnc Hl) as [H1 H2]. rewrite Hlc in H2. fold e in H2.
      split; [done | lia]. }
    assert (H4 : length (children_values cs) = 4) by (by destruct cs as [[[? ?] ?] ?]).
    rewrite H4 in Hlo, Hhi. split; [lia |].
    replace (Z.max 0 ml - level n)%Z with (Z.succ e) by (unfold e; lia).
    rewrite Z.pow_succ_r by done.
    assert (0 <= 4 ^ e)%Z by (apply Z.pow_nonneg; lia). lia.
  - injection Hg as <-. simpl. split; [lia |].
    assert (0 < 4 ^ (Z.max 0 ml - level n))%Z by (apply Z.pow_pos_nonneg; lia). lia.
Qed.

(** ** Nodes that a sweep leaves alone *)

(** Whatever every guarded [merge] preserves, the sweep preserves. *)
Lemma merge_repeatedly_inv (P : heap → Prop) g :
  (∀ m h1 h2, P h1 → can_merge h1 m (merge_threshold g) = Some true →
     merge m h1 = Some h2 → P h2) →
  ∀ fuel r h h', P h → _merge_repeatedly g fuel r h = Some h' → P h'.
Proof.
  intros Hstep. induction fuel as [|fuel IH]; intros r h h' HP Hm; [done |].
  cbn [_merge_repeatedly] in Hm. destruct (h !! r) as [n|]; [| done]. simpl in Hm.
  destruct (children n) as [cs|]; [| by injection Hm as <-].
  destruct (for_each (_merge_repeatedly g fuel) (children_values cs) h)
    as [h1|] eqn:Hfe; [| done]. simpl in Hm.
  assert (HP1 : P h1).
  { revert Hfe. apply for_each_inv; [| done]. intros c hx hy _. apply IH. }
  destruct (can_merge h1 r (merge_threshold g)) as [[|]|] eqn:Hcm; simpl in Hm; [| | done].
  - by eapply Hstep.
  - by injection Hm as <-.
Qed.

Lemma deref_all_elem (h : heap) rs kids c :
  deref_all h rs = Some kids → c ∈ rs → ∃ k, h !! c = Some k ∧ k ∈ kids.
Proof.
  unfold deref_all. intros Hk Hc. apply mapM_Some in Hk.
  apply list_elem_of_lookup in Hc as [i Hi].
  destruct (Forall2_lookup_l _ _ _ _ _ Hk Hi) as (k & Hki & Hk').
  exists k. split; [done |]. by eapply list_elem_of_lookup_2.
Qed.

(** A node whose children are leaves holding at least the threshold
    survives every guarded merge, and so do its children. *)
Lemma heavy_survives_merge mt (h1 h2 : heap) a n cs kids m :
  h1 !! a = Some n → children n = Some cs →
  deref_all h1 (children_values cs) = Some kids →
  Forall (λ k, is_leaf k = true) kids → (mt <= sum (load <$> kids))%Q →
  can_merge h1 m mt = Some true → merge m h1 = Some h2 →
  h2 !! a = Some n ∧ deref_all h2 (children_values cs) = Some kids.
Proof.
  intros Ha Hcs Hk Hleaves Hsum Hcm Hm.
  assert (Hma : m ≠ a).
  { intros ->. rewrite (can_merge_unfold _ _ _ _ _ _ Ha Hcs Hk) in Hcm.
    apply existsb_internal_false in Hleaves. rewrite Hleaves in Hcm.
    injection Hcm as Hlt. apply Qltb_lt in Hlt. lra. }
  assert (Hmc : m ∉ children_values cs).
  { intros Hin. destruct (deref_all_elem _ _ _ _ Hk Hin) as (k & Hmk & Hkin).
    rewrite Forall_forall in Hleaves.
    rewrite (can_merge_leaf _ _ _ _ Hmk (Hleaves _ Hkin)) in Hcm. done. }
  unfold merge in Hm. destruct (h1 !! m) as [nm|] eqn:Hnm; [| done]. simpl in Hm.
  destruct (children nm) as [csm|] eqn:Hcsm; [| done]. simpl in Hm.
  destruct (deref_all h1 (children_values csm)) as [kidsm|] eqn:Hkm; [| done].
  simpl in Hm. injection Hm as <-. split.
  - by rewrite !list_lookup_alter_ne.
  - rewrite <- Hk. unfold deref_all. apply mapM_ext_in. intros c Hc.
    rewrite !list_lookup_alter_ne; [done | by intros -> ..].
Qed.

(** ** Calls with a moderate decay factor *)

Lemma reachable_moderate_reachable g h0 h :
  reachable_moderate g h0 h → reachable g h0 h.
Proof.
  intros Hr. induction Hr as [h | h1 h2 h3 (o & _ & Ho) _ IH]; [apply rtc_refl |].
  eapply rtc_l; [by exists o | done].
Qed.

Lemma four_set_store_moderate :
  reachable_moderate low_split_grid.1 low_split_grid.2 four_set_store.
Proof.
  unfold reachable_moderate.
  do 4 (eapply rtc_l;
        [exists (OpSet (1 # 2) (1 # 2)); split; [exact I | vm_compute; reflexivity] |]).
  apply rtc_refl.
Qed.

(** ** An idle grid drains *)

Lemma leaf_load_le_total g h r n T :
  grid_ok g h → in_tree g h r → h !! r = Some n → is_leaf n = true →
  total_load g h = Some T → (load n <= T)%Q.
Proof.
  intros Hok Ht Hn Hleaf HT. unfold total_load in HT.
  destruct (get_leaves g h) as [ls|] eqn:Hls; [| done]. simpl in HT.
  destruct (deref_all h ls) as [kids|] eqn:Hk; [| done]. simpl in HT. injection HT as <-.
  destruct (gather_spec _ (S (length h)) h (root g) (proj1 Hok)) as (ls' & Hg & Hin).
  { eapply in_tree_valid; [done | apply rtc_refl]. }
  { destruct Hok as [_ (nr & Hr & _)]. pose proof (lookup_lt_Some _ _ _ Hr). lia. }
  unfold get_leaves in Hls. rewrite Hls in Hg. injection Hg as <-.
  assert (Hleaf_in : r ∈ ls) by (apply Hin; split; [done | by exists n]).
  apply sum_ge_elem.
  - apply Forall_fmap, Forall_forall. intros k Hkin.
    destruct (deref_all_lookup _ _ _ _ Hk Hkin) as (r' & _ & Hr'). simpl.
    apply (ok_load _ _ _ _ (proj1 Hok _ _ Hr')).
  - apply list_elem_of_fmap. exists n. split; [done |].
    destruct (deref_all_elem _ _ _ _ Hk Hleaf_in) as (k & Hk' & Hkin).
    rewrite Hn in Hk'. by injection Hk' as <-.
Qed.

Lemma turns_decay_repeat g k h :
  turns (LoadDecayThread_run_turn g) k h
  = repeat_op g (OpDecayLoad (decay_factor g)) k h.
Proof. induction k as [|k IH]; [done |]. simpl. by rewrite IH. Qed.

(** After [k] decays by a factor [d] in [0, 1] the total is at most the
    initial total divided by [1 + k (1 - d)]. *)
Lemma turns_decay_total g h T0 k :
  grid_ok g h → (0 <= decay_factor g)%Q → (decay_factor g <= 1)%Q →
  total_load g h = Some T0 →
  ∃ h' T, turns (LoadDecayThread_run_turn g) k h = Some h'
    ∧ grid_ok g h' ∧ total_load g h' = Some T
    ∧ (0 <= T)%Q ∧ (T <= T0)%Q
    ∧ (T * (1 + inject_Z (Z.of_nat k) * (1 - decay_factor g)) <= T0)%Q.
Proof.
  intros Hok Hd0 Hd1 HT0.
  destruct (total_load_subtree _ _ Hok) as (T0' & _ & HT0' & _ & _ & Hnn0).
  rewrite HT0 in HT0'. injection HT0' as <-.
  induction k as [|k (h1 & T1 & Ht & Hok1 & HT1 & Hnn1 & Hle1 & Hb1)].
  - exists h, T0. cbn [turns]. split; [done |]. split; [done |]. split; [done |].
    split; [done |]. split; [lra |]. change (inject_Z (Z.of_nat 0)) with 0%Q. lra.
  - destruct (run_is_Some _ (OpDecayLoad (decay_factor g)) _ Hok1) as [h2 Hp].
    destruct (total_load_decay_load _ _ _ _ _ Hok1 Hd0 Hp HT1) as (T2 & HT2 & Hnn2 & Hle2).
    destruct (run_grid_ok _ _ _ _ Hok1 Hp) as [Hok2 _].
    exists h2, T2. cbn [turns]. rewrite Ht. simpl.
    split; [done |]. split; [done |]. split; [done |]. split; [done |].
    split; [nra |].
    rewrite Nat2Z.inj_succ. unfold Z.succ. rewrite inject_Z_plus.
    change (inject_Z 1) with 1%Q.
    set (kq := inject_Z (Z.of_nat k)) in *. set (d := decay_factor g) in *.
    assert (Hk : (0 <= kq)%Q).
    { unfold kq. rewrite <- (Zle_Qle 0). lia. }
    assert (HX : (0 <= (kq + 1) * (1 - d))%Q) by (apply Qmult_le_0_compat; lra).
    assert (H1 : (T2 * (1 + (kq + 1) * (1 - d))
                  <= d * T1 * (1 + (kq + 1) * (1 - d)))%Q)
      by (apply Qmult_le_compat_r; lra).
    assert (H2 : (d * T1 * (1 + (kq + 1) * (1 - d))
                  == d * (T1 * (1 + kq * (1 - d))) + (1 - d) * (d * T1))%Q) by ring.
    assert (H3 : (d * (T1 * (1 + kq * (1 - d))) <= d * T0)%Q).
    { rewrite !(Qmult_comm d). apply Qmult_le_compat_r; [done | lra]. }
    assert (H5 : (d * T1 <= T0)%Q).
    { apply Qle_trans with (1 * T1)%Q; [| lra].
      apply Qmult_le_compat_r; [lra | done]. }
    assert (H4 : ((1 - d) * (d * T1) <= (1 - d) * T0)%Q).
    { rewrite !(Qmult_comm (1 - d)). apply Qmult_le_compat_r; [done | lra]. }
    lra.
Qed.

Lemma sum_zero (l : list Q) : Forall (λ v, (v == 0)%Q) l → (sum l == 0)%Q.
Proof.
  induction 1 as [|v l Hv _ IH]; [reflexivity |]. rewrite sum_cons, Hv, IH. lra.
Qed.

(** With a total below [1e-6] every node of the tree holds nothing. *)
Lemma small_total_zero g h T :
  grid_ok g h → gap_ok h → total_load g h = Some T → (T < eps)%Q →
  (∀ r n, in_tree g h r → h !! r = Some n → (load n == 0)%Q) ∧ (T == 0)%Q.
Proof.
  intros Hok Hgap HT Hlt.
  assert (Hall : ∀ r n, in_tree g h r → h !! r = Some n → (load n == 0)%Q).
  { intros r n Ht Hn. destruct (is_leaf n) eqn:Hleaf.
    - pose proof (leaf_load_le_total _ _ _ _ _ Hok Ht Hn Hleaf HT) as Hle.
      destruct (Hgap _ _ Hn) as [H0 | He]; [done | lra].
    - by rewrite (ok_internal_load _ _ _ _ (proj1 Hok _ _ Hn) Hleaf). }
  split; [done |]. unfold total_load in HT.
  destruct (get_leaves g h) as [ls|] eqn:Hls; [| done]. simpl in HT.
  destruct (deref_all h ls) as [kids|] eqn:Hk; [| done]. simpl in HT. injection HT as <-.
  apply sum_zero, Forall_fmap, Forall_forall. intros k Hkin. simpl.
  destruct (deref_all_lookup _ _ _ _ Hk Hkin) as (r & Hr & Hrk).
  apply (Hall r k); [| done].
  unfold get_leaves in Hls. by destruct (gather_sound _ _ _ _ _ Hls Hr).
Qed.

(** A grid that holds nothing collapses into its root in one sweep. *)
Lemma empty_grid_collapses g h T :
  grid_ok g h → total_load g h = Some T → (T == 0)%Q → (0 < merge_threshold g)%Q →
  ∃ h' n, periodic_rebalance g h = Some h' ∧ h' !! root g = Some n
    ∧ is_leaf n = true ∧ (load n == 0)%Q.
Proof.
  intros Hok HT HT0 Hmt.
  destruct (total_load_subtree _ _ Hok) as (T1 & T0 & HT1 & HTs & Heq & _).
  rewrite HT in HT1. injection HT1 as <-.
  destruct (run_is_Some _ OpPeriodicRebalance _ Hok) as [h' Hp].
  destruct (merge_repeatedly_collapse _ _ _ _ _ _ (proj1 Hok) HTs ltac:(lra) Hp)
    as (n & Hn & Hleaf & Hload).
  exists h', n. repeat split; try done. lra.
Qed.

Lemma drain_turns_enough (T0 d T : Q) (k : nat) :
  (d < 1)%Q → drain_turns T0 d ≤ k → (0 <= T)%Q →
  (T * (1 + inject_Z (Z.of_nat k) * (1 - d)) <= T0)%Q → (T < eps)%Q.
Proof.
  intros Hd Hk Hnn Hb. set (kq := inject_Z (Z.of_nat k)) in *.
  set (c := (T0 / (eps * (1 - d)))%Q).
  assert (Hc : (c <= kq)%Q).
  { apply Qle_trans with (inject_Z (Qceiling c)); [apply Qle_ceiling |].
    unfold kq. rewrite <- Zle_Qle. unfold drain_turns in Hk. fold c in Hk. lia. }
  assert (HT0 : (T0 == c * (eps * (1 - d)))%Q).
  { unfold c. field. unfold eps. split; [lra | discriminate]. }
  pose proof eps_pos as He.
  assert (Hpos : (0 < eps * (1 - d))%Q) by (apply Qmult_lt_0_compat; lra).
  assert (H1 : (c * (eps * (1 - d)) <= kq * (eps * (1 - d)))%Q)
    by (apply Qmult_le_compat_r; lra).
  assert (H2 : (eps * (1 + kq * (1 - d)) == eps + kq * (eps * (1 - d)))%Q) by ring.
  assert (Hk0 : (0 <= kq)%Q).
  { unfold kq. rewrite <- (Zle_Qle 0). lia. }
  assert (HX : (0 <= kq * (1 - d))%Q) by (apply Qmult_le_0_compat; lra).
  destruct (Qlt_le_dec T eps) as [Hlt | Hge]; [done |].
  assert (H3 : (eps * (1 + kq * (1 - d)) <= T * (1 + kq * (1 - d)))%Q)
    by (apply Qmult_le_compat_r; lra).
  lra.
Qed.

Lemma fresh_gap_ok ml st mt df di : gap_ok (fresh ml st mt df di).2.
Proof.
  intros r n Hn. destruct r as [|r]; [| done]. injection Hn as <-. by left.
Qed.

Lemma reachable_fresh_gap_ok ml st mt df di h :
  reachable (fresh ml st mt df di).1 (fresh ml st mt df di).2 h → gap_ok h.
Proof.
  apply gap_ok_reachable; [apply fresh_grid_ok | apply fresh_gap_ok].
Qed.

Lemma idle_drains g h :
  grid_ok g h → gap_ok h → (0 <= decay_factor g)%Q → (decay_factor g < 1)%Q →
  ∃ K, ∀ k, K ≤ k →
    ∃ h', turns (LoadDecayThread_run_turn g) k h = Some h'
      ∧ grid_ok g h' ∧ gap_ok h'
      ∧ (∀ r n, in_tree g h' r → h' !! r = Some n → (load n == 0)%Q)
      ∧ ((0 < merge_threshold g)%Q →
         ∃ h'' n, GlobalAdaptiveController_run_turn g h' = Some h''
           ∧ h'' !! root g = Some n ∧ is_leaf n = true ∧ (load n == 0)%Q).
Proof.
  intros Hok Hgap Hd0 Hd1.
  destruct (total_load_subtree _ _ Hok) as (T0 & _ & HT0 & _ & _ & Hnn0).
  exists (drain_turns T0 (decay_factor g)). intros k Hk.
  destruct (turns_decay_total g h T0 k Hok Hd0 ltac:(lra) HT0)
    as (h' & T & Ht & Hok' & HT & Hnn & _ & Hb).
  assert (Hgap' : gap_ok h').
  { apply (gap_ok_reachable g h h' Hok Hgap).
    rewrite turns_decay_repeat in Ht. by eapply repeat_op_reachable. }
  pose proof (drain_turns_enough _ _ _ _ Hd1 Hk Hnn Hb) as Hlt.
  destruct (small_total_zero _ _ _ Hok' Hgap' HT Hlt) as [Hall HTz].
  exists h'. split; [done |]. split; [done |]. split; [done |]. split; [done |].
  intros Hmt. by apply (empty_grid_collapses g h' T).
Qed.

(** ** The running program *)

Lemma grid_ok_same g g' h :
  root g' = root g → max_level g' = max_level g → grid_ok g h → grid_ok g' h.
Proof. unfold grid_ok. by intros -> ->. Qed.

Lemma sample_in_unit x : sample x → in_unit x.
Proof.
  intros [H1 H2]. split.
  - apply Qle_trans with (45 # 100)%Q; [discriminate | done].
  - apply Qle_lt_trans with (55 # 100)%Q; [done | reflexivity].
Qed.

Lemma main_program_ok : program_ok main_program.
Proof.
  split; [apply fresh_grid_ok |]. split; [apply fresh_gap_ok |].
  split; [done |]. split; [done |]. by eexists.
Qed.

Lemma act_ok a p p' : program_ok p → act a p = Some p' → program_ok p'.
Proof.
  intros (Hok & Hgap & Hroot & Hml & Hunit) Ha.
  assert (Hrun : ∀ o h, run (prog_grid p) o (prog_store p) = Some h →
            program_ok (mkProgram (prog_grid p) h (prog_decay_arg p))
            ∧ program_ok (mkProgram (prog_grid p) h None)).
  { intros o h Ho. destruct (run_grid_ok _ _ _ _ Hok Ho) as [Hok' He].
    pose proof (gap_ok_run _ _ _ _ Hok Hgap Ho) as Hgap'.
    pose proof (unit_root_extends _ _ _ He Hunit) as Hunit'.
    by split. }
  assert (Hsame : ∀ g, root g = root (prog_grid p) →
            max_level g = max_level (prog_grid p) →
            program_ok (mkProgram g (prog_store p) (prog_decay_arg p))).
  { intros g Hr Hm. split; [by eapply grid_ok_same; [| | exact Hok] |].
    split; [done |]. simpl. rewrite Hr, Hm. split; [done |]. split; [done |].
    unfold unit_root. rewrite Hr. exact Hunit. }
  destruct a as [x y | | | | val | val | val | val |]; simpl in Ha.
  - destruct (set (prog_grid p) x y (prog_store p)) as [r|] eqn:Hs; [| done].
    injection Ha as <-. apply (Hrun (OpSet x y)). simpl. by rewrite Hs.
  - injection Ha as <-. by apply (Hsame (prog_grid p)).
  - destruct (prog_decay_arg p) as [d|]; [| done]. simpl in Ha.
    destruct (decay_load (prog_grid p) d (prog_store p)) as [h|] eqn:Hd; [| done].
    injection Ha as <-. by apply (Hrun (OpDecayLoad d)).
  - destruct (periodic_rebalance (prog_grid p) (prog_store p)) as [h|] eqn:Hd; [| done].
    injection Ha as <-. by apply (Hrun OpPeriodicRebalance).
  - injection Ha as <-. by apply Hsame.
  - injection Ha as <-. by apply Hsame.
  - injection Ha as <-. by apply Hsame.
  - injection Ha as <-. by apply Hsame.
  - destruct (get_leaves (prog_grid p) (prog_store p)); [| done]. injection Ha as <-.
    by destruct p.
Qed.

Lemma running_ok p : running p → program_ok p.
Proof.
  intros Hr. unfold running in Hr.
  apply (rtc_ind_r (R := prog_step) (λ q, program_ok q) main_program);
    [apply main_program_ok | | done].
  intros q q' _ (a & _ & Ha) Hq. by eapply act_ok.
Qed.

Lemma act_is_Some a p :
  program_ok p → (a = call_decay_load → is_Some (prog_decay_arg p)) →
  is_Some (act a p).
Proof.
  intros (Hok & _) Harg.
  destruct a as [x y | | | | val | val | val | val |]; simpl; try by eexists.
  - destruct (run_is_Some _ (OpSet x y) _ Hok) as [h Hh]. simpl in Hh.
    destruct (set (prog_grid p) x y (prog_store p)); [by eexists | done].
  - destruct (Harg eq_refl) as [d ->]. simpl.
    destruct (run_is_Some _ (OpDecayLoad d) _ Hok) as [h Hh]. simpl in Hh.
    rewrite Hh. by eexists.
  - destruct (run_is_Some _ OpPeriodicRebalance _ Hok) as [h Hh]. simpl in Hh.
    rewrite Hh. by eexists.
  - destruct (run_is_Some _ OpGetLeaves _ Hok) as [h Hh]. simpl in Hh.
    destruct (get_leaves (prog_grid p) (prog_store p)); [by eexists | done].
Qed.

Lemma running_act a p p' : running p → allowed a → act a p = Some p' → running p'.
Proof. intros Hr Hal Ha. eapply rtc_r; [exact Hr |]. by exists a. Qed.

Lemma acts_is_Some l p :
  running p → well_sequenced l → ∃ p', acts l p = Some p' ∧ running p'.
Proof.
  intros Hr Hl. revert p Hr. induction Hl as [| l _ IH | a l Hne Hal _ IH]; intros p Hr.
  - by exists p.
  - cbn [acts act]. simpl.
    set (p1 := mkProgram (prog_grid p) (prog_store p) (Some (decay_factor (prog_grid p)))).
    assert (Hr1 : running p1) by (by apply (running_act read_decay_factor p)).
    destruct (act_is_Some call_decay_load p1 (running_ok _ Hr1)) as [p2 Hp2];
      [by eexists |].
    simpl in Hp2. rewrite Hp2. simpl. apply IH.
    by apply (running_act call_decay_load p1).
  - destruct (act_is_Some a p (running_ok _ Hr)) as [p1 Hp1]; [done |].
    cbn [acts]. rewrite Hp1. simpl. apply IH. by eapply running_act.
Qed.

Lemma well_sequenced_app l1 l2 :
  well_sequenced l1 → well_sequenced l2 → well_sequenced (l1 ++ l2).
Proof.
  induction 1; intros H2; simpl; [done | |].
  - constructor. by apply IHwell_sequenced.
  - constructor; [done | done |]. by apply IHwell_sequenced.
Qed.

Lemma LoadDecayThread_run_ws k : well_sequenced (LoadDecayThread_run k).
Proof.
  unfold LoadDecayThread_run. induction k as [|k IH]; simpl; [constructor |].
  by constructor.
Qed.

Lemma GlobalAdaptiveController_run_ws k :
  well_sequenced (GlobalAdaptiveController_run k).
Proof.
  unfold GlobalAdaptiveController_run. induction k as [|k IH]; simpl; [constructor |].
  by apply ws_other.
Qed.

Lemma worker_loop_ws samples :
  Forall (λ xy, sample xy.1 ∧ sample xy.2) samples →
  well_sequenced (worker_loop samples).
Proof.
  unfold worker_loop. induction 1 as [|xy l Hxy _ IH]; simpl; [constructor |].
  by apply ws_other.
Qed.

Lemma busy_program_running : running busy_program.
Proof.
  unfold running.
  eapply rtc_l; [exists (assign_split_threshold (37 # 10)); split; [exact I | reflexivity] |].
  do 4 (eapply rtc_l;
        [exists (worker_set (1 # 2) (1 # 2)); split;
         [repeat split; discriminate | vm_compute; reflexivity] |]).
  apply rtc_refl.
Qed.

(** ** Grids on any rectangle *)

Lemma merge_repeatedly_shrinks g fuel a h h' :
  _merge_repeatedly g fuel a h = Some h' → shrinks h h'.
Proof.
  revert a h h'. induction fuel as [|fuel IH]; intros a h h'; simpl; [done |].
  destruct (h !! a) as [n|]; [| done]. simpl.
  destruct (children n) as [cs|]; [| intros [= <-]; apply shrinks_refl].
  destruct (for_each (_merge_repeatedly g fuel) (children_values cs) h)
    as [h1|] eqn:Hfe; [| done]. simpl.
  assert (H1 : shrinks h h1).
  { revert Hfe. apply (for_each_inv (shrinks h)); [| apply shrinks_refl].
    intros c hx hy _ Hx Hm. eapply shrinks_trans; [exact Hx | by eapply IH]. }
  destruct (can_merge h1 a (merge_threshold g)) as [[|]|]; simpl; [| | done].
  - intros Hm. eapply shrinks_trans; [exact H1 | by eapply shrinks_merge].
  - by intros [= <-].
Qed.

Lemma shaped_shrinks h h' : shrinks h h' → shaped h → shaped h'.
Proof.
  intros Hs Hsh r n' cs Hn' Hcs. pose proof Hs as [Hlen Hs'].
  pose proof (lookup_lt_Some _ _ _ Hn') as Hlt. rewrite Hlen in Hlt.
  destruct (lookup_lt_is_Some_2 _ _ Hlt) as [n Hn].
  destruct (Hs' _ _ Hn) as (n'' & Hn'' & Hg & Hc).
  rewrite Hn' in Hn''. injection Hn'' as <-.
  assert (Hcs0 : children n = Some cs) by (destruct Hc as [<- | Hc]; congruence).
  eapply quad_ok_extends; [by apply shrinks_extends | exact Hg | by eapply Hsh].
Qed.

Lemma shaped_subdivide self h h' :
  shaped h → subdivide self h = Some h' → shaped h'.
Proof.
  intros Hsh Hs. pose proof (subdivide_extends _ _ _ Hs) as He.
  destruct (h !! self) as [n|] eqn:Hn;
    [| by unfold subdivide in Hs; rewrite Hn in Hs].
  destruct (subdivide_spec _ _ _ Hn) as (h2 & Hs2 & Hlen & Hself & Hother & Hnew).
  rewrite Hs2 in Hs. injection Hs as <-.
  pose proof (lookup_lt_Some _ _ _ Hn) as Hlt.
  intros r' n' cs' Hr' Hcs'.
  destruct (decide (r' = self)) as [-> | Hne];
    [| destruct (decide (r' < length h)) as [Hold | Hge]].
  - rewrite Hself in Hr'. injection Hr' as <-. simpl in Hcs'. injection Hcs' as <-.
    unfold new_quad, quad_ok. split.
    { repeat (apply NoDup_cons; split; [rewrite ?elem_of_cons, elem_of_nil; lia |]).
      apply NoDup_nil_2. }
    assert (Hch : ∀ i, i < 4 →
      child_ok h2 self (set_load 0%Q (set_children (Some (new_quad h)) n)) i
        (length h + i)).
    { intros i Hi'. split; [lia |]. exists (new_child self n i).
      split; [by apply Hnew |].
      rewrite new_child_parent, new_child_level, new_child_bounds. done. }
    pose proof (Hch 0 ltac:(lia)) as H0. pose proof (Hch 1 ltac:(lia)) as H1.
    pose proof (Hch 2 ltac:(lia)) as H2. pose proof (Hch 3 ltac:(lia)) as H3.
    replace (length h + 0) with (length h) in H0 by lia.
    replace (length h + 1) with (S (length h)) in H1 by lia.
    replace (length h + 2) with (S (S (length h))) in H2 by lia.
    replace (length h + 3) with (S (S (S (length h)))) in H3 by lia.
    exact (conj H0 (conj H1 (conj H2 H3))).
  - rewrite Hother in Hr' by done.
    eapply quad_ok_extends; [done | apply same_geometry_refl | by eapply Hsh].
  - pose proof (lookup_lt_Some _ _ _ Hr') as Hlt'.
    assert (Hi4 : ∃ i, i < 4 ∧ r' = length h + i) by (exists (r' - length h); lia).
    destruct Hi4 as (i & Hi4 & ->). rewrite Hnew in Hr' by done. injection Hr' as <-.
    by rewrite new_child_children in Hcs'.
Qed.

(** Whatever the rectangle of the grid and wherever the load lands, a call
    keeps the shape of the store and the geometry of its objects. *)
Lemma run_shaped g o h h' :
  run g o h = Some h' → shaped h → shaped h' ∧ extends h h'.
Proof.
  intros Hrun Hsh.
  assert (Hshr : ∀ hx, shrinks h hx → shaped hx ∧ extends h hx).
  { intros hx Hx. split; [by eapply shaped_shrinks | by apply shrinks_extends]. }
  destruct o as [x y | x y | | df |]; simpl in Hrun.
  - unfold get in Hrun.
    destruct (validate_coord x);
      [| injection Hrun as <-; apply Hshr, shrinks_refl].
    destruct (validate_coord y);
      [| injection Hrun as <-; apply Hshr, shrinks_refl].
    destruct (_find_leaf h (root g) a a0) as [leaf|]; [| done]. simpl in Hrun.
    destruct (h !! leaf) as [n|] eqn:Hn; [| done]. simpl in Hrun.
    rewrite list_lookup_alter_eq, Hn in Hrun. simpl in Hrun. injection Hrun as <-.
    apply Hshr, shrinks_set_load.
  - unfold set in Hrun.
    destruct (validate_coord x);
      [| injection Hrun as <-; apply Hshr, shrinks_refl].
    destruct (validate_coord y);
      [| injection Hrun as <-; apply Hshr, shrinks_refl].
    destruct (_find_leaf h (root g) a a0) as [leaf|]; [| done]. simpl in Hrun.
    destruct (h !! leaf) as [n|] eqn:Hn; [| done]. simpl in Hrun.
    set (h1 := alter (set_load (load n + 1)%Q) leaf h) in *.
    destruct (Hshr h1 (shrinks_set_load _ _ _)) as [Hsh1 He1].
    assert (Hl1 : h1 !! leaf = Some (set_load (load n + 1)%Q n))
      by (unfold h1; by rewrite list_lookup_alter_eq, Hn).
    destruct (_rebalance g leaf h1) as [h2|] eqn:Hre; [| done].
    simpl in Hrun. injection Hrun as <-.
    destruct (rebalance_cases g _ _ _ Hl1) as [[_ Heq] | [_ Heq]]; rewrite Heq in Hre.
    + split; [by eapply shaped_subdivide |].
      eapply extends_trans; [exact He1 | by eapply subdivide_extends].
    + by injection Hre as <-.
  - apply Hshr. by eapply merge_repeatedly_shrinks.
  - apply Hshr, load_variant_shrinks. by eapply decay_load_variant.
  - destruct (get_leaves g h); [| done]. injection Hrun as <-. apply Hshr, shrinks_refl.
Qed.

Lemma reachable_shaped g h0 h :
  shaped h0 → reachable g h0 h → shaped h ∧ extends h0 h.
Proof.
  intros Hsh Hr. induction Hr as [h | h1 h2 h3 [o Ho] _ IH].
  - split; [done | apply extends_refl].
  - destruct (run_shaped _ _ _ _ Ho Hsh) as [Hsh2 He2].
    destruct (IH Hsh2) as [Hsh3 He3]. split; [done |]. by eapply extends_trans.
Qed.

(** In every store of a grid built on any rectangle the root is the
    rectangle given to the constructor, and the store has its shape. *)
Lemma reachable_built xmin ymin xmax ymax ml st mt df di h :
  reachable (built xmin ymin xmax ymax ml st mt df di).1
    (built xmin ymin xmax ymax ml st mt df di).2 h →
  shaped h
  ∧ ∃ n, h !! root (built xmin ymin xmax ymax ml st mt df di).1 = Some n
      ∧ bounds n = (xmin, ymin, xmax, ymax) ∧ level n = 0%Z.
Proof.
  intros Hr.
  assert (Hsh0 : shaped (built xmin ymin xmax ymax ml st mt df di).2).
  { intros r n cs Hn Hcs. destruct r as [|r]; [| done]. injection Hn as <-. done. }
  destruct (reachable_shaped _ _ _ Hsh0 Hr) as [Hsh He].
  split; [done |].
  destruct (He 0 (Node_init xmin ymin xmax ymax 0 None) eq_refl)
    as (n & Hn & Hb & Hl & _).
  exists n. by rewrite Hb, Hl.
Qed.

(** ** Points outside the root *)

Lemma scan_children_outside (h : heap) self n cs x y :
  quad_ok h self n cs → contains n x y = false →
  scan_children h (children_values cs) x y = Some None.
Proof.
  intros Hq Hc.
  assert (Hall : ∀ c, c ∈ children_values cs →
            ∃ nc, h !! c = Some nc ∧ contains nc x y = false).
  { intros c Hin. apply children_values_nth in Hin as (i & Hi & ->).
    destruct (quad_ok_nth _ _ _ _ _ Hq Hi) as (_ & nc & Hnc & _ & _ & Hb).
    exists nc. split; [done |]. destruct (contains nc x y) eqn:Hcc; [| done].
    by rewrite (quadrant_inside _ _ _ _ _ Hb Hcc) in Hc. }
  induction (children_values cs) as [|c l IH]; [done |]. simpl.
  destruct (Hall c (list_elem_of_here _ _)) as (nc & Hnc & Hcc).
  rewrite Hnc. simpl. rewrite Hcc.
  apply IH. intros c' Hc'. apply Hall. by apply list_elem_of_further.
Qed.

(** A descent that starts at a node which does not contain the point
    stops there: no child contains the point either. *)
Lemma find_leaf_outside (h : heap) node n x y :
  shaped h → h !! node = Some n → contains n x y = false →
  _find_leaf h node x y = Some node.
Proof.
  intros Hsh Hn Hc. unfold _find_leaf. cbn [find_leaf_loop]. rewrite Hn. simpl.
  destruct (children n) as [cs|] eqn:Hcs; [| done].
  by rewrite (scan_children_outside _ _ _ _ _ _ (Hsh _ _ _ Hn Hcs) Hc).
Qed.

Lemma contains_outside n xmin ymin xmax ymax x y :
  bounds n = (xmin, ymin, xmax, ymax) →
  ¬ ((xmin <= x)%Q ∧ (x < xmax)%Q ∧ (ymin <= y)%Q ∧ (y < ymax)%Q) →
  contains n x y = false.
Proof.
  intros Hb Hout. destruct (contains n x y) eqn:Hc; [| done].
  apply contains_spec in Hc. unfold bounds in Hb. injection Hb as <- <- <- <-.
  tauto.
Qed.

(** [half_store] and [charged_store] are stores of [half_grid]. *)
Lemma half_store_reachable : reachable half_grid.1 half_grid.2 half_store.
Proof.
  apply (repeat_op_reachable _ (OpSet (3 # 4) (1 # 2)) 1). reflexivity.
Qed.

Lemma charged_store_reachable : reachable half_grid.1 half_grid.2 charged_store.
Proof.
  unfold reachable. etrans; [apply half_store_reachable |].
  apply (repeat_op_reachable _ (OpGet (1 # 4) (1 # 2)) 1). reflexivity.
Qed.

(** ** Successive reads *)

Lemma get_again g h x' y' leaf nl :
  grid_ok g h → in_unit x' → in_unit y' → h !! leaf = Some nl →
  is_leaf nl = true → in_tree g h leaf → contains nl x' y' = true →
  ∃ h2, get g x' y' (alter (set_load (load nl + 1)%Q) leaf h)
        = Some (Returns (load nl + 1 + 1)%Q, h2).
Proof.
  intros Hok Hx' Hy' Hl Hleaf Ht Hc.
  set (h1 := alter (set_load (load nl + 1)%Q) leaf h).
  pose proof (grid_ok_add_load _ _ _ _ Hok Hl Hleaf) as Hok1. fold h1 in Hok1.
  assert (Hl1 : h1 !! leaf = Some (set_load (load nl + 1)%Q nl))
    by (unfold h1; by rewrite list_lookup_alter_eq, Hl).
  destruct (get_returns _ _ _ _ Hok1 Hx' Hy')
    as (leaf' & nl' & _ & Hl' & Hleaf' & Hc' & Ht' & Hget).
  assert (Heq : leaf' = leaf).
  { apply (leaf_containing_unique _ h1 (root g) leaf' leaf nl'
             (set_load (load nl + 1)%Q nl) x' y' (proj1 Hok1)); try done.
    eapply desc_load_variant; [apply load_variant_set_load | exact Ht]. }
  subst leaf'. rewrite Hl1 in Hl'. injection Hl' as <-.
  eexists. exact Hget.
Qed.

(** ** The rectangles of the animation *)

Lemma quad_areas n n0 n1 n2 n3 :
  bounds n0 = quadrant_bounds n 0 → bounds n1 = quadrant_bounds n 1 →
  bounds n2 = quadrant_bounds n 2 → bounds n3 = quadrant_bounds n 3 →
  (sum (area <$> [n0; n1; n2; n3]) == area n)%Q.
Proof.
  unfold bounds. simpl. intros [= H00 H01 H02 H03] [= H10 H11 H12 H13]
    [= H20 H21 H22 H23] [= H30 H31 H32 H33].
  rewrite sum_four. unfold area.
  rewrite H00, H01, H02, H03, H10, H11, H12, H13, H20, H21, H22, H23,
    H30, H31, H32, H33. ring.
Qed.

Lemma gather_area_list fuel (h : heap) rs parts kids ncs :
  (∀ c l k nc, c ∈ rs → h !! c = Some nc → gather fuel h c = Some l →
     deref_all h l = Some k → (sum (area <$> k) == area nc)%Q) →
  mapM (gather fuel h) rs = Some parts → deref_all h (concat parts) = Some kids →
  deref_all h rs = Some ncs →
  (sum (area <$> kids) == sum (area <$> ncs))%Q.
Proof.
  revert parts kids ncs. induction rs as [|c rs IH]; intros parts kids ncs Hbody Hp Hk Hn.
  - injection Hp as <-. injection Hn as <-. simpl in Hk. by injection Hk as <-.
  - cbn [mapM] in Hp. unfold deref_all in Hn. cbn [mapM] in Hn.
    destruct (gather fuel h c) as [l|] eqn:Hl; [| done]. simpl in Hp.
    destruct (mapM (gather fuel h) rs) as [ps|] eqn:Hps; [| done]. simpl in Hp.
    injection Hp as <-.
    destruct (h !! c) as [nc|] eqn:Hc; [| done]. simpl in Hn.
    destruct (mapM (λ r, h !! r) rs) as [ns|] eqn:Hns; [| done]. simpl in Hn.
    injection Hn as <-. simpl in Hk. unfold deref_all in Hk.
    apply mapM_Some in Hk. apply Forall2_app_inv_l in Hk as (k1 & k2 & H1 & H2 & ->).
    apply mapM_Some in H1, H2.
    rewrite !fmap_cons, fmap_app, sum_app, sum_cons.
    rewrite (Hbody c l k1 nc (list_elem_of_here _ _) Hc Hl H1).
    rewrite (IH ps k2 ns); [reflexivity | | done | done | done].
    intros c' l' k' nc' Hc'. apply Hbody. by apply list_elem_of_further.
Qed.

(** The rectangles of the leaves below a node add up to its rectangle. *)
Lemma gather_area ml fuel h r n ls kids :
  wf ml h → h !! r = Some n → gather fuel h r = Some ls →
  deref_all h ls = Some kids → (sum (area <$> kids) == area n)%Q.
Proof.
  intros Hwf. revert r n ls kids.
  induction fuel as [|fuel IH]; intros r n ls kids Hn Hg Hk; [done |].
  cbn [gather] in Hg. rewrite Hn in Hg. simpl in Hg.
  destruct (children n) as [cs|] eqn:Hcs.
  - destruct (mapM (gather fuel h) (children_values cs)) as [parts|] eqn:Hp; [| done].
    simpl in Hg. injection Hg as <-.
    destruct (ok_children _ _ _ _ (Hwf _ _ Hn) cs Hcs) as [_ Hq].
    destruct (quad_ok_nth _ _ _ _ 0 Hq ltac:(lia)) as (_ & n0 & H0 & _ & _ & Hb0).
    destruct (quad_ok_nth _ _ _ _ 1 Hq ltac:(lia)) as (_ & n1 & H1 & _ & _ & Hb1).
    destruct (quad_ok_nth _ _ _ _ 2 Hq ltac:(lia)) as (_ & n2 & H2 & _ & _ & Hb2).
    destruct (quad_ok_nth _ _ _ _ 3 Hq ltac:(lia)) as (_ & n3 & H3 & _ & _ & Hb3).
    assert (Hncs : deref_all h (children_values cs) = Some [n0; n1; n2; n3]).
    { destruct cs as [[[c0 c1] c2] c3]. unfold deref_all. cbn [children_values mapM].
      simpl in H0, H1, H2, H3. by rewrite H0, H1, H2, H3. }
    rewrite (gather_area_list fuel h _ parts kids _ ltac:(eauto) Hp Hk Hncs).
    by apply quad_areas.
  - injection Hg as <-. simpl in Hk. rewrite Hn in Hk. simpl in Hk.
    injection Hk as <-. simpl. unfold sum. simpl. lra.
Qed.

Lemma leaves_nodes g h :
  grid_ok g h → unit_root g h →
  ∃ ls kids, get_leaves g h = Some ls ∧ deref_all h ls = Some kids
    ∧ kids ≠ []
    ∧ (sum (area <$> kids) == 1)%Q
    ∧ ∀ k, k ∈ kids → cell_ok k ∧ (level k <= Z.max 0 (max_level g))%Z.
Proof.
  intros Hok Hunit. pose proof Hok as (Hwf & _). pose proof Hunit as (nr & Hr & Hb & Hlv).
  pose proof (lookup_lt_Some _ _ _ Hr) as Hlt.
  destruct (gather_spec _ (S (length h)) h (root g) Hwf) as (ls & Hg & Hls);
    [by eexists | lia |].
  destruct (mapM_is_Some_2 (λ r, h !! r) ls) as [kids Hk].
  { apply Forall_forall. intros r Hin. apply Hls in Hin as (_ & n & Hn & _). by exists n. }
  exists ls, kids. split; [done |]. split; [done |]. split; [| split].
  - clear Hls. destruct (gather_length _ _ _ _ _ _ Hwf Hr Hg) as [H1 _].
    apply mapM_Some, Forall2_length in Hk. intros ->. simpl in Hk. lia.
  - rewrite (gather_area _ _ _ _ _ _ _ Hwf Hr Hg Hk). unfold area.
    unfold bounds in Hb. injection Hb as -> -> -> ->. reflexivity.
  - intros k Hkin. destruct (deref_all_lookup _ _ _ _ Hk Hkin) as (r & Hrin & Hrk).
    apply Hls in Hrin as [Hd _]. split; [by eapply tree_cell_ok |].
    apply (ok_level _ _ _ _ (Hwf _ _ Hrk)).
Qed.

(** ** Turns of the threads as sequences of critical sections *)

Lemma turns_front body k h :
  turns body (S k) h = (h' ← body h; turns body k h').
Proof.
  induction k as [|k IH].
  - simpl. by destruct (body h).
  - change (turns body (S (S k)) h) with (h' ← turns body (S k) h; body h').
    rewrite IH. by destruct (body h).
Qed.

(** Left alone, [k] turns of the decay thread are [k] calls
    [decay_load(decay_factor)]. *)
Lemma LoadDecayThread_run_turns k p :
  acts (LoadDecayThread_run k) p
  = (h' ← turns (LoadDecayThread_run_turn (prog_grid p)) k (prog_store p);
     Some (mkProgram (prog_grid p) h'
             (match k with O => prog_decay_arg p | S _ => None end))).
Proof.
  revert p. induction k as [|k IH]; intros p; [by destruct p |].
  rewrite turns_front. unfold LoadDecayThread_run in *. cbn [replicate concat app acts act].
  simpl. unfold LoadDecayThread_run_turn in *.
  destruct (decay_load (prog_grid p) (decay_factor (prog_grid p)) (prog_store p))
    as [h1|]; [| done].
  simpl. rewrite IH. simpl.
  destruct (turns (λ h, decay_load (prog_grid p) (decay_factor (prog_grid p)) h) k h1);
    [| done].
  simpl. by destruct k.
Qed.

(** Left alone, [k] turns of the controller are [k] calls
    [periodic_rebalance()]. *)
Lemma GlobalAdaptiveController_run_turns k p :
  acts (GlobalAdaptiveController_run k) p
  = (h' ← turns (GlobalAdaptiveController_run_turn (prog_grid p)) k (prog_store p);
     Some (mkProgram (prog_grid p) h' (prog_decay_arg p))).
Proof.
  revert p. induction k as [|k IH]; intros p; [by destruct p |].
  rewrite turns_front. unfold GlobalAdaptiveController_run in *.
  cbn [replicate acts act]. unfold GlobalAdaptiveController_run_turn in *.
  destruct (periodic_rebalance (prog_grid p) (prog_store p)) as [h1|]; [| done].
  simpl. by rewrite IH.
Qed.

(** ** What a call of [set] does *)

Lemma set_effect g h x y :
  grid_ok g h → in_unit x → in_unit y →
  ∃ leaf nl h',
    _find_leaf h (root g) x y = Some leaf
    ∧ h !! leaf = Some nl ∧ is_leaf nl = true ∧ contains nl x y = true
    ∧ set g x y h = Some (Returns tt, h')
    ∧ (∀ r, r ≠ leaf → r < length h → h' !! r = h !! r)
    ∧ (((split_threshold g < load nl + 1)%Q ∧ (level nl < max_level g)%Z)
       ∧ length h' = length h + 4
       ∧ h' !! leaf
         = Some (set_load 0%Q (set_children (Some (new_quad h))
                                 (set_load (load nl + 1)%Q nl)))
       ∧ (∀ i, i < 4 →
            h' !! (length h + i)
            = Some (new_child leaf (set_load (load nl + 1)%Q nl) i))
       ∨ ¬ ((split_threshold g < load nl + 1)%Q ∧ (level nl < max_level g)%Z)
         ∧ h' = alter (set_load (load nl + 1)%Q) leaf h).
Proof.
  intros Hok Hx Hy.
  destruct (find_leaf_spec _ _ _ _ Hok Hx Hy) as (leaf & nl & Hf & Hl & Hleaf & Hc & _).
  destruct (set_returns _ _ _ _ Hok Hx Hy)
    as (leaf' & nl' & h' & Hf' & Hl' & _ & _ & Hre & Hset).
  rewrite Hf in Hf'. injection Hf' as <-. rewrite Hl in Hl'. injection Hl' as <-.
  exists leaf, nl, h'. do 5 (split; [done |]).
  set (h1 := alter (set_load (load nl + 1)%Q) leaf h) in *.
  assert (Hl1 : h1 !! leaf = Some (set_load (load nl + 1)%Q nl))
    by (unfold h1; by rewrite list_lookup_alter_eq, Hl).
  assert (Hlen1 : length h1 = length h) by (unfold h1; by rewrite length_alter).
  destruct (rebalance_cases g _ _ _ Hl1) as [[(Hst & Hlv & _) Heq] | [Hng Heq]];
    rewrite Heq in Hre.
  - destruct (subdivide_spec _ _ _ Hl1) as (h2 & Hs2 & Hlen & Hself & Hother & Hnew).
    rewrite Hs2 in Hre. injection Hre as <-. split.
    + intros r Hne Hlt. rewrite Hother by lia. unfold h1.
      by rewrite list_lookup_alter_ne.
    + left. simpl in Hst, Hlv. split; [done |]. split; [lia |].
      unfold new_quad in *. rewrite Hlen1 in *. done.
  - injection Hre as <-. split.
    + intros r Hne _. unfold h1. by rewrite list_lookup_alter_ne.
    + right. split; [| done]. intros [Hst Hlv]. apply Hng.
      unfold split_guard. simpl. done.
Qed.

(** ** The tree refines only where the workers hit *)

Lemma meets_centre_geometry n n' : same_geometry n n' → meets_centre n → meets_centre n'.
Proof.
  intros [Hb _]. unfold bounds in Hb. injection Hb as Hx Hy Hx' Hy'.
  unfold meets_centre. by rewrite Hx, Hy, Hx', Hy'.
Qed.

Lemma contains_sample_meets n x y :
  sample x → sample y → contains n x y = true → meets_centre n.
Proof.
  intros [Hx0 Hx1] [Hy0 Hy1] Hc. apply contains_spec in Hc as [[? ?] [? ?]].
  unfold meets_centre. repeat split; lra.
Qed.

Lemma refined_shrinks h h' : shrinks h h' → refined_at_centre h → refined_at_centre h'.
Proof.
  intros [Hlen Hs] Href r n' Hn' Hint.
  pose proof (lookup_lt_Some _ _ _ Hn') as Hlt. rewrite Hlen in Hlt.
  destruct (lookup_lt_is_Some_2 _ _ Hlt) as [n Hn].
  destruct (Hs _ _ Hn) as (n'' & Hn'' & Hg & Hc).
  rewrite Hn' in Hn''. injection Hn'' as <-.
  apply (meets_centre_geometry n n' Hg), (Href r n Hn).
  unfold is_leaf in *. destruct Hc as [Hc | Hc]; rewrite Hc in Hint; done.
Qed.

Lemma refined_set g h x y out h' :
  grid_ok g h → sample x → sample y → set g x y h = Some (out, h') →
  refined_at_centre h → refined_at_centre h'.
Proof.
  intros Hok Hx Hy Hset Href.
  destruct (set_effect _ _ _ _ Hok (sample_in_unit _ Hx) (sample_in_unit _ Hy))
    as (leaf & nl & h2 & _ & Hl & Hleaf & Hc & Hset2 & Hframe & Hcases).
  rewrite Hset2 in Hset. injection Hset as _ <-.
  pose proof (contains_sample_meets _ _ _ Hx Hy Hc) as Hm.
  pose proof (lookup_lt_Some _ _ _ Hl) as Hlt.
  intros r n' Hn' Hint.
  destruct (decide (r = leaf)) as [-> | Hne].
  - destruct Hcases as [(_ & _ & Hself & _) | [_ ->]].
    + rewrite Hself in Hn'. injection Hn' as <-. exact Hm.
    + rewrite list_lookup_alter_eq, Hl in Hn'. injection Hn' as <-. exact Hm.
  - destruct (decide (r < length h)) as [Hold | Hnew].
    + rewrite Hframe in Hn' by done. by eapply Href.
    + destruct Hcases as [(_ & Hlen & _ & Hkids) | [_ ->]].
      * pose proof (lookup_lt_Some _ _ _ Hn') as Hlt'.
        assert (Hi : ∃ i, i < 4 ∧ r = length h + i) by (exists (r - length h); lia).
        destruct Hi as (i & Hi & ->). rewrite Hkids in Hn' by done.
        injection Hn' as <-. unfold is_leaf in Hint.
        by rewrite new_child_children in Hint.
      * apply lookup_lt_Some in Hn'. rewrite length_alter in Hn'. lia.
Qed.

Lemma act_refined a p p' :
  program_ok p → allowed a → act a p = Some p' →
  refined_at_centre (prog_store p) → refined_at_centre (prog_store p').
Proof.
  intros (Hok & _) Hal Ha Href.
  destruct a as [x y | | | | val | val | val | val |]; simpl in Ha.
  - destruct (set (prog_grid p) x y (prog_store p)) as [[out h']|] eqn:Hs; [| done].
    injection Ha as <-. simpl. destruct Hal as [Hx Hy].
    exact (refined_set _ _ _ _ _ _ Hok Hx Hy Hs Href).
  - by injection Ha as <-.
  - destruct (prog_decay_arg p) as [d|]; [| done]. simpl in Ha.
    destruct (decay_load (prog_grid p) d (prog_store p)) as [h|] eqn:Hd; [| done].
    injection Ha as <-. simpl.
    by apply (refined_shrinks _ _ (run_shrinks _ (OpDecayLoad d) _ _ Hok ltac:(done) Hd)).
  - destruct (periodic_rebalance (prog_grid p) (prog_store p)) as [h|] eqn:Hd; [| done].
    injection Ha as <-. simpl.
    by apply (refined_shrinks _ _ (run_shrinks _ OpPeriodicRebalance _ _ Hok ltac:(done) Hd)).
  - by injection Ha as <-.
  - by injection Ha as <-.
  - by injection Ha as <-.
  - by injection Ha as <-.
  - destruct (get_leaves (prog_grid p) (prog_store p)); [| done]. by injection Ha as <-.
Qed.

Lemma running_refined p : running p → refined_at_centre (prog_store p).
Proof.
  intros Hr. unfold running in Hr.
  assert (H : program_ok p ∧ refined_at_centre (prog_store p)); [| by destruct H].
  apply (rtc_ind_r (R := prog_step)
           (λ q, program_ok q ∧ refined_at_centre (prog_store q)) main_program);
    [| | done].
  - split; [apply main_program_ok |]. intros r n Hn Hint.
    destruct r as [|r]; [| done]. by injection Hn as <-.
  - intros q q' _ (a & Hal & Ha) [Hq Href]. split; [by eapply act_ok |].
    by eapply act_refined.
Qed.

(** ** Emptying the grid *)

Lemma all_zero_total g h T :
  grid_ok g h →
  (∀ r n, in_tree g h r → h !! r = Some n → (load n == 0)%Q) →
  total_load g h = Some T → (T == 0)%Q.
Proof.
  intros Hok Hall HT. unfold total_load in HT.
  destruct (get_leaves g h) as [ls|] eqn:Hls; [| done]. simpl in HT.
  destruct (deref_all h ls) as [kids|] eqn:Hk; [| done]. simpl in HT. injection HT as <-.
  apply sum_zero, Forall_fmap, Forall_forall. intros k Hkin. simpl.
  destruct (deref_all_lookup _ _ _ _ Hk Hkin) as (r & Hr & Hrk).
  apply (Hall r k); [| done].
  unfold get_leaves in Hls. by destruct (gather_sound _ _ _ _ _ Hls Hr).
Qed.

Lemma decay_nonpositive_zero g d h h' :
  grid_ok g h → (d <= 0)%Q → decay_load g d h = Some h' →
  ∀ r n, in_tree g h' r → h' !! r = Some n → load n = 0%Q.
Proof.
  intros Hok Hd Hdec r n' Ht Hn'.
  pose proof Hok as (Hwf & nr & Hr & _). pose proof (lookup_lt_Some _ _ _ Hr) as Hlt.
  destruct (decay_spec _ d (S (length h)) (root g) h Hwf) as (h2 & Hd2 & Hlen & Heff);
    [by eexists | lia |].
  unfold decay_load in Hdec. rewrite Hdec in Hd2. injection Hd2 as <-.
  destruct (decay_maintains _ _ _ _ _ _ Hwf Hdec) as [_ Hs].
  pose proof (desc_shrinks _ _ _ _ Hs Ht) as Ht0.
  destruct (in_tree_valid _ _ _ Hok Ht0) as [n Hn].
  destruct (Heff _ _ Hn) as [Hleaf Hint].
  destruct (is_leaf n) eqn:Hl.
  - rewrite (Hleaf Ht0 eq_refl) in Hn'. injection Hn' as <-. simpl.
    pose proof (ok_load _ _ _ _ (Hwf _ _ Hn)) as Hnn.
    destruct (Qltb (load n * d) eps) eqn:Hq; [done |].
    apply Qltb_ge in Hq. pose proof eps_pos.
    assert (load n * d <= 0)%Q by nra. lra.
  - rewrite (Hint (or_intror eq_refl)) in Hn'. injection Hn' as <-.
    by apply (ok_internal_load _ _ _ _ (Hwf _ _ Hn)).
Qed.

(** * The properties stated by the specification *)

(** C1, as amended.  On a reachable store [get_leaves] returns the
    references of exactly the leaves of the tree and changes nothing; the
    elements are the live node objects: whatever operations follow, each
    element still exists with the bounds and the level it had (no
    operation assigns them), while nothing is promised about its load. *)
Theorem get_leaves_live_references (ml : Z) (st mt df di : Q) (h : heap) :
  reachable (fresh ml st mt df di).1 (fresh ml st mt df di).2 h →
  ∃ ls, get_leaves (fresh ml st mt df di).1 h = Some ls
    ∧ run (fresh ml st mt df di).1 OpGetLeaves h = Some h
    ∧ (∀ r, r ∈ ls ↔
         in_tree (fresh ml st mt df di).1 h r
         ∧ ∃ n, h !! r = Some n ∧ is_leaf n = true)
    ∧ (∀ h' r, reachable (fresh ml st mt df di).1 h h' → r ∈ ls →
         ∃ n n', h !! r = Some n ∧ h' !! r = Some n'
           ∧ bounds n' = bounds n ∧ level n' = level n).
Proof.
  intros Hr. pose proof (reachable_fresh_ok _ _ _ _ _ _ Hr) as Hok.
  pose proof Hok as (Hwf & nroot & Hroot & _).
  destruct (gather_spec _ (S (length h)) h (root (fresh ml st mt df di).1) Hwf)
    as (ls & Hg & Hspec); [by eexists | lia |].
  exists ls. split; [done |]. split; [| split; [done |]].
  - unfold run, get_leaves. by rewrite Hg.
  - intros h' r Hr' Hin. apply Hspec in Hin as (_ & n & Hn & _).
    destruct (reachable_grid_ok _ _ _ Hok Hr') as [_ He].
    destruct (He _ _ Hn) as (n' & Hn' & Hb & Hlv & _). by exists n, n'.
Qed.

Lemma get_leaves_live_references_witness :
  ∃ ls, get_leaves default_grid.1 default_grid.2 = Some ls
    ∧ run default_grid.1 OpGetLeaves default_grid.2 = Some default_grid.2
    ∧ (∀ r, r ∈ ls ↔
         in_tree default_grid.1 default_grid.2 r
         ∧ ∃ n, default_grid.2 !! r = Some n ∧ is_leaf n = true)
    ∧ (∀ h' r, reachable default_grid.1 default_grid.2 h' → r ∈ ls →
         ∃ n n', default_grid.2 !! r = Some n ∧ h' !! r = Some n'
           ∧ bounds n' = bounds n ∧ level n' = level n).
Proof.
  apply (get_leaves_live_references 6%Z 5%Q 2%Q (9 # 10)%Q 1%Q default_grid.2).
  apply rtc_refl.
Defined.

(** C1 as stated fails: on a fresh default grid the snapshot is [[root]];
    after [set(0.5, 0.5)] the load of that element reads 1, not 0. *)
Lemma snapshot_not_immutable :
  ¬ snapshot_immutable default_grid.1 default_grid.2.
Proof.
  intros Himm.
  destruct (Himm [0] (OpSet (1 # 2) (1 # 2))
              [set_load 1%Q (Node_init 0 0 1 1 0 None)] 0
              (Node_init 0 0 1 1 0 None) (set_load 1%Q (Node_init 0 0 1 1 0 None)))
    as (_ & _ & Hload); try reflexivity.
  - apply list_elem_of_here.
  - discriminate Hload.
Qed.




(** C3, as amended.  On a grid built on a rectangle that covers the unit
    square, for every valid point and every reachable store, [_find_leaf]
    from the root returns a leaf of the tree that contains the point.  In
    any store, from any start node that contains the point, the node
    returned contains it, also when the descent stops at an internal node
    because no child matched.  On a grid built on any rectangle, when the
    point lies outside the rectangle, [_find_leaf] returns the root itself,
    which does not contain the point. *)
Theorem find_leaf_contains_point :
  (∀ xmin ymin xmax ymax ml st mt df di h x y,
     (xmin <= 0)%Q → (ymin <= 0)%Q → (1 <= xmax)%Q → (1 <= ymax)%Q →
     reachable (built xmin ymin xmax ymax ml st mt df di).1
       (built xmin ymin xmax ymax ml st mt df di).2 h →
     in_unit x → in_unit y →
     ∃ r nr,
       _find_leaf h (root (built xmin ymin xmax ymax ml st mt df di).1) x y = Some r
       ∧ h !! r = Some nr ∧ contains nr x y = true
       ∧ is_leaf nr = true
       ∧ in_tree (built xmin ymin xmax ymax ml st mt df di).1 h r)
  ∧ (∀ (h : heap) node n x y r,
       h !! node = Some n → contains n x y = true →
       _find_leaf h node x y = Some r →
       ∃ nr, h !! r = Some nr ∧ contains nr x y = true)
  ∧ (∀ xmin ymin xmax ymax ml st mt df di h x y,
       reachable (built xmin ymin xmax ymax ml st mt df di).1
         (built xmin ymin xmax ymax ml st mt df di).2 h →
       ¬ ((xmin <= x)%Q ∧ (x < xmax)%Q ∧ (ymin <= y)%Q ∧ (y < ymax)%Q) →
       ∃ nr,
         _find_leaf h (root (built xmin ymin xmax ymax ml st mt df di).1) x y
         = Some (root (built xmin ymin xmax ymax ml st mt df di).1)
         ∧ h !! root (built xmin ymin xmax ymax ml st mt df di).1 = Some nr
         ∧ contains nr x y = false).
Proof.
  split; [| split].
  - intros xmin ymin xmax ymax ml st mt df di h x y Hx0 Hy0 Hx1 Hy1 Hr Hx Hy.
    destruct (reachable_grid_ok _ _ _
                (built_grid_ok xmin ymin xmax ymax ml st mt df di Hx0 Hy0 Hx1 Hy1) Hr)
      as [Hok _].
    destruct (find_leaf_spec _ _ _ _ Hok Hx Hy) as (leaf & nl & Hf & Hl & Hleaf & Hc & Ht).
    by exists leaf, nl.
  - intros h node n x y r Hn Hc Hf. by eapply find_leaf_loop_contains.
  - intros xmin ymin xmax ymax ml st mt df di h x y Hr Hout.
    destruct (reachable_built _ _ _ _ _ _ _ _ _ _ Hr) as (Hsh & nr & Hn & Hb & _).
    pose proof (contains_outside _ _ _ _ _ _ _ Hb Hout) as Hc.
    exists nr. split; [by eapply find_leaf_outside | done].
Qed.

Lemma find_leaf_contains_point_witness :
  (∃ r nr, _find_leaf wide_grid.2 (root wide_grid.1) (1 # 2) (1 # 2) = Some r
     ∧ wide_grid.2 !! r = Some nr ∧ contains nr (1 # 2) (1 # 2) = true
     ∧ is_leaf nr = true ∧ in_tree wide_grid.1 wide_grid.2 r)
  ∧ (_find_leaf stray_store 0 (1 # 2) (1 # 2) = Some 0
     ∧ ∃ nr, stray_store !! 0 = Some nr ∧ contains nr (1 # 2) (1 # 2) = true)
  ∧ (∃ nr, _find_leaf half_store (root half_grid.1) (1 # 4) (1 # 2)
           = Some (root half_grid.1)
       ∧ half_store !! root half_grid.1 = Some nr
       ∧ contains nr (1 # 4) (1 # 2) = false).
Proof.
  split; [| split].
  - apply (proj1 find_leaf_contains_point (-1)%Q (-1)%Q 2%Q 2%Q 6%Z 5%Q 2%Q (9 # 10)%Q 1%Q
             wide_grid.2).
    + discriminate.
    + discriminate.
    + discriminate.
    + discriminate.
    + apply rtc_refl.
    + split; reflexivity || discriminate.
    + split; reflexivity || discriminate.
  - split; [reflexivity |].
    eapply (proj1 (proj2 find_leaf_contains_point) stray_store 0).
    + reflexivity.
    + reflexivity.
    + reflexivity.
  - apply (proj2 (proj2 find_leaf_contains_point) (1 # 2)%Q 0%Q 1%Q 1%Q 6%Z 0%Q 2%Q (9 # 10)%Q
             1%Q half_store).
    + apply half_store_reachable.
    + intros (H & _). apply H. reflexivity.
Defined.

(** C3 as stated, for every reachable tree, fails: on the store of
    [FractalGrid(x_min=0.5, split_threshold=0)] after [set(0.75, 0.5)] the
    descent for the valid point (0.25, 0.5) stops at the internal root
    through the no-matching-child fallback, and the root does not contain
    the point. *)
Lemma find_leaf_misses_off_unit_square : ¬ find_leaf_contains_on (1 # 2) 0 1 1.
Proof.
  intros Hc.
  specialize (Hc 6%Z 0%Q 2%Q (9 # 10)%Q 1%Q half_store (1 # 4)%Q (1 # 2)%Q 0
                (set_children (Some (1, 2, 3, 4)) (Node_init (1 # 2) 0 1 1 0 None))).
  assert (H : contains (set_children (Some (1, 2, 3, 4)) (Node_init (1 # 2) 0 1 1 0 None))
                (1 # 4) (1 # 2) = true).
  { apply Hc.
    - apply (rtc_l _ _ half_store); [by exists (OpSet (3 # 4) (1 # 2)) |]. apply rtc_refl.
    - split; reflexivity || discriminate.
    - split; reflexivity || discriminate.
    - reflexivity.
    - reflexivity. }
  discriminate H.
Qed.

(** C4, as amended.  A node that a call of [set] turns from a leaf into an
    internal node is the node found for the point, its load after the
    increment is strictly above [split_threshold] and its level strictly
    below [max_level]; no other operation adds a node or gives a node
    children.  Hence, provided [max_level >= 0], no node of a reachable
    tree is deeper than [max_level]; the root sits at level 0 whatever
    [max_level] is, so in general the bound is [max 0 max_level].  With
    [split_threshold = 5] and [max_level = 6], repeated [set(0.5, 0.5)] on
    a fresh grid leaves the root a leaf with load [k] after [k <= 5] calls
    and splits it on the 6th call, into four leaves of load 6/4. *)
Theorem split_guard_and_depth_cap :
  (∀ g (h : heap) x y out h' r n n',
     set g x y h = Some (out, h') →
     h !! r = Some n → is_leaf n = true →
     h' !! r = Some n' → is_leaf n' = false →
     _find_leaf h (root g) x y = Some r
     ∧ (split_threshold g < load n + 1)%Q ∧ (level n < max_level g)%Z)
  ∧ (∀ ml st mt df di h o h',
       reachable (fresh ml st mt df di).1 (fresh ml st mt df di).2 h →
       (∀ x y, o ≠ OpSet x y) →
       run (fresh ml st mt df di).1 o h = Some h' →
       length h' = length h
       ∧ ∀ r n, h !! r = Some n → is_leaf n = true →
           ∃ n', h' !! r = Some n' ∧ is_leaf n' = true)
  ∧ (∀ ml st mt df di h r,
       reachable (fresh ml st mt df di).1 (fresh ml st mt df di).2 h →
       in_tree (fresh ml st mt df di).1 h r →
       ∃ n, h !! r = Some n ∧ (level n <= Z.max 0 ml)%Z
         ∧ ((0 <= ml)%Z → (level n <= ml)%Z))
  ∧ (∀ mt df di,
       (∀ k, k ≤ 5 →
          ∃ h n, repeat_op (fresh 6 5 mt df di).1 (OpSet (1 # 2) (1 # 2)) k
                   (fresh 6 5 mt df di).2 = Some h
            ∧ length h = 1
            ∧ h !! root (fresh 6 5 mt df di).1 = Some n
            ∧ is_leaf n = true ∧ (load n == inject_Z (Z.of_nat k))%Q)
       ∧ ∃ h n c0 c1 c2 c3 n0 n1 n2 n3,
           repeat_op (fresh 6 5 mt df di).1 (OpSet (1 # 2) (1 # 2)) 6
             (fresh 6 5 mt df di).2 = Some h
           ∧ h !! root (fresh 6 5 mt df di).1 = Some n
           ∧ children n = Some (c0, c1, c2, c3) ∧ load n = 0%Q
           ∧ h !! c0 = Some n0 ∧ h !! c1 = Some n1
           ∧ h !! c2 = Some n2 ∧ h !! c3 = Some n3
           ∧ Forall (λ c, is_leaf c = true ∧ level c = 1%Z ∧ (load c == 3 # 2)%Q)
                    [n0; n1; n2; n3]).
Proof.
  split; [| split; [| split]].
  - intros g h x y out h' r n n'. apply set_splits_under_guard.
  - intros ml st mt df di h o h' Hr Hns Hrun.
    pose proof (reachable_fresh_ok _ _ _ _ _ _ Hr) as Hok.
    destruct (run_shrinks _ _ _ _ Hok Hns Hrun) as [Hlen Hs].
    split; [done |]. intros r n Hn Hleaf.
    destruct (Hs _ _ Hn) as (n' & Hn' & _ & Hc). exists n'. split; [done |].
    unfold is_leaf in *. destruct Hc as [-> | ->]; done.
  - intros ml st mt df di h r Hr Ht.
    pose proof (reachable_fresh_ok _ _ _ _ _ _ Hr) as Hok.
    destruct (in_tree_valid _ _ _ Hok Ht) as [n Hn]. exists n. split; [done |].
    pose proof (ok_level _ _ _ _ (proj1 Hok _ _ Hn)) as Hlv.
    change (max_level (fresh ml st mt df di).1) with ml in Hlv. split; lia.
  - intros mt df di. split.
    + intros k Hk.
      destruct k as [|[|[|[|[|[|k]]]]]]; [| | | | | | lia];
        (eexists; eexists; split; [vm_compute; reflexivity |]);
        (split; [reflexivity |]); (split; [reflexivity |]);
        (split; [reflexivity |]); reflexivity.
    + do 10 eexists. split; [vm_compute; reflexivity |].
      split; [reflexivity |]. split; [reflexivity |]. split; [reflexivity |].
      split; [reflexivity |]. split; [reflexivity |]. split; [reflexivity |].
      split; [reflexivity |]. repeat constructor.
Qed.

Lemma split_guard_and_depth_cap_witness :
  (_find_leaf [set_load 5%Q (Node_init 0 0 1 1 0 None)] (root default_grid.1)
     (1 # 2) (1 # 2) = Some 0
   ∧ (split_threshold default_grid.1 < load (set_load 5%Q (Node_init 0 0 1 1 0 None)) + 1)%Q
   ∧ (level (set_load 5%Q (Node_init 0 0 1 1 0 None)) < max_level default_grid.1)%Z)
  ∧ (length (alter (set_load (0 + 1)%Q) 0 default_grid.2) = length default_grid.2
     ∧ ∀ r n, default_grid.2 !! r = Some n → is_leaf n = true →
         ∃ n', alter (set_load (0 + 1)%Q) 0 default_grid.2 !! r = Some n'
               ∧ is_leaf n' = true)
  ∧ (∃ n, default_grid.2 !! 0 = Some n ∧ (level n <= Z.max 0 6)%Z
       ∧ ((0 <= 6)%Z → (level n <= 6)%Z)).
Proof.
  split; [| split].
  - eapply (proj1 split_guard_and_depth_cap default_grid.1
              [set_load 5%Q (Node_init 0 0 1 1 0 None)] (1 # 2)%Q (1 # 2)%Q
              (Returns tt) _ 0); reflexivity.
  - apply (proj1 (proj2 split_guard_and_depth_cap) 6%Z 5%Q 2%Q (9 # 10)%Q 1%Q
             default_grid.2 (OpGet (1 # 2) (1 # 2))).
    + apply rtc_refl.
    + intros x y. discriminate.
    + reflexivity.
  - apply (proj1 (proj2 (proj2 split_guard_and_depth_cap)) 6%Z 5%Q 2%Q (9 # 10)%Q 1%Q
             default_grid.2 0).
    + apply rtc_refl.
    + apply rtc_refl.
Defined.

(** C4 as stated fails for a negative depth cap: the root, at level 0, is
    deeper than the cap. *)
Lemma depth_cap_negative : ¬ depth_capped (-1).
Proof.
  intros Hcap.
  specialize (Hcap 5%Q 2%Q (9 # 10)%Q 1%Q (fresh (-1) 5 2 (9 # 10) 1).2 0
                (Node_init 0 0 1 1 0 None)).
  assert (H : (level (Node_init 0 0 1 1 0 None) <= -1)%Z).
  { apply Hcap; [apply rtc_refl | apply rtc_refl | reflexivity]. }
  simpl in H. lia.
Qed.

(** C5.  [get] and [set] raise [ValueError] (the spec's InvalidCoordinate)
    exactly when [x] or [y] is outside [0, 1), and then leave the store as
    it was; on a reachable store, with both coordinates in range, [get]
    returns: it adds exactly 1 to the load of the node found and returns
    that new load, and [set] returns too.  On a fresh default grid
    [get(1.0, 0.5)] and [get(-0.1, 0.5)] raise and [get(0.0, 0.999999)]
    returns. *)
Theorem get_set_validation :
  (∀ g h x y, ¬ (in_unit x ∧ in_unit y) →
     get g x y h = Some (Raises ValueError, h)
     ∧ set g x y h = Some (Raises ValueError, h))
  ∧ (∀ ml st mt df di h x y,
       reachable (fresh ml st mt df di).1 (fresh ml st mt df di).2 h →
       in_unit x → in_unit y →
       ∃ leaf nl h',
         _find_leaf h (root (fresh ml st mt df di).1) x y = Some leaf
         ∧ h !! leaf = Some nl
         ∧ get (fresh ml st mt df di).1 x y h
           = Some (Returns (load nl + 1)%Q, alter (set_load (load nl + 1)%Q) leaf h)
         ∧ set (fresh ml st mt df di).1 x y h = Some (Returns tt, h'))
  ∧ (get default_grid.1 1 (1 # 2) default_grid.2
       = Some (Raises ValueError, default_grid.2)
     ∧ get default_grid.1 (- (1 # 10)) (1 # 2) default_grid.2
       = Some (Raises ValueError, default_grid.2)
     ∧ ∃ h', get default_grid.1 0 (999999 # 1000000) default_grid.2
             = Some (Returns 1%Q, h')).
Proof.
  split; [| split].
  - intros g h x y Hn. split; [by apply get_raises | by apply set_raises].
  - intros ml st mt df di h x y Hr Hx Hy.
    pose proof (reachable_fresh_ok _ _ _ _ _ _ Hr) as Hok.
    destruct (get_returns _ _ _ _ Hok Hx Hy) as (leaf & nl & Hf & Hl & _ & _ & _ & Hg).
    destruct (set_returns _ _ _ _ Hok Hx Hy) as (leaf' & nl' & h' & _ & _ & _ & _ & _ & Hs).
    by exists leaf, nl, h'.
  - split; [reflexivity |]. split; [reflexivity |]. eexists. reflexivity.
Qed.

Lemma get_set_validation_witness :
  (get default_grid.1 (3 # 2) (1 # 2) default_grid.2
     = Some (Raises ValueError, default_grid.2)
   ∧ set default_grid.1 (3 # 2) (1 # 2) default_grid.2
     = Some (Raises ValueError, default_grid.2))
  ∧ (∃ leaf nl h',
       _find_leaf default_grid.2 (root default_grid.1) (1 # 4) (3 # 4) = Some leaf
       ∧ default_grid.2 !! leaf = Some nl
       ∧ get default_grid.1 (1 # 4) (3 # 4) default_grid.2
         = Some (Returns (load nl + 1)%Q,
                 alter (set_load (load nl + 1)%Q) leaf default_grid.2)
       ∧ set default_grid.1 (1 # 4) (3 # 4) default_grid.2 = Some (Returns tt, h')).
Proof.
  split.
  - apply (proj1 get_set_validation). intros [[_ Hx] _]. discriminate Hx.
  - apply (proj1 (proj2 get_set_validation) 6%Z 5%Q 2%Q (9 # 10)%Q 1%Q).
    + apply rtc_refl.
    + split; reflexivity || discriminate.
    + split; reflexivity || discriminate.
Defined.

(** C6.  [subdivide] on a leaf installs four children, all leaves at
    [level + 1] over the four quadrants, each with load exactly
    [load / 4]; the four loads sum to the load before the split and the
    node's own load becomes exactly [0].  No other object changes. *)
Theorem subdivide_conserves_load (h : heap) (self : ref) (n : Node) :
  h !! self = Some n → is_leaf n = true →
  ∃ h' n' c0 c1 c2 c3 n0 n1 n2 n3,
    subdivide self h = Some h'
    ∧ h' !! self = Some n'
    ∧ children n' = Some (c0, c1, c2, c3) ∧ load n' = 0%Q
    ∧ h' !! c0 = Some n0 ∧ h' !! c1 = Some n1
    ∧ h' !! c2 = Some n2 ∧ h' !! c3 = Some n3
    ∧ Forall (λ k, level k = (level n + 1)%Z ∧ is_leaf k = true
                   ∧ parent k = Some self ∧ load k = (load n / 4)%Q)
             [n0; n1; n2; n3]
    ∧ bounds n0 = quadrant_bounds n 0 ∧ bounds n1 = quadrant_bounds n 1
    ∧ bounds n2 = quadrant_bounds n 2 ∧ bounds n3 = quadrant_bounds n 3
    ∧ (sum (load <$> [n0; n1; n2; n3]) == load n)%Q
    ∧ (∀ r nr, r ≠ self → h !! r = Some nr → h' !! r = Some nr).
Proof.
  intros Hn _.
  destruct (subdivide_spec _ _ _ Hn) as (h' & Hs & Hlen & Hself & Hother & Hnew).
  pose proof (Hnew 0 ltac:(lia)) as H0. pose proof (Hnew 1 ltac:(lia)) as H1.
  pose proof (Hnew 2 ltac:(lia)) as H2. pose proof (Hnew 3 ltac:(lia)) as H3.
  replace (length h + 0) with (length h) in H0 by lia.
  replace (length h + 1) with (S (length h)) in H1 by lia.
  replace (length h + 2) with (S (S (length h))) in H2 by lia.
  replace (length h + 3) with (S (S (S (length h)))) in H3 by lia.
  exists h', (set_load 0%Q (set_children (Some (new_quad h)) n)).
  exists (length h), (S (length h)), (S (S (length h))), (S (S (S (length h)))).
  exists (new_child self n 0), (new_child self n 1),
         (new_child self n 2), (new_child self n 3).
  split; [done |]. split; [done |]. split; [done |]. split; [done |].
  split; [done |]. split; [done |]. split; [done |]. split; [done |].
  split; [repeat constructor |].
  split; [apply new_child_bounds |]. split; [apply new_child_bounds |].
  split; [apply new_child_bounds |]. split; [apply new_child_bounds |].
  split.
  - simpl. rewrite sum_four. field.
  - intros r nr Hne Hr. rewrite Hother; [done | done | by eapply lookup_lt_Some].
Qed.

Lemma subdivide_conserves_load_witness :
  ∃ h' n' c0 c1 c2 c3 n0 n1 n2 n3,
    subdivide 0 [set_load 6%Q (Node_init 0 0 1 1 0 None)] = Some h'
    ∧ h' !! 0 = Some n'
    ∧ children n' = Some (c0, c1, c2, c3) ∧ load n' = 0%Q
    ∧ h' !! c0 = Some n0 ∧ h' !! c1 = Some n1
    ∧ h' !! c2 = Some n2 ∧ h' !! c3 = Some n3
    ∧ Forall (λ k, level k = (0 + 1)%Z ∧ is_leaf k = true
                   ∧ parent k = Some 0 ∧ load k = (6 / 4)%Q)
             [n0; n1; n2; n3]
    ∧ bounds n0 = quadrant_bounds (set_load 6%Q (Node_init 0 0 1 1 0 None)) 0
    ∧ bounds n1 = quadrant_bounds (set_load 6%Q (Node_init 0 0 1 1 0 None)) 1
    ∧ bounds n2 = quadrant_bounds (set_load 6%Q (Node_init 0 0 1 1 0 None)) 2
    ∧ bounds n3 = quadrant_bounds (set_load 6%Q (Node_init 0 0 1 1 0 None)) 3
    ∧ (sum (load <$> [n0; n1; n2; n3]) == 6)%Q
    ∧ (∀ r nr, r ≠ 0 →
         [set_load 6%Q (Node_init 0 0 1 1 0 None)] !! r = Some nr → h' !! r = Some nr).
Proof.
  apply (subdivide_conserves_load [set_load 6%Q (Node_init 0 0 1 1 0 None)] 0
           (set_load 6%Q (Node_init 0 0 1 1 0 None))); reflexivity.
Defined.

(** C7.  [merge] on an internal node whose four children are leaves makes
    the node a leaf whose load is the sum of the four children's loads (and
    changes no other object).  With [merge_threshold = 10], on a store whose
    root has four leaf children with loads summing to 4,
    [periodic_rebalance] makes the root a leaf with load 4.  More
    generally, on a reachable store, any node of the tree whose four
    children are leaves with loads summing strictly below
    [merge_threshold] has become, after [periodic_rebalance], a leaf
    holding that sum. *)
Theorem merge_sums_children :
  (∀ (h : heap) self n cs kids,
     h !! self = Some n → children n = Some cs →
     deref_all h (children_values cs) = Some kids →
     Forall (λ k, is_leaf k = true) kids →
     ∃ h' n', merge self h = Some h' ∧ h' !! self = Some n'
       ∧ is_leaf n' = true ∧ load n' = sum (load <$> kids)
       ∧ ∀ r, r ≠ self → h' !! r = h !! r)
  ∧ (∀ g (h : heap) n cs kids,
       h !! root g = Some n → children n = Some cs →
       deref_all h (children_values cs) = Some kids →
       Forall (λ k, is_leaf k = true) kids →
       (sum (load <$> kids) == 4)%Q → (merge_threshold g == 10)%Q →
       ∃ h' n', periodic_rebalance g h = Some h' ∧ h' !! root g = Some n'
         ∧ is_leaf n' = true ∧ (load n' == 4)%Q)
  ∧ (∀ ml st mt df di h a n cs kids,
       reachable (fresh ml st mt df di).1 (fresh ml st mt df di).2 h →
       in_tree (fresh ml st mt df di).1 h a →
       h !! a = Some n → children n = Some cs →
       deref_all h (children_values cs) = Some kids →
       Forall (λ k, is_leaf k = true) kids →
       (sum (load <$> kids) < mt)%Q →
       ∃ h' n', periodic_rebalance (fresh ml st mt df di).1 h = Some h'
         ∧ h' !! a = Some n' ∧ is_leaf n' = true
         ∧ load n' = sum (load <$> kids)).
Proof.
  split; [| split].
  - intros h self n cs kids Hn Hcs Hk _.
    destruct (merge_spec _ _ _ _ _ Hn Hcs Hk) as (h' & Hm & _ & Hself & Hother).
    exists h', (set_load (sum (load <$> kids)) (set_children None n)).
    by repeat split.
  - intros g h n cs kids Hn Hcs Hk Hl Hsum Hmt.
    destruct (merge_spec _ _ _ _ _ Hn Hcs Hk) as (h' & Hm & _ & Hself & _).
    exists h', (set_load (sum (load <$> kids)) (set_children None n)).
    split; [| by repeat split].
    unfold periodic_rebalance.
    destruct (length h) as [|len] eqn:Hlen.
    { apply lookup_lt_Some in Hn. lia. }
    rewrite (merge_repeatedly_internal _ _ _ _ _ _ Hn Hcs).
    rewrite (for_each_merge_leaves _ _ _ _ _ Hk Hl). simpl.
    rewrite (can_merge_unfold _ _ _ _ _ _ Hn Hcs Hk).
    rewrite (proj2 (existsb_internal_false kids) Hl). simpl.
    assert (Hlt : Qltb (sum (load <$> kids)) (merge_threshold g) = true).
    { apply Qltb_lt. rewrite Hsum, Hmt. reflexivity. }
    by rewrite Hlt.
  - intros ml st mt df di h a n cs kids Hr Ht Hn Hcs Hk Hl Hsum.
    pose proof (reachable_fresh_ok _ _ _ _ _ _ Hr) as Hok.
    pose proof Hok as (Hwf & nroot & Hroot & _).
    destruct (merge_repeatedly_is_Some (fresh ml st mt df di).1 (S (length h))
                (root (fresh ml st mt df di).1) h Hwf) as [h' Hm];
      [by eexists | lia |].
    destruct (merge_repeatedly_merges (fresh ml st mt df di).1 a n cs kids
                Hcs Hl Hsum _ _ _ _ Hwf Hm Ht (conj Hn Hk)) as (n' & Hn' & Hl' & Hload).
    by exists h', n'.
Qed.

Lemma merge_sums_children_witness :
  (∃ h' n', merge 0 merge_store = Some h' ∧ h' !! 0 = Some n'
     ∧ is_leaf n' = true
     ∧ load n' = sum (load <$> [set_load 1%Q (Node_init 0 0 (1 # 2) (1 # 2) 1 (Some 0));
                                set_load 1%Q (Node_init (1 # 2) 0 1 (1 # 2) 1 (Some 0));
                                set_load 1%Q (Node_init 0 (1 # 2) (1 # 2) 1 1 (Some 0));
                                set_load 1%Q (Node_init (1 # 2) (1 # 2) 1 1 1 (Some 0))])
     ∧ ∀ r, r ≠ 0 → h' !! r = merge_store !! r)
  ∧ (∃ h' n', periodic_rebalance merge_grid merge_store = Some h'
       ∧ h' !! root merge_grid = Some n' ∧ is_leaf n' = true ∧ (load n' == 4)%Q)
  ∧ (∃ h' n', periodic_rebalance low_split_grid.1 four_set_store = Some h'
       ∧ h' !! 0 = Some n' ∧ is_leaf n' = true
       ∧ load n' = sum (load <$> [set_load (4 # 4)%Q (Node_init 0 0 (1 # 2) (1 # 2) 1 (Some 0));
                                  set_load (4 # 4)%Q (Node_init (1 # 2) 0 1 (1 # 2) 1 (Some 0));
                                  set_load (4 # 4)%Q (Node_init 0 (1 # 2) (1 # 2) 1 1 (Some 0));
                                  set_load (4 # 4)%Q (Node_init (1 # 2) (1 # 2) 1 1 1 (Some 0))])).
Proof.
  split; [| split].
  - eapply (proj1 merge_sums_children merge_store 0); try reflexivity.
    repeat constructor.
  - eapply (proj1 (proj2 merge_sums_children) merge_grid merge_store); try reflexivity.
    repeat constructor.
  - eapply (proj2 (proj2 merge_sums_children) 6%Z 3%Q 10%Q (9 # 10)%Q 1%Q
              four_set_store 0); try reflexivity.
    + apply four_set_store_reachable.
    + apply rtc_refl.
    + repeat constructor.
Defined.

(** C8.  On a node whose children (if any) are objects of the store,
    [can_merge] answers; it answers true exactly when the node is internal,
    its four children are all leaves and the sum of their loads is strictly
    below the threshold.  In particular it answers false as soon as one
    child is internal. *)
Theorem can_merge_iff (h : heap) (self : ref) (mt : Q) (n : Node) :
  h !! self = Some n →
  (∀ cs, children n = Some cs → is_Some (deref_all h (children_values cs))) →
  ∃ b, can_merge h self mt = Some b
    ∧ (b = true ↔
       ∃ cs kids, children n = Some cs
         ∧ deref_all h (children_values cs) = Some kids
         ∧ length kids = 4
         ∧ Forall (λ k, is_leaf k = true) kids
         ∧ (sum (load <$> kids) < mt)%Q)
    ∧ (∀ cs kids, children n = Some cs →
         deref_all h (children_values cs) = Some kids →
         Exists (λ k, is_leaf k = false) kids → b = false).
Proof.
  intros Hn Hvalid. destruct (children n) as [cs|] eqn:Hcs.
  - destruct (Hvalid cs eq_refl) as [kids Hk].
    rewrite (can_merge_unfold _ _ _ _ _ _ Hn Hcs Hk).
    eexists. split; [done |].
    assert (Hlen : length kids = 4).
    { apply mapM_Some_1, Forall2_length in Hk. rewrite <- Hk.
      by destruct cs as [[[c0 c1] c2] c3]. }
    destruct (existsb (λ child, negb (is_leaf child)) kids) eqn:Hex.
    + assert (Hnot : ¬ Forall (λ k, is_leaf k = true) kids).
      { rewrite <- existsb_internal_false. congruence. }
      split; [| done]. split; [done |].
      intros (cs' & kids' & [= <-] & Hk' & _ & Hall & _).
      rewrite Hk in Hk'. injection Hk' as <-. done.
    + apply existsb_internal_false in Hex.
      split.
      * rewrite Qltb_lt. split; [by exists cs, kids |].
        intros (cs' & kids' & [= <-] & Hk' & _ & _ & Hlt).
        rewrite Hk in Hk'. by injection Hk' as <-.
      * intros cs' kids' [= <-] Hk' Hexi. rewrite Hk in Hk'. injection Hk' as <-.
        exfalso. apply Exists_exists in Hexi as (k & Hin & Hint).
        rewrite Forall_forall in Hex. specialize (Hex k Hin). congruence.
  - exists false. unfold can_merge. rewrite Hn. simpl. rewrite Hcs.
    split; [done |]. split; [| done].
    split; [done |]. by intros (cs & kids & ? & _).
Qed.

Lemma can_merge_iff_witness :
  ∃ b, can_merge merge_store 0 10 = Some b
    ∧ (b = true ↔
       ∃ cs kids, children (set_children (Some (1, 2, 3, 4)) (Node_init 0 0 1 1 0 None))
                  = Some cs
         ∧ deref_all merge_store (children_values cs) = Some kids
         ∧ length kids = 4
         ∧ Forall (λ k, is_leaf k = true) kids
         ∧ (sum (load <$> kids) < 10)%Q)
    ∧ (∀ cs kids,
         children (set_children (Some (1, 2, 3, 4)) (Node_init 0 0 1 1 0 None)) = Some cs →
         deref_all merge_store (children_values cs) = Some kids →
         Exists (λ k, is_leaf k = false) kids → b = false).
Proof.
  apply (can_merge_iff merge_store 0 10
           (set_children (Some (1, 2, 3, 4)) (Node_init 0 0 1 1 0 None))).
  - reflexivity.
  - intros cs [= <-]. eexists. reflexivity.
Defined.

(** C9.  [_merge_repeatedly] on an internal node first runs on the four
    children, in order, and only then tests [can_merge] on the node, in the
    store the children's sweeps left, merging it when the test succeeds.
    So one call of [periodic_rebalance] on a reachable store returns and
    leaves no node of the tree that satisfies [can_merge]: a node that
    became mergeable because its children were merged during the pass has
    been merged in the same pass.  In particular a reachable tree whose
    total leaf load is strictly below [merge_threshold] collapses, in one
    call, to the single root leaf holding that total; so does the uniform
    two-level tree of total load 1 (sixteen leaves of load 1/16) with
    [merge_threshold = 2]. *)
Theorem periodic_rebalance_cascades :
  (∀ g fuel node (h : heap) n cs,
     h !! node = Some n → children n = Some cs →
     _merge_repeatedly g (S fuel) node h
     = (h1 ← for_each (_merge_repeatedly g fuel) (children_values cs) h;
        b ← can_merge h1 node (merge_threshold g);
        if (b : bool) then merge node h1 else Some h1))
  ∧ (∀ ml st mt df di h,
       reachable (fresh ml st mt df di).1 (fresh ml st mt df di).2 h →
       ∃ h', periodic_rebalance (fresh ml st mt df di).1 h = Some h'
         ∧ ∀ r, in_tree (fresh ml st mt df di).1 h' r →
             can_merge h' r (merge_threshold (fresh ml st mt df di).1) = Some false)
  ∧ (∀ ml st mt df di h,
       reachable (fresh ml st mt df di).1 (fresh ml st mt df di).2 h →
       ∃ T, subtree_load (S (length h)) h (root (fresh ml st mt df di).1) = Some T
         ∧ ((T < mt)%Q →
            ∃ h' n', periodic_rebalance (fresh ml st mt df di).1 h = Some h'
              ∧ h' !! root (fresh ml st mt df di).1 = Some n'
              ∧ is_leaf n' = true ∧ (load n' == T)%Q))
  ∧ (∃ h h' n',
       two_level_store = Some h
       ∧ get_leaves default_grid.1 h
         = Some [5; 6; 7; 8; 9; 10; 11; 12; 13; 14; 15; 16; 17; 18; 19; 20]
       ∧ Forall (λ r, ∃ n, h !! r = Some n ∧ level n = 2%Z ∧ (load n == 1 # 16)%Q)
                [5; 6; 7; 8; 9; 10; 11; 12; 13; 14; 15; 16; 17; 18; 19; 20]
       ∧ periodic_rebalance default_grid.1 h = Some h'
       ∧ get_leaves default_grid.1 h' = Some [root default_grid.1]
       ∧ h' !! root default_grid.1 = Some n'
       ∧ is_leaf n' = true ∧ (load n' == 1)%Q).
Proof.
  split; [| split; [| split]].
  - intros g fuel node h n cs. apply merge_repeatedly_internal.
  - intros ml st mt df di h Hr.
    pose proof (reachable_fresh_ok _ _ _ _ _ _ Hr) as Hok.
    pose proof Hok as (Hwf & nroot & Hroot & _).
    destruct (merge_repeatedly_is_Some (fresh ml st mt df di).1 (S (length h))
                (root (fresh ml st mt df di).1) h Hwf) as [h' Hm];
      [by eexists | lia |].
    exists h'. split; [done |].
    apply (merge_repeatedly_effect _ _ _ _ _ Hwf Hm).
  - intros ml st mt df di h Hr.
    pose proof (reachable_fresh_ok _ _ _ _ _ _ Hr) as Hok.
    pose proof Hok as (Hwf & nroot & Hroot & _).
    destruct (subtree_load_is_Some _ (S (length h)) h
                (root (fresh ml st mt df di).1) Hwf) as [T HT];
      [by eexists | lia |].
    exists T. split; [done |]. intros Hlt.
    destruct (merge_repeatedly_is_Some (fresh ml st mt df di).1 (S (length h))
                (root (fresh ml st mt df di).1) h Hwf) as [h' Hm];
      [by eexists | lia |].
    destruct (merge_repeatedly_collapse _ _ _ _ _ _ Hwf HT Hlt Hm)
      as (n' & Hn' & Hl' & Hload).
    by exists h', n'.
  - do 3 eexists. split; [vm_compute; reflexivity |].
    split; [vm_compute; reflexivity |].
    split; [repeat constructor; eexists; (split; [reflexivity |]); split; reflexivity |].
    split; [vm_compute; reflexivity |].
    split; [reflexivity |]. split; [reflexivity |]. split; reflexivity.
Qed.

Lemma periodic_rebalance_cascades_witness :
  (_merge_repeatedly merge_grid 5 0 merge_store
   = (h1 ← for_each (_merge_repeatedly merge_grid 4) (children_values (1, 2, 3, 4))
             merge_store;
      b ← can_merge h1 0 (merge_threshold merge_grid);
      if (b : bool) then merge 0 h1 else Some h1))
  ∧ (∃ h', periodic_rebalance low_split_grid.1 four_set_store = Some h'
       ∧ ∀ r, in_tree low_split_grid.1 h' r →
           can_merge h' r (merge_threshold low_split_grid.1) = Some false)
  ∧ (∃ T, subtree_load (S (length four_set_store)) four_set_store
            (root low_split_grid.1) = Some T
       ∧ ((T < 10)%Q →
          ∃ h' n', periodic_rebalance low_split_grid.1 four_set_store = Some h'
            ∧ h' !! root low_split_grid.1 = Some n'
            ∧ is_leaf n' = true ∧ (load n' == T)%Q)).
Proof.
  split; [| split].
  - eapply (proj1 periodic_rebalance_cascades merge_grid 4 0 merge_store); reflexivity.
  - apply (proj1 (proj2 periodic_rebalance_cascades) 6%Z 3%Q 10%Q (9 # 10)%Q 1%Q
             four_set_store).
    apply four_set_store_reachable.
  - apply (proj1 (proj2 (proj2 periodic_rebalance_cascades)) 6%Z 3%Q 10%Q (9 # 10)%Q 1%Q
             four_set_store).
    apply four_set_store_reachable.
Defined.

(** C10.  On a reachable store [decay_load(df)] returns; every leaf of the
    tree gets its load multiplied by [df], replaced by exactly [0] when the
    product is strictly below [1e-6]; every other object, internal nodes
    included, is left as it was.  Whatever the factor (so for every factor
    in (0, 1]) no load is negative afterwards.  From a single leaf of load
    1.0 (a default grid after one [get]) and factor 0.9, each of the first
    132 applications strictly decreases the load, which stays at or above
    [1e-6] through the 131st; the 132nd brings the product below [1e-6]
    and the load is exactly 0 from then on.  The same run computed in
    IEEE binary64 behaves the same way, step for step. *)
Theorem decay_load_effect :
  (∀ ml st mt df di h f,
     reachable (fresh ml st mt df di).1 (fresh ml st mt df di).2 h →
     ∃ h', decay_load (fresh ml st mt df di).1 f h = Some h'
       ∧ length h' = length h
       ∧ (∀ r n, h !! r = Some n →
            (in_tree (fresh ml st mt df di).1 h r → is_leaf n = true →
               h' !! r = Some (set_load
                 (if Qltb (load n * f) eps then 0 else load n * f)%Q n))
            ∧ (¬ in_tree (fresh ml st mt df di).1 h r ∨ is_leaf n = false →
               h' !! r = Some n))
       ∧ (∀ r n', h' !! r = Some n' → (0 <= load n')%Q))
  ∧ (run default_grid.1 (OpGet (1 # 2) (1 # 2)) default_grid.2 = Some one_load_store
     ∧ (∀ k, k < 132 →
          ∃ l l', root_load_after k = Some l ∧ root_load_after (S k) = Some l'
            ∧ (l' < l)%Q ∧ (eps <= l)%Q)
     ∧ (∀ k, 132 ≤ k → root_load_after k = Some 0%Q))
  ∧ ((∀ k, k < 132 →
        SFltb (b64_load_after (S k)) (b64_load_after k) = true
        ∧ SFltb (b64_load_after k) b64_1e_6 = false)
     ∧ (∀ k, 132 ≤ k → b64_load_after k = S754_zero false)).
Proof.
  split; [| split].
  - intros ml st mt df di h f Hr.
    pose proof (reachable_fresh_ok _ _ _ _ _ _ Hr) as Hok.
    pose proof Hok as (Hwf & nroot & Hroot & _).
    destruct (decay_spec _ f (S (length h)) (root (fresh ml st mt df di).1) h Hwf)
      as (h' & Hd & Hlen & Heff); [by eexists | lia |].
    exists h'. split; [done |]. split; [done |]. split; [done |].
    intros r n' Hn'. destruct (decay_maintains _ _ _ _ _ _ Hwf Hd) as [Hwf' _].
    apply (ok_load _ _ _ _ (Hwf' _ _ Hn')).
  - split; [reflexivity |]. split.
    + intros k Hk. pose proof decay_steps_ok as Hall.
      rewrite forallb_forall in Hall.
      assert (Hin : In k (seq 0 132)) by (apply in_seq; lia).
      specialize (Hall k Hin). unfold decay_step_ok in Hall.
      destruct (root_load_after k) as [l|]; [| done].
      destruct (root_load_after (S k)) as [l'|]; [| done].
      apply andb_true_iff in Hall as [Hlt Hle].
      exists l, l'. split; [done |]. split; [done |].
      split; [by apply Qltb_lt | by apply Qle_bool_iff].
    + intros k Hk. unfold root_load_after.
      replace k with ((k - 132) + 132) by lia.
      rewrite repeat_op_add, decay_settled. simpl.
      rewrite repeat_op_fixed; [done | reflexivity].
  - split; [| apply b64_settled].
    intros k Hk. pose proof b64_steps_ok as Hall.
    rewrite forallb_forall in Hall.
    assert (Hin : In k (seq 0 132)) by (apply in_seq; lia).
    specialize (Hall k Hin). unfold b64_step_ok in Hall.
    apply andb_true_iff in Hall as [Hlt Hge].
    split; [done | by apply negb_true_iff].
Qed.

Lemma decay_load_effect_witness :
  ∃ h', decay_load default_grid.1 (9 # 10) one_load_store = Some h'
    ∧ length h' = length one_load_store
    ∧ (∀ r n, one_load_store !! r = Some n →
         (in_tree default_grid.1 one_load_store r → is_leaf n = true →
            h' !! r = Some (set_load
              (if Qltb (load n * (9 # 10)) eps then 0 else load n * (9 # 10))%Q n))
         ∧ (¬ in_tree default_grid.1 one_load_store r ∨ is_leaf n = false →
            h' !! r = Some n))
    ∧ (∀ r n', h' !! r = Some n' → (0 <= load n')%Q).
Proof.
  apply (proj1 decay_load_effect 6%Z 5%Q 2%Q (9 # 10)%Q 1%Q one_load_store (9 # 10)%Q).
  eapply rtc_l; [| apply rtc_refl].
  exists (OpGet (1 # 2) (1 # 2)). reflexivity.
Defined.

(** * Further properties of the code *)

(** X1.  On a reachable store [get_leaves] lists every leaf once, and for
    every point accepted by [validate_coord] exactly one listed leaf
    contains it: the leaves tile the unit square.  That leaf is the node
    [_find_leaf] returns for the point. *)
Theorem leaves_tile_unit_square (ml : Z) (st mt df di : Q) (h : heap) (x y : Q) :
  reachable (fresh ml st mt df di).1 (fresh ml st mt df di).2 h →
  in_unit x → in_unit y →
  ∃ ls leaf nl,
    get_leaves (fresh ml st mt df di).1 h = Some ls
    ∧ NoDup ls
    ∧ leaf ∈ ls ∧ h !! leaf = Some nl ∧ contains nl x y = true
    ∧ (∀ r n, r ∈ ls → h !! r = Some n → contains n x y = true → r = leaf)
    ∧ _find_leaf h (root (fresh ml st mt df di).1) x y = Some leaf.
Proof.
  intros Hr Hx Hy. pose proof (reachable_fresh_ok _ _ _ _ _ _ Hr) as Hok.
  pose proof Hok as (Hwf & nroot & Hroot & _).
  destruct (gather_spec _ (S (length h)) h (root (fresh ml st mt df di).1) Hwf)
    as (ls & Hg & Hspec); [by eexists | lia |].
  destruct (find_leaf_spec _ _ _ _ Hok Hx Hy) as (leaf & nl & Hf & Hl & Hleaf & Hc & Ht).
  exists ls, leaf, nl. split; [done |].
  split; [by eapply gather_NoDup |].
  split; [apply Hspec; split; [done | by exists nl] |].
  split; [done |]. split; [done |]. split; [| done].
  intros r n Hin Hn Hcn. apply Hspec in Hin as (Hd & n' & Hn' & Hleaf').
  rewrite Hn in Hn'. injection Hn' as <-.
  by eapply (leaf_containing_unique _ _ _ _ _ _ _ _ _ Hwf Hd Ht).
Qed.

Lemma leaves_tile_unit_square_witness :
  ∃ ls leaf nl,
    get_leaves low_split_grid.1 four_set_store = Some ls
    ∧ NoDup ls
    ∧ leaf ∈ ls ∧ four_set_store !! leaf = Some nl
    ∧ contains nl (1 # 4) (3 # 4) = true
    ∧ (∀ r n, r ∈ ls → four_set_store !! r = Some n →
         contains n (1 # 4) (3 # 4) = true → r = leaf)
    ∧ _find_leaf four_set_store (root low_split_grid.1) (1 # 4) (3 # 4) = Some leaf.
Proof.
  apply (leaves_tile_unit_square 6%Z 3%Q 10%Q (9 # 10)%Q 1%Q four_set_store).
  - apply four_set_store_reachable.
  - split; reflexivity || discriminate.
  - split; reflexivity || discriminate.
Defined.

(** X2.  On a grid built on the default unit square with
    [max_level <= 52], every node of a reachable tree is a square cell of
    side [2 ^ - level] inside the unit square, at a level between 0 and
    52 (so that its bounds are multiples of [2 ^ -52] in [0, 1], which
    binary64 holds exactly); the children of an internal node sit one level
    down on its four quadrants, in the order lower-left, lower-right,
    upper-left, upper-right. *)
Theorem tree_cells_are_dyadic_squares (ml : Z) (st mt df di : Q) (h : heap) (r : ref) :
  (ml <= 52)%Z →
  reachable (fresh ml st mt df di).1 (fresh ml st mt df di).2 h →
  in_tree (fresh ml st mt df di).1 h r →
  ∃ n, h !! r = Some n
    ∧ (0 <= level n <= 52)%Z
    ∧ (x_max n - x_min n == (1 # 2) ^ level n)%Q
    ∧ (y_max n - y_min n == (1 # 2) ^ level n)%Q
    ∧ (0 <= x_min n)%Q ∧ (x_max n <= 1)%Q ∧ (0 <= y_min n)%Q ∧ (y_max n <= 1)%Q
    ∧ ∀ cs i, children n = Some cs → i < 4 →
        ∃ nc, h !! quad_nth cs i = Some nc
          ∧ level nc = (level n + 1)%Z
          ∧ bounds nc = quadrant_bounds n i.
Proof.
  intros Hml Hr Ht. pose proof (reachable_fresh_ok _ _ _ _ _ _ Hr) as Hok.
  destruct (in_tree_valid _ _ _ Hok Ht) as [n Hn]. exists n. split; [done |].
  destruct (tree_cell_ok _ _ _ _ Hok (reachable_fresh_unit_root _ _ _ _ _ _ Hr) Ht Hn)
    as (? & ? & ? & ? & ? & ? & ?).
  pose proof (ok_level _ _ _ _ (proj1 Hok _ _ Hn)) as Hlv.
  change (max_level (fresh ml st mt df di).1) with ml in Hlv.
  split; [lia |]. do 6 (split; [done |]). intros cs i Hcs Hi.
  destruct (ok_children _ _ _ _ (proj1 Hok _ _ Hn) cs Hcs) as [_ Hq].
  destruct (quad_ok_nth _ _ _ _ _ Hq Hi) as (_ & nc & Hnc & _ & Hl & Hb).
  by exists nc.
Qed.

Lemma tree_cells_are_dyadic_squares_witness :
  ∃ n, four_set_store !! 3 = Some n
    ∧ (0 <= level n <= 52)%Z
    ∧ (x_max n - x_min n == (1 # 2) ^ level n)%Q
    ∧ (y_max n - y_min n == (1 # 2) ^ level n)%Q
    ∧ (0 <= x_min n)%Q ∧ (x_max n <= 1)%Q ∧ (0 <= y_min n)%Q ∧ (y_max n <= 1)%Q
    ∧ ∀ cs i, children n = Some cs → i < 4 →
        ∃ nc, four_set_store !! quad_nth cs i = Some nc
          ∧ level nc = (level n + 1)%Z
          ∧ bounds nc = quadrant_bounds n i.
Proof.
  apply (tree_cells_are_dyadic_squares 6%Z 3%Q 10%Q (9 # 10)%Q 1%Q four_set_store 3).
  - lia.
  - apply four_set_store_reachable.
  - eapply rtc_l; [| apply rtc_refl]. eexists _, (1, 2, 3, 4).
    split; [reflexivity |]. split; [reflexivity |]. in_quad.
Defined.

(** X3.  The [parent] back-references of a reachable tree are consistent:
    the root has no parent, every child of a tree node names that node as
    its parent, no node is the child of two nodes, and no node is below
    itself through another node. *)
Theorem parent_links_consistent (ml : Z) (st mt df di : Q) (h : heap) :
  reachable (fresh ml st mt df di).1 (fresh ml st mt df di).2 h →
  (∃ n, h !! root (fresh ml st mt df di).1 = Some n ∧ parent n = None)
  ∧ (∀ a c, child_of h a c → ∃ nc, h !! c = Some nc ∧ parent nc = Some a)
  ∧ (∀ a b c, child_of h a c → child_of h b c → a = b)
  ∧ (∀ a b, desc h a b → desc h b a → a = b).
Proof.
  intros Hr. pose proof (reachable_fresh_ok _ _ _ _ _ _ Hr) as Hok.
  pose proof (proj1 Hok) as Hwf.
  assert (Hpar : ∀ a c, child_of h a c → ∃ nc, h !! c = Some nc ∧ parent nc = Some a).
  { intros a c Hc. destruct (child_of_facts _ _ _ _ Hwf Hc)
      as (_ & na & nc & _ & Hnc & Hp & _). by exists nc. }
  split; [| split; [done | split]].
  - destruct (reachable_root_parent _ _ _ (Node_init 0 0 1 1 0 None)
                (fresh_grid_ok ml st mt df di) eq_refl Hr) as (n & Hn & Hp).
    by exists n.
  - intros a b c Ha Hb. destruct (Hpar _ _ Ha) as (nc & Hnc & Hp).
    destruct (Hpar _ _ Hb) as (nc' & Hnc' & Hp'). congruence.
  - intros a b. by apply (desc_antisym _ _ _ _ Hwf).
Qed.

Lemma parent_links_consistent_witness :
  (∃ n, four_set_store !! root low_split_grid.1 = Some n ∧ parent n = None)
  ∧ (∀ a c, child_of four_set_store a c →
       ∃ nc, four_set_store !! c = Some nc ∧ parent nc = Some a)
  ∧ (∀ a b c, child_of four_set_store a c → child_of four_set_store b c → a = b)
  ∧ (∀ a b, desc four_set_store a b → desc four_set_store b a → a = b).
Proof.
  apply (parent_links_consistent 6%Z 3%Q 10%Q (9 # 10)%Q 1%Q four_set_store).
  apply four_set_store_reachable.
Defined.

(** X4.  [periodic_rebalance] is idempotent on reachable stores: a second
    sweep right after the first changes nothing. *)
Theorem periodic_rebalance_idempotent (ml : Z) (st mt df di : Q) (h : heap) :
  reachable (fresh ml st mt df di).1 (fresh ml st mt df di).2 h →
  ∃ h', periodic_rebalance (fresh ml st mt df di).1 h = Some h'
    ∧ periodic_rebalance (fresh ml st mt df di).1 h' = Some h'.
Proof.
  intros Hr. pose proof (reachable_fresh_ok _ _ _ _ _ _ Hr) as Hok.
  pose proof Hok as (Hwf & nroot & Hroot & _).
  destruct (merge_repeatedly_is_Some (fresh ml st mt df di).1 (S (length h))
              (root (fresh ml st mt df di).1) h Hwf) as [h' Hm];
    [by eexists | lia |].
  exists h'. split; [done |].
  destruct (merge_repeatedly_maintains _ _ _ _ _ Hwf Hm) as [Hwf' [Hlen Hs]].
  destruct (merge_repeatedly_effect _ _ _ _ _ Hwf Hm) as [_ Hpost].
  destruct (Hs _ _ Hroot) as (nroot' & Hroot' & _).
  unfold periodic_rebalance.
  apply merge_repeatedly_noop; [done | by eexists | lia | done].
Qed.

Lemma periodic_rebalance_idempotent_witness :
  ∃ h', periodic_rebalance low_split_grid.1 four_set_store = Some h'
    ∧ periodic_rebalance low_split_grid.1 h' = Some h'.
Proof.
  apply (periodic_rebalance_idempotent 6%Z 3%Q 10%Q (9 # 10)%Q 1%Q four_set_store).
  apply four_set_store_reachable.
Defined.

(** X5.  With [merge_threshold <= 0] nothing ever merges: loads are never
    negative, so no sum of children's loads is strictly below the
    threshold and [periodic_rebalance] returns the store unchanged. *)
Theorem no_merge_below_zero_threshold (ml : Z) (st mt df di : Q) (h : heap) :
  (mt <= 0)%Q →
  reachable (fresh ml st mt df di).1 (fresh ml st mt df di).2 h →
  periodic_rebalance (fresh ml st mt df di).1 h = Some h.
Proof.
  intros Hmt Hr. pose proof (reachable_fresh_ok _ _ _ _ _ _ Hr) as Hok.
  pose proof Hok as (Hwf & nroot & Hroot & _).
  unfold periodic_rebalance.
  apply merge_repeatedly_noop; [done | by eexists | lia |].
  intros r Hd. eapply can_merge_nonpositive; [done | | done].
  eapply desc_valid; [done | by eexists | done].
Qed.

Lemma no_merge_below_zero_threshold_witness :
  periodic_rebalance zero_merge_grid.1 four_set_store = Some four_set_store.
Proof.
  apply (no_merge_below_zero_threshold 6%Z 3%Q 0%Q (9 # 10)%Q 1%Q four_set_store).
  - discriminate.
  - apply four_set_store_reachable_zero.
Defined.

(** X6.  No load ever lies strictly between 0 and [1e-6]: in a reachable
    store the load of every node, hence of every element of [get_leaves],
    is zero or at least [1e-6].  ([get] and [set] bring a load to at least
    1, a split hands out quarters of a load that is at least 1, a merge
    adds such loads up, and [decay_load] clamps.) *)
Theorem loads_zero_or_above_eps (ml : Z) (st mt df di : Q) (h : heap) (r : ref) (n : Node) :
  reachable (fresh ml st mt df di).1 (fresh ml st mt df di).2 h →
  h !! r = Some n →
  (load n == 0)%Q ∨ (1 # 1000000 <= load n)%Q.
Proof.
  intros Hr Hn.
  eapply (gap_ok_reachable _ _ _ (fresh_grid_ok ml st mt df di)); [| done | done].
  intros r' n' Hn'. destruct r' as [|r']; [| done]. injection Hn' as <-. by left.
Qed.

Lemma loads_zero_or_above_eps_witness :
  (4 # 4 == 0)%Q ∨ (1 # 1000000 <= 4 # 4)%Q.
Proof.
  apply (loads_zero_or_above_eps 6%Z 3%Q 10%Q (9 # 10)%Q 1%Q four_set_store 1
           (set_load (4 # 4)%Q (Node_init 0 0 (1 # 2) (1 # 2) 1 (Some 0%nat)))).
  - apply four_set_store_reachable.
  - reflexivity.
Defined.

(** X10.  A split followed by a merge of the same node gives the node
    back: it is a leaf again, with its bounds, level and parent, and with
    a load equal to the one it had; the other objects that existed before
    are untouched and the four children stay behind in the store,
    unreferenced. *)
Theorem subdivide_then_merge_restores (h : heap) (self : ref) (n : Node) :
  h !! self = Some n → is_leaf n = true →
  ∃ h1 h2 n2,
    subdivide self h = Some h1 ∧ merge self h1 = Some h2
    ∧ length h2 = length h + 4
    ∧ h2 !! self = Some n2 ∧ is_leaf n2 = true
    ∧ same_geometry n n2 ∧ (load n2 == load n)%Q
    ∧ ∀ r, r ≠ self → r < length h → h2 !! r = h !! r.
Proof.
  intros Hn Hleaf.
  destruct (subdivide_spec _ _ _ Hn) as (h1 & Hs & Hlen & Hself & Hother & Hnew).
  pose proof (subdivide_kids _ _ _ _ Hn Hs) as Hk.
  destruct (merge_spec _ _ _ (new_quad h) _ Hself eq_refl Hk)
    as (h2 & Hm & Hlen2 & Hself2 & Hother2).
  eexists h1, h2, _. split; [done |]. split; [done |].
  split; [lia |]. split; [exact Hself2 |]. split; [done |]. split; [| split].
  - repeat split; by destruct n.
  - cbn [load set_load fmap list_fmap]. rewrite !new_child_load, sum_four. field.
  - intros r Hne Hlt. rewrite Hother2 by done. by apply Hother.
Qed.

Lemma subdivide_then_merge_restores_witness :
  ∃ h1 h2 n2,
    subdivide 0 one_load_store = Some h1 ∧ merge 0 h1 = Some h2
    ∧ length h2 = length one_load_store + 4
    ∧ h2 !! 0 = Some n2 ∧ is_leaf n2 = true
    ∧ same_geometry (set_load 1%Q (Node_init 0 0 1 1 0 None)) n2
    ∧ (load n2 == load (set_load 1%Q (Node_init 0 0 1 1 0 None)))%Q
    ∧ ∀ r, r ≠ 0 → r < length one_load_store → h2 !! r = one_load_store !! r.
Proof.
  apply (subdivide_then_merge_restores one_load_store 0
           (set_load 1%Q (Node_init 0 0 1 1 0 None))); reflexivity.
Defined.

(** X11.  [get_leaves] returns at least one and at most [4 ^ max_level]
    leaves (one leaf when [max_level] is negative): the depth cap bounds
    the size of the tree. *)
Theorem leaves_at_most_four_pow_max_level (ml : Z) (st mt df di : Q) (h : heap) :
  reachable (fresh ml st mt df di).1 (fresh ml st mt df di).2 h →
  ∃ ls, get_leaves (fresh ml st mt df di).1 h = Some ls
    ∧ 1 ≤ length ls
    ∧ (Z.of_nat (length ls) <= 4 ^ Z.max 0 ml)%Z.
Proof.
  intros Hr. pose proof (reachable_fresh_ok _ _ _ _ _ _ Hr) as Hok.
  pose proof Hok as (Hwf & nroot & Hroot & _ & Hlv).
  pose proof (lookup_lt_Some _ _ _ Hroot) as Hlt.
  destruct (gather_spec _ (S (length h)) h (root (fresh ml st mt df di).1) Hwf)
    as (ls & Hg & _); [by eexists | lia |].
  exists ls. split; [done |].
  destruct (gather_length _ _ _ _ _ _ Hwf Hroot Hg) as [H1 H2].
  rewrite Hlv, Z.sub_0_r in H2. done.
Qed.

Lemma leaves_at_most_four_pow_max_level_witness :
  ∃ ls, get_leaves low_split_grid.1 four_set_store = Some ls
    ∧ 1 ≤ length ls
    ∧ (Z.of_nat (length ls) <= 4 ^ Z.max 0 6)%Z.
Proof.
  apply (leaves_at_most_four_pow_max_level 6%Z 3%Q 10%Q (9 # 10)%Q 1%Q four_set_store).
  apply four_set_store_reachable.
Defined.

(** X12.  A sweep never merges a node whose four children are leaves
    holding at least [merge_threshold] between them: after
    [periodic_rebalance] the node is the object it was, and so are its
    children, whatever was merged elsewhere in the tree. *)
Theorem heavy_node_survives_sweep (ml : Z) (st mt df di : Q) (h : heap)
    (a : ref) (n : Node) (cs : quad) (kids : list Node) :
  reachable (fresh ml st mt df di).1 (fresh ml st mt df di).2 h →
  h !! a = Some n → children n = Some cs →
  deref_all h (children_values cs) = Some kids →
  Forall (λ k, is_leaf k = true) kids →
  (mt <= sum (load <$> kids))%Q →
  ∃ h', periodic_rebalance (fresh ml st mt df di).1 h = Some h'
    ∧ h' !! a = Some n
    ∧ deref_all h' (children_values cs) = Some kids.
Proof.
  intros Hr Ha Hcs Hk Hleaves Hsum.
  pose proof (reachable_fresh_ok _ _ _ _ _ _ Hr) as Hok.
  destruct (run_is_Some _ OpPeriodicRebalance _ Hok) as [h' Hp].
  exists h'. split; [done |].
  revert Hp. simpl. unfold periodic_rebalance.
  apply (merge_repeatedly_inv
           (λ hx, hx !! a = Some n ∧ deref_all hx (children_values cs) = Some kids));
    [| done].
  intros m h1 h2 [Ha1 Hk1] Hcm Hm.
  exact (heavy_survives_merge _ _ _ _ _ _ _ _ Ha1 Hcs Hk1 Hleaves Hsum Hcm Hm).
Qed.

Lemma heavy_node_survives_sweep_witness :
  ∃ h', periodic_rebalance zero_merge_grid.1 four_set_store = Some h'
    ∧ h' !! 0 = Some (set_children (Some (1, 2, 3, 4)) (Node_init 0 0 1 1 0 None))
    ∧ deref_all h' (children_values (1, 2, 3, 4))
      = Some [ set_load (4 # 4)%Q (Node_init 0 0 (1 # 2) (1 # 2) 1 (Some 0));
               set_load (4 # 4)%Q (Node_init (1 # 2) 0 1 (1 # 2) 1 (Some 0));
               set_load (4 # 4)%Q (Node_init 0 (1 # 2) (1 # 2) 1 1 (Some 0));
               set_load (4 # 4)%Q (Node_init (1 # 2) (1 # 2) 1 1 1 (Some 0)) ].
Proof.
  apply (heavy_node_survives_sweep 6%Z 3%Q 0%Q (9 # 10)%Q 1%Q four_set_store 0
           (set_children (Some (1, 2, 3, 4)) (Node_init 0 0 1 1 0 None)) (1, 2, 3, 4)).
  - apply four_set_store_reachable_zero.
  - reflexivity.
  - reflexivity.
  - reflexivity.
  - repeat constructor.
  - discriminate.
Defined.

(** X13.  An idle grid drains and collapses.  Take a grid built on the
    default unit square with a decay factor in [0, 1), and any store it
    reaches by calls whose decay factors lie in [0, 1].  There is a number
    of turns of [LoadDecayThread.run] after which, if no [get] or [set]
    comes in between, every node of the tree holds load 0; and if
    [merge_threshold] is positive, the next turn of
    [GlobalAdaptiveController.run] then leaves the root as a single empty
    leaf. *)
Theorem idle_grid_drains (ml : Z) (st mt df di : Q) (h : heap) :
  reachable_moderate (fresh ml st mt df di).1 (fresh ml st mt df di).2 h →
  (0 <= df)%Q → (df < 1)%Q →
  ∃ K, ∀ k, K ≤ k →
    ∃ h', turns (LoadDecayThread_run_turn (fresh ml st mt df di).1) k h = Some h'
      ∧ (∀ r n, in_tree (fresh ml st mt df di).1 h' r → h' !! r = Some n →
           (load n == 0)%Q)
      ∧ ((0 < mt)%Q →
         ∃ h'' n,
           GlobalAdaptiveController_run_turn (fresh ml st mt df di).1 h' = Some h''
           ∧ h'' !! root (fresh ml st mt df di).1 = Some n
           ∧ is_leaf n = true ∧ (load n == 0)%Q).
Proof.
  intros Hr Hd0 Hd1. apply reachable_moderate_reachable in Hr.
  pose proof (reachable_fresh_ok _ _ _ _ _ _ Hr) as Hok.
  pose proof (reachable_fresh_gap_ok _ _ _ _ _ _ Hr) as Hgap.
  destruct (idle_drains _ _ Hok Hgap Hd0 Hd1) as [K HK].
  exists K. intros k Hk.
  destruct (HK k Hk) as (h' & Ht & _ & _ & Hall & Hcol).
  exists h'. split; [done |]. split; [done |]. exact Hcol.
Qed.

Lemma idle_grid_drains_witness :
  ∃ K, ∀ k, K ≤ k →
    ∃ h', turns (LoadDecayThread_run_turn low_split_grid.1) k four_set_store = Some h'
      ∧ (∀ r n, in_tree low_split_grid.1 h' r → h' !! r = Some n →
           (load n == 0)%Q)
      ∧ ((0 < 10)%Q →
         ∃ h'' n,
           GlobalAdaptiveController_run_turn low_split_grid.1 h' = Some h''
           ∧ h'' !! root low_split_grid.1 = Some n
           ∧ is_leaf n = true ∧ (load n == 0)%Q).
Proof.
  apply (idle_grid_drains 6%Z 3%Q 10%Q (9 # 10)%Q 1%Q four_set_store).
  - apply four_set_store_moderate.
  - discriminate.
  - reflexivity.
Defined.

(** X14.  What holds in every state of every run of the main program,
    whatever the interleaving of the workers, the decay thread, the
    controller, the slider callbacks and the animation: the root and
    [max_level = 6] never change; every node of the tree is a square of
    side [(1/2)^level] inside the unit square, at a level between 0 and 6;
    its load is not negative, is zero or at least [1e-6], and is exactly 0
    when the node is internal.  Changing the thresholds or the decay
    factor through the sliders never breaks this. *)
Theorem program_invariant (p : program) :
  running p →
  root (prog_grid p) = 0 ∧ max_level (prog_grid p) = 6%Z
  ∧ ∀ r n, in_tree (prog_grid p) (prog_store p) r → prog_store p !! r = Some n →
      cell_ok n ∧ (level n <= 6)%Z
      ∧ (0 <= load n)%Q ∧ ((load n == 0)%Q ∨ (1 # 1000000 <= load n)%Q)
      ∧ (is_leaf n = false → load n = 0%Q).
Proof.
  intros Hr. destruct (running_ok _ Hr) as (Hok & Hgap & Hroot & Hml & Hunit).
  split; [done |]. split; [done |]. intros r n Ht Hn.
  pose proof (proj1 Hok _ _ Hn) as [Hl Hi Hlv _]. rewrite Hml in Hlv.
  split; [by eapply tree_cell_ok |]. split; [lia |]. split; [done |].
  split; [exact (Hgap _ _ Hn) | done].
Qed.

Lemma program_invariant_witness :
  root (prog_grid busy_program) = 0 ∧ max_level (prog_grid busy_program) = 6%Z
  ∧ ∀ r n, in_tree (prog_grid busy_program) (prog_store busy_program) r →
      prog_store busy_program !! r = Some n →
      cell_ok n ∧ (level n <= 6)%Z
      ∧ (0 <= load n)%Q ∧ ((load n == 0)%Q ∨ (1 # 1000000 <= load n)%Q)
      ∧ (is_leaf n = false → load n = 0%Q).
Proof.
  apply (program_invariant busy_program). apply busy_program_running.
Defined.

(** X15.  No action of the running program fails.  In every state of
    every run: a worker's [grid.set(x, y)] on samples of
    [random.uniform(0.45, 0.55)] returns normally, it never raises
    [ValueError]; every critical section is defined and leads to a state
    of a run again (a [decay_load] call once its argument has been read);
    the slider callbacks run to their end and leave the threshold at
    [int(val)]; and any number of turns of the decay thread, of the
    controller or of a worker run to their end. *)
Theorem program_never_fails (p : program) :
  running p →
  (∀ x y, sample x → sample y →
     ∃ h', set (prog_grid p) x y (prog_store p) = Some (Returns tt, h'))
  ∧ (∀ a, allowed a → (a = call_decay_load → is_Some (prog_decay_arg p)) →
       ∃ p', act a p = Some p' ∧ running p')
  ∧ (∀ val, ∃ p', acts (slider_split_cb val) p = Some p' ∧ running p'
       ∧ split_threshold (prog_grid p') = inject_Z (py_int val))
  ∧ (∀ val, ∃ p', acts (slider_merge_cb val) p = Some p' ∧ running p'
       ∧ merge_threshold (prog_grid p') = inject_Z (py_int val))
  ∧ (∀ k, ∃ p', acts (LoadDecayThread_run k) p = Some p' ∧ running p')
  ∧ (∀ k, ∃ p', acts (GlobalAdaptiveController_run k) p = Some p' ∧ running p')
  ∧ (∀ samples, Forall (λ xy, sample xy.1 ∧ sample xy.2) samples →
       ∃ p', acts (worker_loop samples) p = Some p' ∧ running p').
Proof.
  intros Hr. pose proof (running_ok _ Hr) as Hpok. pose proof Hpok as (Hok & _).
  assert (Hact : ∀ q a, running q → allowed a →
            (a = call_decay_load → is_Some (prog_decay_arg q)) →
            ∃ q', act a q = Some q' ∧ running q').
  { intros q a Hq Hal Harg.
    destruct (act_is_Some a q (running_ok _ Hq) Harg) as [q' Hq'].
    exists q'. split; [done |]. by eapply running_act. }
  split; [| split; [| split; [| split; [| split; [| split]]]]].
  - intros x y Hx Hy.
    destruct (set_returns _ _ _ _ Hok (sample_in_unit _ Hx) (sample_in_unit _ Hy))
      as (_ & _ & h' & _ & _ & _ & _ & _ & Hs).
    by exists h'.
  - intros a. apply Hact, Hr.
  - intros val.
    set (p1 := mkProgram (set_split_threshold (inject_Z (py_int val)) (prog_grid p))
                 (prog_store p) (prog_decay_arg p)).
    assert (Hr1 : running p1) by (by apply (running_act (assign_split_threshold val) p)).
    destruct (Hact p1 call_periodic_rebalance Hr1 I ltac:(done)) as (p2 & Hp2 & Hr2).
    exists p2. split; [| split; [done |]].
    + unfold slider_split_cb. cbn [acts].
      change (act (assign_split_threshold val) p) with (Some p1). simpl.
      simpl in Hp2. by rewrite Hp2.
    + cbn [act] in Hp2.
      destruct (periodic_rebalance (prog_grid p1) (prog_store p1)) as [h|]; [| done].
      simpl in Hp2. by injection Hp2 as <-.
  - intros val.
    set (p1 := mkProgram (set_merge_threshold (inject_Z (py_int val)) (prog_grid p))
                 (prog_store p) (prog_decay_arg p)).
    assert (Hr1 : running p1) by (by apply (running_act (assign_merge_threshold val) p)).
    destruct (Hact p1 call_periodic_rebalance Hr1 I ltac:(done)) as (p2 & Hp2 & Hr2).
    exists p2. split; [| split; [done |]].
    + unfold slider_merge_cb. cbn [acts].
      change (act (assign_merge_threshold val) p) with (Some p1). simpl.
      simpl in Hp2. by rewrite Hp2.
    + cbn [act] in Hp2.
      destruct (periodic_rebalance (prog_grid p1) (prog_store p1)) as [h|]; [| done].
      simpl in Hp2. by injection Hp2 as <-.
  - intros k. apply acts_is_Some; [done | apply LoadDecayThread_run_ws].
  - intros k. apply acts_is_Some; [done | apply GlobalAdaptiveController_run_ws].
  - intros samples Hs. apply acts_is_Some; [done | by apply worker_loop_ws].
Qed.

Lemma program_never_fails_witness :
  (∀ x y, sample x → sample y →
     ∃ h', set (prog_grid busy_program) x y (prog_store busy_program)
           = Some (Returns tt, h'))
  ∧ (∀ a, allowed a →
       (a = call_decay_load → is_Some (prog_decay_arg busy_program)) →
       ∃ p', act a busy_program = Some p' ∧ running p')
  ∧ (∀ val, ∃ p', acts (slider_split_cb val) busy_program = Some p' ∧ running p'
       ∧ split_threshold (prog_grid p') = inject_Z (py_int val))
  ∧ (∀ val, ∃ p', acts (slider_merge_cb val) busy_program = Some p' ∧ running p'
       ∧ merge_threshold (prog_grid p') = inject_Z (py_int val))
  ∧ (∀ k, ∃ p', acts (LoadDecayThread_run k) busy_program = Some p' ∧ running p')
  ∧ (∀ k, ∃ p', acts (GlobalAdaptiveController_run k) busy_program = Some p'
       ∧ running p')
  ∧ (∀ samples, Forall (λ xy, sample xy.1 ∧ sample xy.2) samples →
       ∃ p', acts (worker_loop samples) busy_program = Some p' ∧ running p').
Proof.
  apply (program_never_fails busy_program). apply busy_program_running.
Defined.

(** X16.  On a grid built on any rectangle, a point that [validate_coord]
    accepts but that lies outside the rectangle is charged to the root
    itself, in every reachable store and as often as it is asked for: no
    child contains the point, the descent of [_find_leaf] stops at the
    root, [get] adds 1 to the root's load and returns it, and [set] adds 1
    to it without splitting when the root is an internal node.  The store
    so reached is a store of the grid again, so the load of an internal
    root grows with every such call. *)
Theorem outside_point_charged_to_root (xmin ymin xmax ymax : Q) (ml : Z)
    (st mt df di : Q) (h : heap) (x y : Q) :
  reachable (built xmin ymin xmax ymax ml st mt df di).1
    (built xmin ymin xmax ymax ml st mt df di).2 h →
  in_unit x → in_unit y →
  ¬ ((xmin <= x)%Q ∧ (x < xmax)%Q ∧ (ymin <= y)%Q ∧ (y < ymax)%Q) →
  ∃ n, h !! root (built xmin ymin xmax ymax ml st mt df di).1 = Some n
    ∧ _find_leaf h (root (built xmin ymin xmax ymax ml st mt df di).1) x y
      = Some (root (built xmin ymin xmax ymax ml st mt df di).1)
    ∧ get (built xmin ymin xmax ymax ml st mt df di).1 x y h
      = Some (Returns (load n + 1)%Q,
              alter (set_load (load n + 1)%Q)
                (root (built xmin ymin xmax ymax ml st mt df di).1) h)
    ∧ (is_leaf n = false →
       set (built xmin ymin xmax ymax ml st mt df di).1 x y h
       = Some (Returns tt,
               alter (set_load (load n + 1)%Q)
                 (root (built xmin ymin xmax ymax ml st mt df di).1) h))
    ∧ reachable (built xmin ymin xmax ymax ml st mt df di).1
        (built xmin ymin xmax ymax ml st mt df di).2
        (alter (set_load (load n + 1)%Q)
           (root (built xmin ymin xmax ymax ml st mt df di).1) h).
Proof.
  intros Hr Hx Hy Hout.
  destruct (reachable_built _ _ _ _ _ _ _ _ _ _ Hr) as (Hsh & n & Hn & Hb & _).
  pose proof (contains_outside _ _ _ _ _ _ _ Hb Hout) as Hc.
  pose proof (find_leaf_outside _ _ _ _ _ Hsh Hn Hc) as Hf.
  remember (built xmin ymin xmax ymax ml st mt df di).1 as g eqn:Hg.
  assert (Hget : get g x y h
                 = Some (Returns (load n + 1)%Q,
                         alter (set_load (load n + 1)%Q) (root g) h)).
  { unfold get.
    rewrite (proj2 (validate_coord_Returns x) Hx), (proj2 (validate_coord_Returns y) Hy).
    rewrite Hf. simpl. rewrite Hn. simpl. by rewrite list_lookup_alter_eq, Hn. }
  exists n. split; [done |]. split; [done |]. split; [done |]. split.
  - intros Hint. unfold set.
    rewrite (proj2 (validate_coord_Returns x) Hx), (proj2 (validate_coord_Returns y) Hy).
    rewrite Hf. simpl. rewrite Hn. simpl.
    unfold _rebalance. rewrite list_lookup_alter_eq, Hn. simpl.
    unfold is_leaf in *. simpl. rewrite Hint. by rewrite !andb_false_r.
  - eapply rtc_r; [exact Hr |]. exists (OpGet x y). simpl. by rewrite Hget.
Qed.

Lemma outside_point_charged_to_root_witness :
  ∃ n, charged_store !! root half_grid.1 = Some n
    ∧ _find_leaf charged_store (root half_grid.1) (1 # 4) (1 # 2)
      = Some (root half_grid.1)
    ∧ get half_grid.1 (1 # 4) (1 # 2) charged_store
      = Some (Returns (load n + 1)%Q,
              alter (set_load (load n + 1)%Q) (root half_grid.1) charged_store)
    ∧ (is_leaf n = false →
       set half_grid.1 (1 # 4) (1 # 2) charged_store
       = Some (Returns tt,
               alter (set_load (load n + 1)%Q) (root half_grid.1) charged_store))
    ∧ reachable half_grid.1 half_grid.2
        (alter (set_load (load n + 1)%Q) (root half_grid.1) charged_store).
Proof.
  apply (outside_point_charged_to_root (1 # 2)%Q 0%Q 1%Q 1%Q 6%Z 0%Q 2%Q (9 # 10)%Q 1%Q
           charged_store (1 # 4)%Q (1 # 2)%Q).
  - apply charged_store_reachable.
  - split; [discriminate | reflexivity].
  - split; [discriminate | reflexivity].
  - intros (H & _). apply H. reflexivity.
Defined.

(** X17.  [get] counts the hits of a cell: after a [get] that found a
    leaf and returned [v], a [get] at any point of that leaf's cell finds
    the same leaf and returns [v + 1]. *)
Theorem get_counts_hits (ml : Z) (st mt df di : Q) (h : heap) (x y : Q) :
  reachable (fresh ml st mt df di).1 (fresh ml st mt df di).2 h →
  in_unit x → in_unit y →
  ∃ leaf nl v h1,
    _find_leaf h (root (fresh ml st mt df di).1) x y = Some leaf
    ∧ h !! leaf = Some nl
    ∧ get (fresh ml st mt df di).1 x y h = Some (Returns v, h1)
    ∧ ∀ x' y', in_unit x' → in_unit y' → contains nl x' y' = true →
        ∃ h2, get (fresh ml st mt df di).1 x' y' h1 = Some (Returns (v + 1)%Q, h2).
Proof.
  intros Hr Hx Hy. pose proof (reachable_fresh_ok _ _ _ _ _ _ Hr) as Hok.
  destruct (get_returns _ _ _ _ Hok Hx Hy) as (leaf & nl & Hf & Hl & Hleaf & _ & Ht & Hget).
  exists leaf, nl, (load nl + 1)%Q, (alter (set_load (load nl + 1)%Q) leaf h).
  split; [done |]. split; [done |]. split; [done |].
  intros x' y' Hx' Hy' Hc.
  exact (get_again _ _ x' y' _ _ Hok Hx' Hy' Hl Hleaf Ht Hc).
Qed.

Lemma get_counts_hits_witness :
  ∃ leaf nl v h1,
    _find_leaf four_set_store (root low_split_grid.1) (1 # 4) (1 # 4) = Some leaf
    ∧ four_set_store !! leaf = Some nl
    ∧ get low_split_grid.1 (1 # 4) (1 # 4) four_set_store = Some (Returns v, h1)
    ∧ ∀ x' y', in_unit x' → in_unit y' → contains nl x' y' = true →
        ∃ h2, get low_split_grid.1 x' y' h1 = Some (Returns (v + 1)%Q, h2).
Proof.
  apply (get_counts_hits 6%Z 3%Q 10%Q (9 # 10)%Q 1%Q four_set_store (1 # 4)%Q (1 # 4)%Q).
  - apply four_set_store_reachable.
  - split; [discriminate | reflexivity].
  - split; [discriminate | reflexivity].
Defined.

(** X18.  In every state of a run of the main program, [update_anim]
    (called with [max_level = 6]) computes at least one rectangle and
    never divides by zero; every rectangle is a square of side
    [(1/2)^level] for a level between 0 and 6, lying inside the axes
    [0, 1] x [0, 1], coloured by [level / 7]; and the areas of the
    rectangles add up to 1: together with X1, the squares drawn tile the
    unit square. *)
Theorem update_anim_draws_tiling (p : program) :
  running p →
  ∃ patches, update_anim (prog_grid p) (prog_store p) 6 = Some (Drawn patches)
    ∧ patches ≠ []
    ∧ (sum ((λ q, width q * height q)%Q <$> patches) == 1)%Q
    ∧ ∀ q, q ∈ patches →
        ∃ l : Z, (0 <= l <= 6)%Z
          ∧ (width q == (1 # 2) ^ l)%Q ∧ (height q == (1 # 2) ^ l)%Q
          ∧ (shade q == inject_Z l / 7)%Q
          ∧ (0 <= (anchor q).1)%Q ∧ ((anchor q).1 + width q <= 1)%Q
          ∧ (0 <= (anchor q).2)%Q ∧ ((anchor q).2 + height q <= 1)%Q.
Proof.
  intros Hr. destruct (running_ok _ Hr) as (Hok & _ & _ & Hml & Hunit).
  destruct (leaves_nodes _ _ Hok Hunit) as (ls & kids & Hls & Hk & Hne & Hsum & Hall).
  exists (draw_leaf 6 <$> kids). unfold update_anim. rewrite Hls. simpl.
  rewrite Hk. simpl. split; [by destruct kids |]. split; [| split].
  - intros Hnil. by apply fmap_nil_inv in Hnil.
  - rewrite <- list_fmap_compose. exact Hsum.
  - intros q Hq. apply list_elem_of_fmap in Hq as (k & -> & Hkin).
    destruct (Hall k Hkin) as [(Hl & Hw & Hh & Hx0 & Hx1 & Hy0 & Hy1) Hlv].
    rewrite Hml in Hlv. exists (level k). simpl.
    split; [lia |]. split; [done |]. split; [done |]. split; [reflexivity |].
    repeat split; lra.
Qed.

Lemma update_anim_draws_tiling_witness :
  ∃ patches,
    update_anim (prog_grid busy_program) (prog_store busy_program) 6
    = Some (Drawn patches)
    ∧ patches ≠ []
    ∧ (sum ((λ q, width q * height q)%Q <$> patches) == 1)%Q
    ∧ ∀ q, q ∈ patches →
        ∃ l : Z, (0 <= l <= 6)%Z
          ∧ (width q == (1 # 2) ^ l)%Q ∧ (height q == (1 # 2) ^ l)%Q
          ∧ (shade q == inject_Z l / 7)%Q
          ∧ (0 <= (anchor q).1)%Q ∧ ((anchor q).1 + width q <= 1)%Q
          ∧ (0 <= (anchor q).2)%Q ∧ ((anchor q).2 + height q <= 1)%Q.
Proof.
  apply (update_anim_draws_tiling busy_program). apply busy_program_running.
Defined.

(** X19.  [update_anim] raises [ZeroDivisionError] exactly when it is
    called with [max_level = -1]: a reachable tree always has a leaf, and
    the colour of the first one divides by [max_level + 1].  With any
    other argument it returns one patch for each leaf. *)
Theorem update_anim_zero_division (ml : Z) (st mt df di : Q) (h : heap) (m : Z) :
  reachable (fresh ml st mt df di).1 (fresh ml st mt df di).2 h →
  (update_anim (fresh ml st mt df di).1 h m = Some ZeroDivisionError ↔ m = (-1)%Z)
  ∧ (m ≠ (-1)%Z →
     ∃ ls patches, get_leaves (fresh ml st mt df di).1 h = Some ls
       ∧ update_anim (fresh ml st mt df di).1 h m = Some (Drawn patches)
       ∧ length patches = length ls).
Proof.
  intros Hr. pose proof (reachable_fresh_ok _ _ _ _ _ _ Hr) as Hok.
  destruct (leaves_nodes _ _ Hok (reachable_fresh_unit_root _ _ _ _ _ _ Hr))
    as (ls & kids & Hls & Hk & Hne & _ & _).
  unfold update_anim. rewrite Hls. simpl. rewrite Hk. simpl.
  destruct kids as [|k kids]; [done |].
  destruct (m + 1 =? 0)%Z eqn:Hm.
  - apply Z.eqb_eq in Hm. split; [split; [lia | done] | lia].
  - apply Z.eqb_neq in Hm. split; [split; [done | lia] |].
    intros _. exists ls, (draw_leaf m <$> k :: kids). split; [done |]. split; [done |].
    rewrite length_fmap. apply mapM_Some, Forall2_length in Hk. done.
Qed.

Lemma update_anim_zero_division_witness :
  (update_anim low_split_grid.1 four_set_store (-1) = Some ZeroDivisionError
   ↔ (-1)%Z = (-1)%Z)
  ∧ ((-1)%Z ≠ (-1)%Z →
     ∃ ls patches, get_leaves low_split_grid.1 four_set_store = Some ls
       ∧ update_anim low_split_grid.1 four_set_store (-1) = Some (Drawn patches)
       ∧ length patches = length ls).
Proof.
  apply (update_anim_zero_division 6%Z 3%Q 10%Q (9 # 10)%Q 1%Q four_set_store (-1)%Z).
  apply four_set_store_reachable.
Defined.

(** X20.  What a call of [set] with valid coordinates does on a grid built
    on the default unit square, in every reachable store, in full.  It
    finds the leaf that contains the point and adds 1 to its load; if the
    new load exceeds [split_threshold] and the leaf's level is below
    [max_level] it splits that leaf once, into four new leaves one level
    down that hold a quarter of the new load each, and these are not split
    again in the same call, whatever their load; otherwise it does nothing
    more.  No other object that existed before is changed. *)
Theorem set_splits_once_under_guard (ml : Z) (st mt df di : Q) (h : heap) (x y : Q) :
  reachable (fresh ml st mt df di).1 (fresh ml st mt df di).2 h →
  in_unit x → in_unit y →
  ∃ leaf nl h',
    _find_leaf h (root (fresh ml st mt df di).1) x y = Some leaf
    ∧ h !! leaf = Some nl ∧ is_leaf nl = true ∧ contains nl x y = true
    ∧ set (fresh ml st mt df di).1 x y h = Some (Returns tt, h')
    ∧ (∀ r, r ≠ leaf → r < length h → h' !! r = h !! r)
    ∧ ((st < load nl + 1)%Q ∧ (level nl < ml)%Z →
       length h' = length h + 4
       ∧ (∃ n', h' !! leaf = Some n' ∧ load n' = 0%Q
            ∧ children n'
              = Some (length h, S (length h), S (S (length h)), S (S (S (length h)))))
       ∧ ∀ i, i < 4 →
           ∃ c, h' !! (length h + i) = Some c ∧ is_leaf c = true
             ∧ load c = ((load nl + 1) / 4)%Q ∧ level c = (level nl + 1)%Z
             ∧ parent c = Some leaf)
    ∧ (¬ ((st < load nl + 1)%Q ∧ (level nl < ml)%Z) →
       h' = alter (set_load (load nl + 1)%Q) leaf h).
Proof.
  intros Hr Hx Hy. pose proof (reachable_fresh_ok _ _ _ _ _ _ Hr) as Hok.
  destruct (set_effect _ _ _ _ Hok Hx Hy)
    as (leaf & nl & h' & Hf & Hl & Hleaf & Hc & Hset & Hframe & Hcases).
  exists leaf, nl, h'. do 6 (split; [done |]).
  change (split_threshold (fresh ml st mt df di).1) with st in Hcases.
  change (max_level (fresh ml st mt df di).1) with ml in Hcases.
  destruct Hcases as [(Hg & Hlen & Hself & Hkids) | [Hng ->]].
  - split; [| by intros Hng]. intros _. split; [done |]. split.
    + eexists. split; [exact Hself |]. done.
    + intros i Hi. eexists. split; [by apply Hkids |].
      unfold is_leaf.
      rewrite new_child_children, new_child_load, new_child_level, new_child_parent.
      done.
  - split; [by intros Hg | done].
Qed.

Lemma set_splits_once_under_guard_witness :
  ∃ leaf nl h',
    _find_leaf four_set_store (root low_split_grid.1) (1 # 4) (1 # 4) = Some leaf
    ∧ four_set_store !! leaf = Some nl ∧ is_leaf nl = true
    ∧ contains nl (1 # 4) (1 # 4) = true
    ∧ set low_split_grid.1 (1 # 4) (1 # 4) four_set_store = Some (Returns tt, h')
    ∧ (∀ r, r ≠ leaf → r < length four_set_store → h' !! r = four_set_store !! r)
    ∧ ((3 < load nl + 1)%Q ∧ (level nl < 6)%Z →
       length h' = length four_set_store + 4
       ∧ (∃ n', h' !! leaf = Some n' ∧ load n' = 0%Q
            ∧ children n'
              = Some (length four_set_store, S (length four_set_store),
                      S (S (length four_set_store)),
                      S (S (S (length four_set_store)))))
       ∧ ∀ i, i < 4 →
           ∃ c, h' !! (length four_set_store + i) = Some c ∧ is_leaf c = true
             ∧ load c = ((load nl + 1) / 4)%Q ∧ level c = (level nl + 1)%Z
             ∧ parent c = Some leaf)
    ∧ (¬ ((3 < load nl + 1)%Q ∧ (level nl < 6)%Z) →
       h' = alter (set_load (load nl + 1)%Q) leaf four_set_store).
Proof.
  apply (set_splits_once_under_guard 6%Z 3%Q 10%Q (9 # 10)%Q 1%Q four_set_store
           (1 # 4)%Q (1 # 4)%Q).
  - apply four_set_store_reachable.
  - split; [discriminate | reflexivity].
  - split; [discriminate | reflexivity].
Defined.

(** X21.  The running program refines the tree only where the workers
    hit: in every state of every run, the rectangle of every internal node
    meets the square [0.45, 0.55] x [0.45, 0.55] the workers draw their
    points from; a cell away from that square is never subdivided. *)
Theorem program_refines_at_centre (p : program) (r : ref) (n : Node) :
  running p → prog_store p !! r = Some n → is_leaf n = false →
  (x_min n <= 55 # 100)%Q ∧ (45 # 100 < x_max n)%Q
  ∧ (y_min n <= 55 # 100)%Q ∧ (45 # 100 < y_max n)%Q.
Proof.
  intros Hr Hn Hint. exact (running_refined p Hr r n Hn Hint).
Qed.

Lemma program_refines_at_centre_witness :
  (0 <= 55 # 100)%Q ∧ (45 # 100 < 1)%Q ∧ (0 <= 55 # 100)%Q ∧ (45 # 100 < 1)%Q.
Proof.
  apply (program_refines_at_centre busy_program 0
           (set_children (Some (1, 2, 3, 4)) (Node_init 0 0 1 1 0 None))).
  - apply busy_program_running.
  - reflexivity.
  - reflexivity.
Defined.

(** X22.  On a grid built on the default unit square, in every store
    reached by calls whose decay factors lie in [0, 1], [decay_load] with
    a factor [d <= 0] empties the grid instead of producing negative
    loads: every product is below [1e-6] and is clamped, so every node of
    the tree is left with load exactly 0; if [merge_threshold] is
    positive, the next [periodic_rebalance] then collapses the tree into
    the root.  [decay_load(0)] followed by [periodic_rebalance()] resets
    the grid. *)
Theorem decay_load_nonpositive_resets (ml : Z) (st mt df di : Q) (h : heap) (d : Q) :
  reachable_moderate (fresh ml st mt df di).1 (fresh ml st mt df di).2 h →
  (d <= 0)%Q →
  ∃ h', decay_load (fresh ml st mt df di).1 d h = Some h'
    ∧ (∀ r n, in_tree (fresh ml st mt df di).1 h' r → h' !! r = Some n →
         load n = 0%Q)
    ∧ ((0 < mt)%Q →
       ∃ h'' n, periodic_rebalance (fresh ml st mt df di).1 h' = Some h''
         ∧ h'' !! root (fresh ml st mt df di).1 = Some n
         ∧ is_leaf n = true ∧ (load n == 0)%Q).
Proof.
  intros Hr Hd. apply reachable_moderate_reachable in Hr.
  pose proof (reachable_fresh_ok _ _ _ _ _ _ Hr) as Hok.
  destruct (run_is_Some _ (OpDecayLoad d) _ Hok) as [h' Hdec].
  destruct (run_grid_ok _ _ _ _ Hok Hdec) as [Hok' _].
  pose proof (decay_nonpositive_zero _ _ _ _ Hok Hd Hdec) as Hall.
  exists h'. split; [done |]. split; [done |]. intros Hmt.
  destruct (total_load_subtree _ _ Hok') as (T & _ & HT & _ & _ & _).
  apply (empty_grid_collapses _ h' T Hok' HT); [| done].
  apply (all_zero_total _ _ _ Hok'); [| done].
  intros r n Ht Hn. by rewrite (Hall r n Ht Hn).
Qed.

Lemma decay_load_nonpositive_resets_witness :
  ∃ h', decay_load low_split_grid.1 0 four_set_store = Some h'
    ∧ (∀ r n, in_tree low_split_grid.1 h' r → h' !! r = Some n → load n = 0%Q)
    ∧ ((0 < 10)%Q →
       ∃ h'' n, periodic_rebalance low_split_grid.1 h' = Some h''
         ∧ h'' !! root low_split_grid.1 = Some n
         ∧ is_leaf n = true ∧ (load n == 0)%Q).
Proof.
  apply (decay_load_nonpositive_resets 6%Z 3%Q 10%Q (9 # 10)%Q 1%Q four_set_store 0%Q).
  - apply four_set_store_moderate.
  - discriminate.
Defined.
